(** * The exp/filesystem server: a read-only Upspin name space over a local tree

    A shallow embedding of package [filesystem]: the server and its
    access checks ([common.go]), the store server and the directory
    server ([store.go]), and the packing of the entry signature, with the
    properties of the metadata cache, the search for the Access file, the
    directory lister and the store's reference decoding.

    Conventions.
    - Go strings are [string]; byte slices are [list Byte.byte].
    - The mutable objects the servers share (the LRU cache of directory
      entries and the [upspin.DirEntry] objects it points to) live in an
      explicit [State]; entries are addressed by location so that aliasing
      between the cache and a caller's result is visible.
    - The local file system, the path parser, the access evaluator and the
      signer are collaborators outside the package: they are fields of a
      [World] record that every operation receives.
    - [fmt.Printf] calls only write to standard output and are left out;
      so is [Glob], which hands [Lookup] and [listDir] to
      [serverutil.Glob]. *)

From Stdlib Require Import ZArith Ascii String List Lia Bool.
From stdpp Require Import base option list strings.

Local Open Scope string_scope.
Local Open Scope list_scope.
Local Open Scope Z_scope.

(** ** Go's [strings] package, as far as the servers use it *)

Module GoStrings.

(** [strings.HasPrefix(s, prefix)]. *)
Definition HasPrefix (s pre : string) : bool := String.prefix pre s.

(** The slice expression [s[n:]] on a string with [n <= len(s)]. *)
Fixpoint slice_from (n : nat) (s : string) : string :=
  match n, s with
  | O, _ => s
  | S n', String _ s' => slice_from n' s'
  | S _, EmptyString => EmptyString
  end.

(** [strings.Split(s, sep)] for a separator of one byte, which is the
    only way the package calls it. The result is never empty. *)
Fixpoint Split (s : string) (sep : ascii) : list string :=
  match s with
  | EmptyString => [EmptyString]
  | String c s' =>
      if Ascii.eqb c sep then EmptyString :: Split s' sep
      else match Split s' sep with
           | [] => [String c EmptyString]
           | w :: ws => String c w :: ws
           end
  end.

(** [strings.Join(elems, sep)]. *)
Fixpoint Join (elems : list string) (sep : string) : string :=
  match elems with
  | [] => EmptyString
  | [e] => e
  | e :: rest => e +:+ sep +:+ Join rest sep
  end.

(** [elems[len(elems)-1]] and [elems[:len(elems)-1]] on a non-empty
    slice. *)
Definition last_elem (elems : list string) : string := List.last elems EmptyString.
Definition but_last (elems : list string) : list string := removelast elems.

Fixpoint contains_byte (c : ascii) (s : string) : bool :=
  match s with
  | EmptyString => false
  | String d s' => Ascii.eqb d c || contains_byte c s'
  end.

End GoStrings.

(** A string of decimal digits. *)
Definition is_digit (c : ascii) : bool :=
  let n := nat_of_ascii c in (48 <=? n)%nat && (n <=? 57)%nat.

Fixpoint is_decimal (d : string) : bool :=
  match d with
  | EmptyString => true
  | String c d' => is_digit c && is_decimal d'
  end.

(** ** Lexical path cleaning: [path.Clean], [path.Join], [filepath.Join] *)

Module GoPath.
Import GoStrings.

(** One pass over the slash-separated components with a stack, which is
    what [Clean]'s rules amount to: empty and [.] components vanish, a
    [..] removes the component before it, a [..] at the root vanishes,
    and a leading [..] of a relative path stays. [acc] is the stack, top
    first. *)
Fixpoint clean_components (rooted : bool) (acc cs : list string) : list string :=
  match cs with
  | [] => rev acc
  | c :: cs' =>
      if String.eqb c "" || String.eqb c "." then clean_components rooted acc cs'
      else if String.eqb c ".." then
        match acc with
        | top :: acc' =>
            if String.eqb top ".." then clean_components rooted (c :: acc) cs'
            else clean_components rooted acc' cs'
        | [] =>
            if rooted then clean_components rooted [] cs'
            else clean_components rooted [c] cs'
        end
      else clean_components rooted (c :: acc) cs'
  end.

Definition Clean (p : string) : string :=
  let rooted := HasPrefix p "/" in
  let body := Join (clean_components rooted [] (Split p "/")) "/" in
  let out := if rooted then "/" +:+ body else body in
  if String.eqb out "" then "." else out.

(** [Join(elem...)]: the elements from the first non-empty one on are
    joined with slashes and cleaned; all empty gives the empty string. *)
Fixpoint JoinPath (elem : list string) : string :=
  match elem with
  | [] => ""
  | e :: rest => if String.eqb e "" then JoinPath rest
                 else Clean (Join elem "/")
  end.

End GoPath.

(** [path/filepath] on a Unix host: the separator is the slash, so
    [filepath.Join] is [path.Join] and [filepath.FromSlash] is the
    identity. *)
Definition filepath_Join (a b : string) : string := GoPath.JoinPath [a; b].
Definition gPath_Join (a b : string) : string := GoPath.JoinPath [a; b].
Definition filepath_FromSlash (s : string) : string := s.

(** ** Errors and outcomes *)

(** Error numbers of the host, as far as the servers tell them apart:
    [os.IsNotExist] holds of [ENOENT] only. *)
Inductive Errno := ENOENT | EACCES | ENOTDIR | ELOOP | EIO.

(** The [Kind] of an [upspin.io/errors] error. *)
Inductive Kind :=
| KOther | KInvalid | KPermission | KIO | KExist | KNotExist
| KIsDir | KNotDir | KNotEmpty | KPrivate | KInternal.

(** Go [error] values. An [errors.E(args...)] call is kept as the list of
    its arguments; [errors.Errorf(format, args...)] as the format and its
    arguments; [errors.Str(text)] as its text. [PathError] is the
    [*os.PathError] of a failed system call. [SkipDir] and [SkipAll] are
    the sentinels of [path/filepath]. [Foreign] stands for any error made
    by a collaborator (the path parser, the access package, the signer). *)
Inductive error :=
| Str (text : string)
| Errorf (format : string) (args : list string)
| PathError (op path : string) (errno : Errno)
| SkipDir
| SkipAll
| Foreign (code : nat)
| E (args : list earg)
with earg :=
| AOp (op : string)
| APath (p : string)
| AKind (k : Kind)
| AText (text : string)
| AErr (err : error).

Definition os_IsNotExist (err : error) : bool :=
  match err with
  | PathError _ _ ENOENT => true
  | _ => false
  end.

Definition is_SkipDir (err : error) : bool :=
  match err with SkipDir => true | _ => false end.

Definition is_SkipAll (err : error) : bool :=
  match err with SkipAll => true | _ => false end.

(** What a call does: return a value with a nil error, return a non-nil
    error, or panic (a nil dereference or an index out of range). *)
Inductive outcome (A : Type) :=
| Ok (a : A)
| Fail (err : error)
| Panic.
Arguments Ok {A} a.
Arguments Fail {A} err.
Arguments Panic {A}.

Definition obind {A B : Type} (c : outcome A) (k : A -> outcome B) : outcome B :=
  match c with
  | Ok a => k a
  | Fail err => Fail err
  | Panic => Panic
  end.

Notation "'let*' x ':=' c 'in' k" := (obind c (fun x => k))
  (at level 10, x name, c at level 200, k at level 200).
Notation "'let*' ' pat ':=' c 'in' k" :=
  (obind c (fun x => match x with pat => k end))
  (at level 10, pat pattern, c at level 200, k at level 200).

(** ** The types of package [upspin] the servers handle *)

Definition PathName := string.
Definition Reference := string.

(** [upspin.Time]: seconds since the Unix epoch, an int64. *)
Definition upspin_Time := Z.

(** A Go [time.Time], as the pair [Unix()] and [Nanosecond()]. *)
Record GoTime := mkGoTime { unix_sec : Z; nanosecond : Z }.

(** [upspin.TimeFromGo(t)] is [Time(t.Unix())]. *)
Definition TimeFromGo (t : GoTime) : upspin_Time := unix_sec t.

(** [upspin.Attribute] is a byte of flags: [AttrNone] is zero and
    [AttrLink], [AttrDirectory], [AttrIncomplete] are [1 << iota] for
    iota = 1, 2, 3. *)
Definition Attribute := Z.
Definition AttrNone : Attribute := 0.
Definition AttrLink : Attribute := 2.
Definition AttrDirectory : Attribute := 4.
Definition AttrIncomplete : Attribute := 8.

(** [upspin.Packing]. The servers use [PlainPack] only. *)
Inductive Packing := UnassignedPack | PlainPack | EEPack | EEIntegrityPack.

Record Endpoint := mkEndpoint { Transport : Z; NetAddr : string }.

Record Location := mkLocation
  { loc_Endpoint : Endpoint
  ; loc_Reference : Reference }.

Record DirBlock := mkDirBlock
  { blk_Location : Location
  ; blk_Offset : Z
  ; blk_Size : Z
  ; blk_Packdata : list Byte.byte }.

Record DirEntry := mkDirEntry
  { SignedName : PathName
  ; Link : PathName
  ; Attr : Attribute
  ; Packing_of : Packing
  ; Time_of : upspin_Time
  ; Blocks : list DirBlock
  ; Packdata : list Byte.byte
  ; Writer : string
  ; Name : PathName
  ; Sequence : Z }.

(** [DirEntry.MarkIncomplete]: clears the blocks and the packdata and
    sets the incomplete flag. *)
Definition MarkIncomplete (d : DirEntry) : DirEntry :=
  {| SignedName := SignedName d; Link := Link d;
     Attr := Z.lor (Attr d) AttrIncomplete;
     Packing_of := Packing_of d; Time_of := Time_of d;
     Blocks := []; Packdata := [];
     Writer := Writer d; Name := Name d; Sequence := Sequence d |}.

Definition IsIncomplete (d : DirEntry) : bool :=
  negb (Z.land (Attr d) AttrIncomplete =? 0).

Definition IsDirEntry (d : DirEntry) : bool :=
  negb (Z.land (Attr d) AttrDirectory =? 0).

(** [upspin.Signature]: the two big integers of an ECDSA signature. *)
Record Signature := mkSignature { sig_R : Z; sig_S : Z }.

(** [upspin.Refdata]. [Duration] is in nanoseconds. *)
Record Refdata := mkRefdata
  { rd_Reference : Reference
  ; Volatile : bool
  ; Duration : Z }.

Definition time_Minute : Z := 60 * 1000000000.

(** A [upspin.Config], reduced to the three methods the package calls.
    [Factotum()] returns an interface value, which is nil for a
    configuration that has been given no keys; a factotum is named by a
    key handle and its operations are in [World]. *)
Record Config := mkConfig
  { UserName : string
  ; Factotum : option nat
  ; StoreEndpoint : Endpoint }.

(** The receiver of a method call on [cfg.Factotum()]: the call on a nil
    factotum is a nil dereference. *)
Definition factotum_of (cfg : Config) : outcome nat :=
  match Factotum cfg with
  | Some f => Ok f
  | None => Panic
  end.

(** ** Package [upspin.io/path]: parsed path names *)

(** A [path.Parsed] is a user name and the elements of a clean path. *)
Record Parsed := mkParsed { User : string; Elems : list string }.

Definition NElem (p : Parsed) : nat := length (Elems p).

(** [p.Drop(n)] for [n <= p.NElem()]: the last [n] elements removed. The
    library panics for a larger [n]; the only caller, [whichAccess],
    keeps [n] within [0..NElem]. *)
Definition Drop (p : Parsed) (n : nat) : Parsed :=
  {| User := User p; Elems := take (length (Elems p) - n)%nat (Elems p) |}.

(** [p.FilePath()]: the path below the user root, without the leading
    slash; empty for the root. *)
Definition FilePath (p : Parsed) : string := GoStrings.Join (Elems p) "/".

(** [p.Path()] and [p.String()]: the user name, a slash, the elements. *)
Definition Path (p : Parsed) : PathName := User p +:+ "/" +:+ FilePath p.
Definition Parsed_String (p : Parsed) : string := Path p.

(** ** Package [upspin.io/access] *)

Module access.

Inductive Right := Read | Write | List | Create | Delete | AnyRight.

(** A parsed Access file, kept as what it was parsed from: the name of
    the file and its contents. *)
Record Access := mkAccess { acc_path : PathName; acc_data : list Byte.byte }.

(** [access.ErrPermissionDenied]. *)
Definition ErrPermissionDenied : error := E [AKind KPermission].

End access.

(** ** Package [os]: file information *)

(** An [os.FileMode] is a 32-bit word: nine permission bits, and type bits
    at the top. *)
Definition FileMode := Z.
Definition ModeDir : FileMode := Z.shiftl 1 31.
Definition ModeSymlink : FileMode := Z.shiftl 1 27.
Definition ModeDevice : FileMode := Z.shiftl 1 26.
Definition ModeNamedPipe : FileMode := Z.shiftl 1 25.
Definition ModeSocket : FileMode := Z.shiftl 1 24.
Definition ModeCharDevice : FileMode := Z.shiftl 1 21.
Definition ModeIrregular : FileMode := Z.shiftl 1 19.
Definition ModeType : FileMode :=
  Z.lor ModeDir (Z.lor ModeSymlink (Z.lor ModeNamedPipe
    (Z.lor ModeSocket (Z.lor ModeDevice (Z.lor ModeCharDevice ModeIrregular))))).

Definition Mode_IsDir (m : FileMode) : bool := negb (Z.land m ModeDir =? 0).
Definition Mode_IsRegular (m : FileMode) : bool := Z.land m ModeType =? 0.

Record FileInfo := mkFileInfo
  { Mode : FileMode
  ; ModTime : GoTime
  ; Size : Z }.

Definition IsDir (fi : FileInfo) : bool := Mode_IsDir (Mode fi).

(** ** The collaborators *)

(** What a system call gives: a value, or an error number. *)
Inductive syscall (A : Type) :=
| Returns (a : A)
| Fails (errno : Errno).
Arguments Returns {A} a.
Arguments Fails {A} errno.

(** What a call into another Upspin package gives: a value, or an error
    of that package, which the servers only pass on. *)
Inductive reply (A : Type) :=
| Gives (a : A)
| Refuses (code : nat).
Arguments Gives {A} a.
Arguments Refuses {A} code.

(** Everything the package calls and does not define. Each field is the
    observable behaviour of one call at one moment; a later request may
    meet another [World] (a file was touched, the signer drew another
    nonce). *)
Record World := mkWorld
  { (* the local file system *)
    fs_stat : string -> syscall FileInfo
  ; fs_lstat : string -> syscall FileInfo
  ; fs_open : string -> syscall unit
  ; fs_readfile : string -> syscall (list Byte.byte)
  ; fs_readdir : string -> syscall (list string)
    (* upspin.io/path *)
  ; parse_path : PathName -> reply Parsed
    (* upspin.io/access *)
  ; new_access : PathName -> reply access.Access
  ; parse_access : PathName -> list Byte.byte -> reply access.Access
  ; access_can : access.Access -> string -> access.Right -> PathName ->
                 (PathName -> outcome (list Byte.byte)) -> reply bool
    (* upspin: DirEntry.Size and the factotum *)
  ; entry_size : DirEntry -> reply Z
  ; entry_hash : nat -> PathName -> PathName -> Attribute -> Packing ->
                 upspin_Time -> list Byte.byte -> list Byte.byte -> list Byte.byte
  ; file_sign : nat -> list Byte.byte -> reply Signature }.

(** A failed system call is a [*os.PathError] naming the call and the
    path. *)
Definition os_call {A : Type} (op path : string) (r : syscall A) : outcome A :=
  match r with
  | Returns a => Ok a
  | Fails errno => Fail (PathError op path errno)
  end.

Definition from_reply {A : Type} (r : reply A) : outcome A :=
  match r with
  | Gives a => Ok a
  | Refuses code => Fail (Foreign code)
  end.

(** [os.Stat], [os.Lstat], [os.Open], [ioutil.ReadFile] and the
    [readDirNames] of [path/filepath] ([Open], then [Readdirnames]). *)
Definition os_Stat (w : World) (name : string) : outcome FileInfo :=
  os_call "stat" name (fs_stat w name).
Definition os_Lstat (w : World) (name : string) : outcome FileInfo :=
  os_call "lstat" name (fs_lstat w name).
Definition os_Open (w : World) (name : string) : outcome unit :=
  os_call "open" name (fs_open w name).
Definition ioutil_ReadFile (w : World) (name : string) : outcome (list Byte.byte) :=
  os_call "open" name (fs_readfile w name).
Definition readDirNames (w : World) (dirname : string) : outcome (list string) :=
  os_call "open" dirname (fs_readdir w dirname).

(** [path.Parse]. *)
Definition path_Parse (w : World) (name : PathName) : outcome Parsed :=
  from_reply (parse_path w name).

(** [access.New], [access.Parse] and [a.Can(user, right, path, load)]. *)
Definition access_New (w : World) (name : PathName) : outcome access.Access :=
  from_reply (new_access w name).
Definition access_Parse (w : World) (name : PathName) (data : list Byte.byte)
  : outcome access.Access :=
  from_reply (parse_access w name data).
Definition access_Can (w : World) (a : access.Access) (user : string)
    (right : access.Right) (path : PathName)
    (load : PathName -> outcome (list Byte.byte)) : outcome bool :=
  from_reply (access_can w a user right path load).

(** [entry.Size()], [f.DirEntryHash(...)] and [f.FileSign(hash)] for the
    factotum [f]. *)
Definition DirEntry_Size (w : World) (d : DirEntry) : outcome Z :=
  from_reply (entry_size w d).
Definition DirEntryHash (w : World) (f : nat) (signedName link : PathName)
    (attr : Attribute) (pack : Packing) (time : upspin_Time)
    (dkey sum : list Byte.byte) : list Byte.byte :=
  entry_hash w f signedName link attr pack time dkey sum.
Definition FileSign (w : World) (f : nat) (hash : list Byte.byte) : outcome Signature :=
  from_reply (file_sign w f hash).

(** ** Package [upspin.io/cache]: the LRU cache *)

Module LRU.

(** The cache as its recency list, most recently used first; every key
    occurs at most once. [maxEntries] is the capacity given to [NewLRU]. *)
Record t (V : Type) := mk { maxEntries : nat; ll : list (string * V) }.
Arguments mk {V} maxEntries ll.
Arguments maxEntries {V} _.
Arguments ll {V} _.

Definition NewLRU {V : Type} (maxEntries : nat) : t V := mk maxEntries [].

Fixpoint find {V : Type} (key : string) (l : list (string * V)) : option V :=
  match l with
  | [] => None
  | (k, v) :: rest => if String.eqb k key then Some v else find key rest
  end.

Fixpoint remove_key {V : Type} (key : string) (l : list (string * V)) : list (string * V) :=
  match l with
  | [] => []
  | (k, v) :: rest =>
      if String.eqb k key then remove_key key rest else (k, v) :: remove_key key rest
  end.

(** [c.Get(key)]: a hit moves the element to the front. *)
Definition Get {V : Type} (c : t V) (key : string) : option V * t V :=
  match find key (ll c) with
  | Some v => (Some v, mk (maxEntries c) ((key, v) :: remove_key key (ll c)))
  | None => (None, c)
  end.

(** [c.Remove(key)]. *)
Definition Remove {V : Type} (c : t V) (key : string) : t V :=
  mk (maxEntries c) (remove_key key (ll c)).

(** [c.Add(key, value)]: a key already present is updated and moved to the
    front; a new key is pushed at the front and the oldest element is
    dropped if the list has grown beyond the capacity. *)
Definition Add {V : Type} (c : t V) (key : string) (value : V) : t V :=
  match find key (ll c) with
  | Some _ => mk (maxEntries c) ((key, value) :: remove_key key (ll c))
  | None =>
      let l := (key, value) :: ll c in
      if (maxEntries c <? length l)%nat
      then mk (maxEntries c) (removelast l)
      else mk (maxEntries c) l
  end.

(** What a lookup would find, without touching the recency order. *)
Definition peek {V : Type} (c : t V) (key : string) : option V := find key (ll c).

End LRU.

(** ** Encoding the signature: [pdMarshal] and [simplePack] *)

Definition aesKeyLen : nat := 32.
Definition marshalBufLen : nat := 66.
Definition sha256_Size : nat := 32.
Definition binary_MaxVarintLen64 : nat := 10.

Definition byte_of_Z (z : Z) : Byte.byte :=
  match Byte.of_N (Z.to_N (z mod 256)) with
  | Some b => b
  | None => Byte.x00
  end.

(** [x.Bytes()] of a [*big.Int]: the absolute value, big-endian, without
    leading zeros; zero is the empty slice. *)
Fixpoint be_bytes (fuel : nat) (n : Z) (acc : list Byte.byte) : list Byte.byte :=
  match fuel with
  | O => acc
  | S fuel' =>
      if n =? 0 then acc
      else be_bytes fuel' (Z.shiftr n 8) (byte_of_Z (Z.land n 255) :: acc)
  end.

Definition big_Bytes (x : Z) : list Byte.byte :=
  be_bytes (Z.to_nat (Z.log2 (Z.abs x)) + 1) (Z.abs x) [].

(** [binary.PutUvarint]: seven bits a byte, least significant group
    first, the top bit set on every byte but the last. A uint64 needs at
    most ten bytes. *)
Fixpoint uvarint_bytes (fuel : nat) (x : Z) : list Byte.byte :=
  match fuel with
  | O => [byte_of_Z x]
  | S fuel' =>
      if x <? 128 then [byte_of_Z x]
      else byte_of_Z (Z.lor (Z.land x 255) 128) :: uvarint_bytes fuel' (Z.shiftr x 7)
  end.

(** [binary.PutVarint] of an int64: zig-zag, then [PutUvarint]. *)
Definition varint_bytes (x : Z) : list Byte.byte :=
  let ux := (x * 2) mod 2 ^ 64 in
  let ux := if x <? 0 then Z.lxor ux (2 ^ 64 - 1) else ux in
  uvarint_bytes 9 ux.

(** [packutil.PutBytes(buf[n:], src)]: the length as a varint, then as
    many bytes of [src] as [copy] finds room for. Writing the varint
    beyond the end of the buffer is an index out of range. The result is
    the buffer after the call and the count of bytes written. *)
Definition PutBytes (buf : list Byte.byte) (n : nat) (src : list Byte.byte)
  : outcome (list Byte.byte * nat) :=
  let v := varint_bytes (Z.of_nat (length src)) in
  if (length buf - n <? length v)%nat then Panic
  else
    let c := take (length buf - n - length v)%nat src in
    Ok (take n buf ++ v ++ c ++ drop (n + length v + length c)%nat buf,
        (length v + length c)%nat).

(** [packdataLen]. *)
Definition packdataLen : nat := 2 * marshalBufLen + binary_MaxVarintLen64 + 1.

(** [pdMarshal(dst, sig, sig2)]. [sig2] is [None] for the [upspin.Signature{}]
    whose [R] is nil, which is replaced by the zero signature. The result
    is the new value of [*dst]; the error is always nil. *)
Definition pdMarshal (dst : list Byte.byte) (sig : Signature) (sig2 : option Signature)
  : outcome (list Byte.byte) :=
  let n := packdataLen in
  let dst := if (length dst <? n)%nat then repeat Byte.x00 n else dst in
  let n := O in
  let* '(dst, k) := PutBytes dst n (big_Bytes (sig_R sig)) in
  let n := (n + k)%nat in
  let* '(dst, k) := PutBytes dst n (big_Bytes (sig_S sig)) in
  let n := (n + k)%nat in
  let sig2 := match sig2 with
              | None => {| sig_R := 0; sig_S := 0 |}
              | Some s2 => s2
              end in
  let* '(dst, k) := PutBytes dst n (big_Bytes (sig_R sig2)) in
  let n := (n + k)%nat in
  let* '(dst, k) := PutBytes dst n (big_Bytes (sig_S sig2)) in
  let n := (n + k)%nat in
  Ok (take n dst).

(** [simplePack(cfg, entry)]: sign the entry with zero [dkey]
    and [sum] and store the marshalled signature in [entry.Packdata]. *)
Definition simplePack (w : World) (cfg : Config) (entry : DirEntry) : outcome DirEntry :=
  let dkey := repeat Byte.x00 aesKeyLen in
  let sum := repeat Byte.x00 sha256_Size in
  let* f := factotum_of cfg in
  let* sig := FileSign w f
           (DirEntryHash w f (SignedName entry) (Link entry) (Attr entry)
              (Packing_of entry) (Time_of entry) dkey sum) in
  let* pd := pdMarshal (Packdata entry) sig None in
  Ok {| SignedName := SignedName entry; Link := Link entry; Attr := Attr entry;
        Packing_of := Packing_of entry; Time_of := Time_of entry;
        Blocks := Blocks entry; Packdata := pd;
        Writer := Writer entry; Name := Name entry; Sequence := Sequence entry |}.

(** ** The server: [common.go] *)

Definition packing : Packing := PlainPack.
Definition maxCacheEntries : nat := Z.to_nat 10000.

Definition errReadOnly : error := Str "read-only name space".

(** The fields of [Server] that a request only reads. [user] is nil until
    [Dial]. The fourth field, [dirEntries], is a pointer to the cache that
    all dialed copies of a server share: it lives in [State]. *)
Record Server := mkServer
  { server : Config
  ; root : string
  ; defaultAccess : access.Access
  ; user : option Config }.

(** The objects behind the pointers: [heap] holds every [upspin.DirEntry]
    the package has allocated and handed out, addressed by its index;
    [dirEntries] maps local file names to such addresses. *)
Record State := mkState
  { heap : list DirEntry
  ; dirEntries : LRU.t nat }.

(** Computations that read and update the shared objects. *)
Definition M (A : Type) : Type := State -> outcome A * State.

Definition retM {A : Type} (a : A) : M A := fun st => (Ok a, st).
Definition failM {A : Type} (err : error) : M A := fun st => (Fail err, st).
Definition liftM {A : Type} (c : outcome A) : M A := fun st => (c, st).

Definition bindM {A B : Type} (c : M A) (k : A -> M B) : M B :=
  fun st =>
    match c st with
    | (Ok a, st') => k a st'
    | (Fail err, st') => (Fail err, st')
    | (Panic, st') => (Panic, st')
    end.

Notation "'let!' x ':=' c 'in' k" := (bindM c (fun x => k))
  (at level 10, x name, c at level 200, k at level 200).

(** [errors.E(op, err)] around a failed call. *)
Definition wrap {A : Type} (op : string) (c : outcome A) : outcome A :=
  match c with
  | Fail err => Fail (E [AOp op; AErr err])
  | other => other
  end.

Definition wrapM {A : Type} (op : string) (c : M A) : M A :=
  fun st => let '(r, st') := c st in (wrap op r, st').

(** [filepath.IsAbs] on a Unix host. *)
Definition filepath_IsAbs (p : string) : bool := GoStrings.HasPrefix p "/".

(** [New(cfg, root)]. [access.New] gives the default Access file of the
    owner's root. *)
Definition New (w : World) (cfg : Config) (root : string) : outcome (Server * State) :=
  let op := "exp/filesystem.New" in
  let root := GoPath.Clean root in
  if negb (filepath_IsAbs root)
  then Fail (E [AOp op; AKind KInvalid; AText "root must be an absolute path"])
  else
    match os_Stat w root with
    | Panic => Panic
    | Fail err =>
        if os_IsNotExist err then Fail (E [AOp op; AKind KNotExist; AErr err])
        else Fail (E [AOp op; AKind KIO; AErr err])
    | Ok fi =>
        if negb (IsDir fi) then Fail (E [AOp op; AText "root must be a directory"])
        else
          let* defaultAccess := wrap op (access_New w (UserName cfg +:+ "/Access")) in
          Ok ({| server := cfg; root := root; defaultAccess := defaultAccess;
                 user := None |},
              {| heap := []; dirEntries := LRU.NewLRU maxCacheEntries |})
    end.

(** [Dial]: a copy of the server with the caller's configuration. The
    copy holds the same cache pointer, so it works on the same [State]. *)
Definition Dial (s : Server) (cfg : Config) : Server :=
  {| server := server s; root := root s; defaultAccess := defaultAccess s;
     user := Some cfg |}.

(** One turn of the loop of [whichAccess], for the index [i]; [continue]
    is what the remaining turns give. *)
Definition whichAccess_step (w : World) (s : Server) (parsed : Parsed) (i : nat)
    (continue : outcome PathName) : outcome PathName :=
  let dir := filepath_Join (root s) (filepath_FromSlash (FilePath (Drop parsed i))) in
  match os_Stat w dir with
  | Panic => Panic
  | Fail err => Fail err
  | Ok fi =>
      if negb (IsDir fi) then continue
      else
        let name := filepath_Join dir "Access" in
        match os_Stat w name with
        | Panic => Panic
        | Fail err => if os_IsNotExist err then continue else Fail err
        | Ok fi =>
            (* File exists. Is it a regular file? *)
            let accessFile := gPath_Join (Parsed_String (Drop parsed i)) "Access" in
            if negb (Mode_IsRegular (Mode fi))
            then Fail (Errorf "%q is not a regular file" [accessFile])
            else
              match os_Open w name with
              | Panic => Panic
              | Fail err => Fail err (* File exists but cannot be read. *)
              | Ok _ => Ok accessFile
              end
        end
  end.

(** [for i := ...; i <= parsed.NElem(); i++], with [k] turns left. *)
Fixpoint whichAccess_loop (w : World) (s : Server) (parsed : Parsed) (k i : nat)
  : outcome PathName :=
  match k with
  | O => Ok ""
  | S k' => whichAccess_step w s parsed i (whichAccess_loop w s parsed k' (S i))
  end.

(** [whichAccess(parsed)]: look for an Access file starting at the end of
    the local path. *)
Definition whichAccess (w : World) (s : Server) (parsed : Parsed) : outcome PathName :=
  whichAccess_loop w s parsed (S (NElem parsed)) 0.

(** [readFile(name)]: the contents of the named file relative to the
    server root. The file must be world-readable. *)
Definition readFile (w : World) (s : Server) (name : PathName) : outcome (list Byte.byte) :=
  let* parsed := path_Parse w name in
  let localName := filepath_Join (root s) (FilePath parsed) in
  let* info := os_Stat w localName in
  if IsDir info then Fail (E [AKind KIsDir; APath name])
  else if Z.land (Mode info) 4 =? 0
  then Fail (E [AKind KPermission; AText "not world-readable"; APath name])
  else ioutil_ReadFile w localName.

(** [can(right, parsed)]: whether the calling user has the right on the
    path. The user name is read from [s.user], a nil dereference before
    [Dial]. *)
Definition can (w : World) (s : Server) (right : access.Right) (parsed : Parsed)
  : outcome bool :=
  let a := defaultAccess s in
  let* afn := whichAccess w s parsed in
  let* a :=
    (if negb (String.eqb afn "")
     then let* data := readFile w s afn in access_Parse w afn data
     else Ok a) in
  match user s with
  | None => Panic
  | Some u => access_Can w a (UserName u) right (Path parsed) (readFile w s)
  end.

(** ** The directory server *)

(** [verifyUserRoot(parsed)]: the user name in the path is the owner of
    this root. *)
Definition verifyUserRoot (s : Server) (parsed : Parsed) : outcome unit :=
  if negb (String.eqb (User parsed) (UserName (server s)))
  then Fail (E [AKind KInvalid; APath (Path parsed);
                AErr (Errorf "mismatched user name %q" [User parsed])])
  else Ok tt.

(** [upspinPathFromLocal(local)]: the owner's name followed by
    [local[len(s.root):]]. Every caller has checked that [local] begins
    with the root. *)
Definition upspinPathFromLocal (s : Server) (local : string) : PathName :=
  UserName (server s) +:+ GoStrings.slice_from (String.length (root s)) local.

Definition set_Blocks (d : DirEntry) (b : list DirBlock) : DirEntry :=
  {| SignedName := SignedName d; Link := Link d; Attr := Attr d;
     Packing_of := Packing_of d; Time_of := Time_of d;
     Blocks := b; Packdata := Packdata d;
     Writer := Writer d; Name := Name d; Sequence := Sequence d |}.

Definition set_Packdata (d : DirEntry) (pd : list Byte.byte) : DirEntry :=
  {| SignedName := SignedName d; Link := Link d; Attr := Attr d;
     Packing_of := Packing_of d; Time_of := Time_of d;
     Blocks := Blocks d; Packdata := pd;
     Writer := Writer d; Name := Name d; Sequence := Sequence d |}.

(** [&upspin.DirEntry{...}] leaving the function: the entry gets an
    address. Until then it is a local of [entry]. *)
Definition new_entry (d : DirEntry) : M nat :=
  fun st => (Ok (length (heap st)),
             {| heap := heap st ++ [d]; dirEntries := dirEntries st |}).

(** The [else] branch at the head of [entry]: a file may have a cached
    entry, which is returned if its time is the file's modification time
    and removed otherwise. The result is the hit, if any. *)
Definition cached_entry (file : string) (modTime : upspin_Time) : M (option nat) :=
  fun st =>
    let '(v, c) := LRU.Get (dirEntries st) file in
    match v with
    | Some l =>
        match heap st !! l with
        | Some e =>
            if Time_of e =? modTime
            then (Ok (Some l), {| heap := heap st; dirEntries := c |})
            else (Ok None, {| heap := heap st; dirEntries := LRU.Remove c file |})
        | None => (Panic, st)
        end
    | None => (Ok None, {| heap := heap st; dirEntries := c |})
    end.

Definition cache_add (file : string) (l : nat) : M unit :=
  fun st => (Ok tt, {| heap := heap st; dirEntries := LRU.Add (dirEntries st) file l |}).

(** [entry(file)]: the DirEntry for the named local file or directory. *)
Definition entry (w : World) (s : Server) (file : string) : M nat :=
  if negb (GoStrings.HasPrefix file (root s))
  then failM (Str "internal error: not in root")
  else
    let! info := liftM (os_Stat w file) in
    let modTime := TimeFromGo (ModTime info) in
    let attr := if IsDir info then AttrDirectory else AttrNone in
    let! hit := (if IsDir info then retM None else cached_entry file modTime) in
    match hit with
    | Some l => retM l
    | None =>
        let name := upspinPathFromLocal s file in
        let entry :=
          {| Name := name; SignedName := name; Packing_of := packing;
             Time_of := modTime; Attr := attr; Sequence := 0;
             Writer := UserName (server s);
             Link := ""; Blocks := []; Packdata := [] |} in
        if IsDir info
        then (* Nothing left to do. *) new_entry entry
        else
          let! offs := liftM (DirEntry_Size w entry) in
          let entry := set_Blocks entry
            [ {| blk_Location :=
                   {| loc_Endpoint := StoreEndpoint (server s);
                      loc_Reference := GoStrings.slice_from (String.length (root s)) file |};
                 blk_Offset := offs;
                 blk_Size := Size info;
                 blk_Packdata := [] |} ] in
          (* Compute entry signature with dkey=sum=0. *)
          let dkey := repeat Byte.x00 aesKeyLen in
          let sum := repeat Byte.x00 sha256_Size in
          let! u := liftM (match user s with Some u => Ok u | None => Panic end) in
          let! f := liftM (factotum_of u) in
          let! sig := liftM (FileSign w f
                        (DirEntryHash w f (SignedName entry) (Link entry)
                           (Attr entry) (Packing_of entry) (Time_of entry) dkey sum)) in
          let! pd := liftM (pdMarshal (Packdata entry) sig None) in
          let entry := set_Packdata entry pd in
          let! l := new_entry entry in
          let! _ := cache_add file l in
          retM l
    end.

(** [dirServer.Lookup(pathName)]. *)
Definition Lookup (w : World) (s : Server) (pathName : PathName) : M nat :=
  let op := "dir/filesystem.Lookup" in
  let! parsed := liftM (wrap op (path_Parse w pathName)) in
  let! _ := liftM (wrap op (verifyUserRoot s parsed)) in
  let! ok := liftM (wrap op (can w s access.List parsed)) in
  if negb ok then failM (E [AOp op; AKind KPrivate])
  else wrapM op (entry w s (filepath_Join (root s) (FilePath parsed))).

(** [e.MarkIncomplete()] on the entry at address [l]. *)
Definition mark_incomplete (l : nat) (st : State) : State :=
  {| heap := alter MarkIncomplete l (heap st); dirEntries := dirEntries st |}.

(** ** [filepath.Walk] *)

(** A [filepath.WalkFunc] that updates a state of type [WS]: the path, the
    file information (nil when [Lstat] failed), the error met on the way
    to the path, and the error it returns ([Ok tt] for nil). *)
Definition WalkFunc (WS : Type) : Type :=
  string -> option FileInfo -> option error -> WS -> outcome unit * WS.

(** The loop of [walk] over the names of a directory; [rec] is [walk]
    itself, for the files that [Lstat] could describe. *)
Fixpoint walk_names {WS : Type} (w : World)
    (rec : string -> FileInfo -> WS -> option (outcome unit * WS))
    (walkFn : WalkFunc WS) (path : string) (names : list string) (ws : WS)
  : option (outcome unit * WS) :=
  match names with
  | [] => Some (Ok tt, ws)
  | name :: rest =>
      let filename := filepath_Join path name in
      match os_Lstat w filename with
      | Panic => Some (Panic, ws)
      | Fail err =>
          match walkFn filename None (Some err) ws with
          | (Ok _, ws') => walk_names w rec walkFn path rest ws'
          | (Fail err, ws') =>
              if is_SkipDir err then walk_names w rec walkFn path rest ws'
              else Some (Fail err, ws')
          | (Panic, ws') => Some (Panic, ws')
          end
      | Ok fileInfo =>
          match rec filename fileInfo ws with
          | None => None
          | Some (Ok _, ws') => walk_names w rec walkFn path rest ws'
          | Some (Fail err, ws') =>
              if negb (IsDir fileInfo) || negb (is_SkipDir err)
              then Some (Fail err, ws')
              else walk_names w rec walkFn path rest ws'
          | Some (Panic, ws') => Some (Panic, ws')
          end
      end
  end.

(** [walk(path, info, walkFn)], as the standard library has it today: the
    names of a directory are read before the closure is called on it, and
    the closure receives the error of that reading. The recursion follows
    the directory tree, whose depth the model does not know: [depth]
    bounds it, and [None] says the bound was too small. *)
Fixpoint walk {WS : Type} (w : World) (depth : nat) (walkFn : WalkFunc WS)
    (path : string) (info : FileInfo) (ws : WS) : option (outcome unit * WS) :=
  match depth with
  | O => None
  | S depth' =>
      if negb (IsDir info) then Some (walkFn path (Some info) None ws)
      else
        let names := readDirNames w path in
        match names with
        | Panic => Some (Panic, ws)
        | Fail err => Some (walkFn path (Some info) (Some err) ws)
        | Ok names =>
            match walkFn path (Some info) None ws with
            | (Ok _, ws') => walk_names w (walk w depth' walkFn) walkFn path names ws'
            | other => Some other
            end
        end
  end.

(** [filepath.Walk(root, walkFn)]. *)
Definition Walk {WS : Type} (w : World) (depth : nat) (root : string)
    (walkFn : WalkFunc WS) (ws : WS) : option (outcome unit * WS) :=
  let r :=
    match os_Lstat w root with
    | Panic => Some (Panic, ws)
    | Fail err => Some (walkFn root None (Some err) ws)
    | Ok info => walk w depth walkFn root info ws
    end in
  match r with
  | Some (Fail err, ws') =>
      if is_SkipDir err || is_SkipAll err then Some (Ok tt, ws') else r
  | _ => r
  end.

(** ** Listing a directory *)

(** The closure [walk] of [listDir]. Its state is the shared [State] and
    the captured slice [entries]. *)
Definition listDir_walk (w : World) (s : Server) (dir : string)
  : WalkFunc (State * list nat) :=
  fun name info err ws =>
    let '(st, entries) := ws in
    match err with
    | Some err => (Fail err, ws)
    | None =>
        if String.eqb name dir then (Ok tt, ws)
        else
          match info with
          | None => (Panic, ws)
          | Some info =>
              let mode := Mode info in
              if negb (Mode_IsDir mode) && negb (Mode_IsRegular mode) then (Ok tt, ws)
              else
                match entry w s name st with
                | (Panic, st) => (Panic, (st, entries))
                | (Fail err, st) => (Fail err, (st, entries))
                | (Ok e, st) =>
                    match path_Parse w (upspinPathFromLocal s name) with
                    | Panic => (Panic, (st, entries))
                    | Fail err => (Fail err, (st, entries))
                    | Ok parsed =>
                        match can w s access.Read parsed with
                        | Panic => (Panic, (st, entries))
                        | Fail err => (Fail err, (st, entries))
                        | Ok ok =>
                            let st := if negb ok then mark_incomplete e st else st in
                            let entries := entries ++ [e] in
                            if Mode_IsDir mode
                            then (* Don't walk sub-directories. *)
                                 (Fail SkipDir, (st, entries))
                            else (Ok tt, (st, entries))
                        end
                    end
                end
          end
    end.

(** [listDir(name)]. Go returns the slice and the error side by side. *)
Definition listDir (w : World) (s : Server) (depth : nat) (name : PathName) (st : State)
  : option (list nat * outcome unit * State) :=
  match path_Parse w name with
  | Panic => Some ([], Panic, st)
  | Fail err => Some ([], Fail err, st)
  | Ok parsed =>
      match can w s access.List parsed with
      | Panic => Some ([], Panic, st)
      | Fail err => Some ([], Fail err, st)
      | Ok false => Some ([], Fail (E [APath name; AKind KPrivate]), st)
      | Ok true =>
          let dir := filepath_Join (root s) (FilePath parsed) in
          match Walk w depth dir (listDir_walk w s dir) (st, []) with
          | None => None
          | Some (r, (st', entries)) => Some (entries, r, st')
          end
      end
  end.

(** ** The rest of the directory server *)

(** [dirServer.WhichAccess(pathName)]. *)
Definition WhichAccess (w : World) (s : Server) (pathName : PathName) : M nat :=
  let op := "dir/filesystem.WhichAccess" in
  let! parsed := liftM (wrap op (path_Parse w pathName)) in
  let! _ := liftM (wrap op (verifyUserRoot s parsed)) in
  let! ok := liftM (wrap op (can w s access.AnyRight parsed)) in
  if negb ok then failM (E [AOp op; AErr access.ErrPermissionDenied])
  else
    let! accessPath := liftM (wrap op (whichAccess w s parsed)) in
    wrapM op (entry w s accessPath).

(** [upspin.ErrNotSupported]. *)
Definition ErrNotSupported : error := Str "not supported".

(** [dirServer.Watch]. *)
Definition Watch (name : PathName) (order : Z) : M unit := failM ErrNotSupported.

(** Methods that are not implemented. *)

Definition dirServer_Delete (pathName : PathName) : M nat :=
  let op := "dir/filesystem.Delete" in
  failM (E [AOp op; AErr errReadOnly]).

Definition dirServer_Put (entry : DirEntry) : M nat :=
  let op := "dir/filesystem.Put" in
  failM (E [AOp op; AErr errReadOnly]).

(** ** The store server *)

Definition errNotDialed : error :=
  E [AKind KInternal; AText "must Dial before making request"].

(** [storeServer.Get(ref)]. The result is the data, the [Refdata] and the
    (nil) slice of locations. *)
Definition Get (w : World) (s : Server) (ref : Reference)
  : M (list Byte.byte * Refdata * list Location) :=
  let op := "store/filesystem.Get" in
  match user s with
  | None => failM (E [AOp op; AErr errNotDialed])
  | Some _ =>
      let splitRef := GoStrings.Split ref "-" in
      let ref := GoStrings.Join (GoStrings.but_last splitRef) "-" in
      let offset := GoStrings.last_elem splitRef in
      let pathName := UserName (server s) +:+ "" +:+ ref in
      let! parsed := liftM (wrap op (path_Parse w pathName)) in
      (* Verify that the requesting user can access this file. *)
      let! ok := liftM (wrap op (can w s access.Read parsed)) in
      if negb ok
      then failM (E [AOp op; APath (Path parsed); AErr access.ErrPermissionDenied])
      else
        let! data := liftM (wrap op (readFile w s (pathName +:+ "-" +:+ offset))) in
        let refdata :=
          {| rd_Reference := ref; Volatile := false; Duration := time_Minute |} in
        retM (data, refdata, [])
  end.

(** Methods that are not implemented. *)

Definition storeServer_Put (ciphertext : list Byte.byte) : M Refdata :=
  let op := "store/filesystem.Put" in
  failM (E [AOp op; AErr errReadOnly]).

Definition storeServer_Delete (ref : Reference) : M unit :=
  let op := "store/filesystem.Delete" in
  failM (E [AOp op; AErr errReadOnly]).


(** ** Vocabulary of the statements *)

(** The [i]-th candidate of [whichAccess]: the local directory of the path
    without its last [i] elements, the local name of an Access file in
    it, and the logical name of that file. *)
Definition candidate_dir (s : Server) (parsed : Parsed) (i : nat) : string :=
  filepath_Join (root s) (filepath_FromSlash (FilePath (Drop parsed i))).

Definition candidate_Access (s : Server) (parsed : Parsed) (i : nat) : string :=
  filepath_Join (candidate_dir s parsed i) "Access".

Definition candidate_logical (parsed : Parsed) (i : nat) : PathName :=
  gPath_Join (Parsed_String (Drop parsed i)) "Access".

(** The [i]-th candidate can be described and holds no Access file: it is
    not a directory, or [Stat] finds no file named Access in it. *)
Definition no_Access_at (w : World) (s : Server) (parsed : Parsed) (i : nat) : Prop :=
  exists fi,
    os_Stat w (candidate_dir s parsed i) = Ok fi
    /\ (IsDir fi = false
        \/ exists err, os_Stat w (candidate_Access s parsed i) = Fail err
                       /\ os_IsNotExist err = true).

(** The entry that [entry] prepares for a local name before it looks at
    blocks and signature. *)
Definition bare_entry (s : Server) (file : string) (info : FileInfo) : DirEntry :=
  {| Name := upspinPathFromLocal s file;
     SignedName := upspinPathFromLocal s file;
     Packing_of := packing;
     Time_of := TimeFromGo (ModTime info);
     Attr := if IsDir info then AttrDirectory else AttrNone;
     Sequence := 0;
     Writer := UserName (server s);
     Link := ""; Blocks := []; Packdata := [] |}.

(** The single block of a file's entry. *)
Definition file_block (s : Server) (file : string) (info : FileInfo) (offs : Z) : DirBlock :=
  {| blk_Location :=
       {| loc_Endpoint := StoreEndpoint (server s);
          loc_Reference := GoStrings.slice_from (String.length (root s)) file |};
     blk_Offset := offs;
     blk_Size := Size info;
     blk_Packdata := [] |}.

(** The hash that the factotum [f] signs for an entry: [dkey] and [sum]
    are zero. *)
Definition entry_digest (w : World) (f : nat) (d : DirEntry) : list Byte.byte :=
  DirEntryHash w f (SignedName d) (Link d) (Attr d) (Packing_of d) (Time_of d)
    (repeat Byte.x00 aesKeyLen) (repeat Byte.x00 sha256_Size).

(** The cache holds an entry for the file, with the given time or with
    another one. *)
Definition cached_fresh (st : State) (file : string) (modTime : upspin_Time) (l : nat)
  : Prop :=
  LRU.peek (dirEntries st) file = Some l
  /\ exists e, heap st !! l = Some e /\ Time_of e = modTime.

Definition cached_stale (st : State) (file : string) (modTime : upspin_Time) : Prop :=
  exists l e, LRU.peek (dirEntries st) file = Some l
              /\ heap st !! l = Some e /\ Time_of e <> modTime.

(** The state with another cache. *)
Definition with_cache (st : State) (c : LRU.t nat) : State :=
  {| heap := heap st; dirEntries := c |}.

(** [SkipDir] and [SkipAll], which [filepath.Walk] does not report. *)
Definition is_skip (err : error) : bool := is_SkipDir err || is_SkipAll err.

(** An entry as [MarkIncomplete] leaves it. *)
Definition incomplete (e : DirEntry) : Prop :=
  IsIncomplete e = true /\ Blocks e = [] /\ Packdata e = [].

(** Every cached address holds an entry named after the cached file. *)
Definition cache_names (s : Server) (st : State) : Prop :=
  forall file l,
    LRU.peek (dirEntries st) file = Some l ->
    exists e, heap st !! l = Some e /\ Name e = upspinPathFromLocal s file.

(** What happens to allocated entries: they keep their address and their
    name, and an incomplete entry stays incomplete. *)
Definition heap_evolves (h h' : list DirEntry) : Prop :=
  forall l e,
    h !! l = Some e ->
    exists e', h' !! l = Some e' /\ Name e' = Name e /\ (incomplete e -> incomplete e').








(** ** Listing one level, step by step *)




(** ** A small world to run the servers on *)

Module Demo.

Definition owner : string := "ann@example.com".
Definition guest : string := "bob@example.com".

Definition ann : Config :=
  {| UserName := owner; Factotum := Some 1%nat;
     StoreEndpoint := {| Transport := 0; NetAddr := "" |} |}.
Definition bob : Config :=
  {| UserName := guest; Factotum := Some 2%nat;
     StoreEndpoint := {| Transport := 0; NetAddr := "" |} |}.

Definition dir_mode : FileMode := Z.lor ModeDir 493.      (* drwxr-xr-x *)
Definition file_mode : FileMode := 420.                   (* -rw-r--r-- *)
Definition private_mode : FileMode := 384.                (* -rw------- *)
Definition socket_mode : FileMode := Z.lor ModeSocket 493.

Definition info (mode : FileMode) (mtime size : Z) : FileInfo :=
  {| Mode := mode; ModTime := {| unix_sec := mtime; nanosecond := 0 |}; Size := size |}.

(** The tree below [/srv]. *)
Definition files : list (string * FileInfo) :=
  [ ("/srv", info dir_mode 50 0)
  ; ("/srv/doc", info file_mode 100 5)
  ; ("/srv/doc-0", info file_mode 100 5)
  ; ("/srv/secret", info private_mode 100 9)
  ; ("/srv/pub", info dir_mode 60 0)
  ; ("/srv/pub/Access", info file_mode 70 1)
  ; ("/srv/pub/a.txt", info file_mode 100 3)
  ; ("/srv/pub/b.txt", info file_mode 100 4)
  ; ("/srv/pub/sock", info socket_mode 100 0)
  ; ("/srv/pub/sub", info dir_mode 80 0)
  ; ("/srv/pub/sub/deep.txt", info file_mode 100 2) ].

(** What the readable files hold. *)
Definition contents : list (string * list Byte.byte) :=
  [ ("/srv/doc-0", [Byte.x68; Byte.x65; Byte.x6c; Byte.x6c; Byte.x6f])
  ; ("/srv/pub/Access", [Byte.x72]) ].

Definition listings : list (string * list string) :=
  [ ("/srv", ["doc"; "doc-0"; "pub"; "secret"])
  ; ("/srv/pub", ["Access"; "a.txt"; "b.txt"; "sock"; "sub"])
  ; ("/srv/pub/sub", ["deep.txt"]) ].

Fixpoint lookup {V : Type} (key : string) (l : list (string * V)) : option V :=
  match l with
  | [] => None
  | (k, v) :: rest => if String.eqb k key then Some v else lookup key rest
  end.

Definition stat_in (fs : list (string * FileInfo)) (name : string) : syscall FileInfo :=
  match lookup name fs with
  | Some fi => Returns fi
  | None => Fails ENOENT
  end.

Definition open_in (fs : list (string * FileInfo)) (name : string) : syscall unit :=
  match lookup name fs with
  | Some _ => Returns tt
  | None => Fails ENOENT
  end.

Definition readdir_in (ls : list (string * list string)) (name : string)
  : syscall (list string) :=
  match lookup name ls with
  | Some names => Returns names
  | None => Fails ENOTDIR
  end.

Definition nonempty (e : string) : bool := negb (String.eqb e "").

(** A parser for names that are already clean: the user name is what
    precedes the first slash. *)
Definition parse (name : PathName) : reply Parsed :=
  match GoStrings.Split name "/" with
  | u :: rest =>
      if String.eqb u "" then Refuses 1
      else Gives {| User := u; Elems := List.filter nonempty rest |}
  | [] => Refuses 1
  end.

(** A policy: the owner may do anything; anybody may list anything but
    the owner's root; anybody may read [pub/a.txt]. *)
Definition policy (a : access.Access) (u : string) (right : access.Right)
    (p : PathName) (load : PathName -> outcome (list Byte.byte)) : reply bool :=
  Gives (String.eqb u owner
         || match right with
            | access.List => negb (String.eqb p "ann@example.com/")
            | access.Read => String.eqb p "ann@example.com/pub/a.txt"
            | _ => false
            end).

(** A signer: the signature depends on the key and the length of the hash. *)
Definition sign (f : nat) (hash : list Byte.byte) : reply Signature :=
  Gives {| sig_R := 1000 + Z.of_nat f; sig_S := 77 + Z.of_nat (length hash) |}.

Definition hash (f : nat) (signedName link : PathName) (attr : Attribute)
    (pack : Packing) (time : upspin_Time) (dkey sum : list Byte.byte) : list Byte.byte :=
  byte_of_Z attr :: byte_of_Z time :: dkey.

Definition world_of (fs : list (string * FileInfo))
    (signer : nat -> list Byte.byte -> reply Signature) : World :=
  {| fs_stat := stat_in fs;
     fs_lstat := stat_in fs;
     fs_open := open_in fs;
     fs_readfile := fun name => match lookup name fs with
                                | Some _ => Returns (default [] (lookup name contents))
                                | None => Fails ENOENT
                                end;
     fs_readdir := readdir_in listings;
     parse_path := parse;
     new_access := fun name => Gives {| access.acc_path := name; access.acc_data := [] |};
     parse_access := fun name data =>
                       Gives {| access.acc_path := name; access.acc_data := data |};
     access_can := policy;
     entry_size := fun d => Gives 0;
     entry_hash := hash;
     file_sign := signer |}.

Definition world : World := world_of files sign.

(** The same tree after [path] has been touched at time [t]. *)
Definition touch (fs : list (string * FileInfo)) (path : string) (t : Z)
  : list (string * FileInfo) :=
  List.map (fun kv => if String.eqb (fst kv) path
                      then (fst kv, info (Mode (snd kv)) t (Size (snd kv)))
                      else kv) fs.

(** The same tree with a signer that refuses. *)
Definition world_without_signer : World := world_of files (fun _ _ => Refuses 7).

(** The tree after [/srv/doc] has been touched at time 200, with the
    signer and with a signer that refuses. *)
Definition world_touched : World := world_of (touch files "/srv/doc" 200) sign.
Definition world_touched_without_signer : World :=
  world_of (touch files "/srv/doc" 200) (fun _ _ => Refuses 7).

(** The same tree with [/srv/pub/Access] closed to the server process. *)
Definition world_closed_Access : World :=
  {| fs_stat := fs_stat world; fs_lstat := fs_lstat world;
     fs_open := fun name => if String.eqb name "/srv/pub/Access" then Fails EACCES
                            else fs_open world name;
     fs_readfile := fs_readfile world; fs_readdir := fs_readdir world;
     parse_path := parse_path world; new_access := new_access world;
     parse_access := parse_access world; access_can := access_can world;
     entry_size := entry_size world; entry_hash := entry_hash world;
     file_sign := file_sign world |}.

(** The server as [New] makes it, and its dialed copies. *)
Definition srv : Server :=
  {| server := ann; root := "/srv";
     defaultAccess := {| access.acc_path := "ann@example.com/Access"; access.acc_data := [] |};
     user := None |}.

Definition init : State := {| heap := []; dirEntries := LRU.NewLRU maxCacheEntries |}.

Definition for_ann : Server := Dial srv ann.
Definition for_bob : Server := Dial srv bob.

(** The state after the owner has asked for the entry of [/srv/doc], and
    that entry. *)
Definition after_doc : State := snd (entry world for_ann "/srv/doc" init).

Definition doc_info : FileInfo := info file_mode 100 5.

Definition doc_entry : DirEntry :=
  set_Packdata
    (set_Blocks (bare_entry for_ann "/srv/doc" doc_info)
       [file_block for_ann "/srv/doc" doc_info 0])
    [Byte.x04; Byte.x03; Byte.xe9; Byte.x02; Byte.x6f; Byte.x00; Byte.x00].

(** The parsed paths [ann@example.com/pub] and [ann@example.com/pub/b.txt]. *)
Definition pub : Parsed := {| User := owner; Elems := ["pub"] |}.
Definition pub_b : Parsed := {| User := owner; Elems := ["pub"; "b.txt"] |}.

(** The state after the owner has looked up [pub/b.txt], and the state
    after the guest has then listed [pub]. *)
Definition after_b : State :=
  snd (Lookup world for_ann "ann@example.com/pub/b.txt" init).

Definition after_listing : State :=
  match listDir world for_bob 2 "ann@example.com/pub" after_b with
  | Some (_, _, st) => st
  | None => after_b
  end.

(** A server whose root is the empty string, on a tree of relative names
    in which a directory carries the owner's name: the one arrangement in
    which a logical path begins with the root. *)
Definition relative_files : list (string * FileInfo) :=
  [ ("", info dir_mode 50 0)
  ; ("Access", info file_mode 70 1)
  ; ("ann@example.com", info dir_mode 50 0)
  ; ("ann@example.com/Access", info file_mode 90 1) ].

Definition relative_world : World := world_of relative_files sign.

Definition relative_srv : Server :=
  {| server := ann; root := "";
     defaultAccess := {| access.acc_path := "ann@example.com/Access"; access.acc_data := [] |};
     user := Some ann |}.

(** The state after [WhichAccess] on that server. *)
Definition relative_after : State :=
  snd (WhichAccess relative_world relative_srv "ann@example.com/" init).


End Demo.

(** ** More worlds *)

Module Demo2.

(** The tree of [Demo] with [/srv/pub/Access] readable by its owner only. *)
Definition files_private_Access : list (string * FileInfo) :=
  List.map (fun kv => if String.eqb (fst kv) "/srv/pub/Access"
                      then (fst kv, Demo.info Demo.private_mode 70 1)
                      else kv) Demo.files.

Definition world_private_Access : World :=
  Demo.world_of files_private_Access Demo.sign.

(** The parsed paths [ann@example.com/pub/a.txt], [ann@example.com/doc],
    [ann@example.com/nothing] and [bob@example.com/doc]. *)
Definition pub_a : Parsed := {| User := Demo.owner; Elems := ["pub"; "a.txt"] |}.
Definition doc : Parsed := {| User := Demo.owner; Elems := ["doc"] |}.
Definition nothing : Parsed := {| User := Demo.owner; Elems := ["nothing"] |}.
Definition bobs_doc : Parsed := {| User := Demo.guest; Elems := ["doc"] |}.

(** The tree of [Demo] with a signer of small signatures. *)
Definition small_sign (f : nat) (hash : list Byte.byte) : reply Signature :=
  Gives {| sig_R := 5; sig_S := 7 |}.

Definition world_small_signatures : World := Demo.world_of Demo.files small_sign.

(** The tree of [Demo] after [/srv/doc] has been rewritten within the
    second of its modification time: another size, another nanosecond. *)
Definition doc_rewritten : FileInfo :=
  {| Mode := Demo.file_mode;
     ModTime := {| unix_sec := 100; nanosecond := 500 |};
     Size := 9 |}.

Definition files_rewritten : list (string * FileInfo) :=
  List.map (fun kv => if String.eqb (fst kv) "/srv/doc"
                      then (fst kv, doc_rewritten)
                      else kv) Demo.files.

Definition world_rewritten : World := Demo.world_of files_rewritten Demo.sign.

(** A caller whose configuration has no factotum. *)
Definition keyless : Config :=
  {| UserName := Demo.guest; Factotum := None;
     StoreEndpoint := {| Transport := 0; NetAddr := "" |} |}.

Definition for_keyless : Server := Dial Demo.srv keyless.

End Demo2.

(** ** More vocabulary *)

(** The [i]-th candidate of [whichAccess] holds an Access file that the
    search accepts: the candidate is a directory, the file named Access
    in it is a regular file, and it can be opened. *)
Definition Access_at (w : World) (s : Server) (parsed : Parsed) (i : nat) : Prop :=
  exists fi fa,
    os_Stat w (candidate_dir s parsed i) = Ok fi
    /\ IsDir fi = true
    /\ os_Stat w (candidate_Access s parsed i) = Ok fa
    /\ Mode_IsRegular (Mode fa) = true
    /\ os_Open w (candidate_Access s parsed i) = Ok tt.

(** An element of a clean path: not empty, not [.] or [..], without a
    slash. *)
Definition proper_elem (c : string) : bool :=
  negb (String.eqb c "") && negb (String.eqb c ".") && negb (String.eqb c "..")
  && negb (GoStrings.contains_byte "/" c).

Definition nonempty_elem (c : string) : bool := negb (String.eqb c "").

(** What [packutil.PutBytes] writes for a byte slice, given room: the
    length as a varint, then the bytes; and the four fields that
    [pdMarshal] writes. *)
Definition pd_bytes (src : list Byte.byte) : list Byte.byte :=
  varint_bytes (Z.of_nat (length src)) ++ src.

Definition pd_field (x : Z) : list Byte.byte := pd_bytes (big_Bytes x).

Definition pd_encoding (sig : Signature) (sig2 : option Signature) : list Byte.byte :=
  let sig2 := match sig2 with
              | None => {| sig_R := 0; sig_S := 0 |}
              | Some s2 => s2
              end in
  pd_field (sig_R sig) ++ pd_field (sig_S sig)
  ++ pd_field (sig_R sig2) ++ pd_field (sig_S sig2).

(** A component that [Clean] leaves in a path: not empty, without a
    slash. *)
Definition clean_elem (c : string) : bool :=
  negb (String.eqb c "") && negb (GoStrings.contains_byte "/" c).

(** The cache is in order for the capacity [n]: it has that capacity,
    holds every file once at most and no more than [n] files. *)
Definition cache_in_order {V : Type} (n : nat) (c : LRU.t V) : Prop :=
  LRU.maxEntries c = n
  /\ NoDup (List.map fst (LRU.ll c))
  /\ (length (LRU.ll c) <= n)%nat.

(** The shared state is in order: the cache is, and every cached address
    holds an entry named after the cached file. *)
Definition state_in_order (s : Server) (n : nat) (st : State) : Prop :=
  cache_in_order n (dirEntries st) /\ cache_names s st.

(** The values of every signature that the signer of [w] gives fit into
    [marshalBufLen] bytes. *)
Definition signatures_fit (w : World) : Prop :=
  forall (f : nat) (hash : list Byte.byte) (sig : Signature),
    FileSign w f hash = Ok sig ->
    Z.abs (sig_R sig) < 2 ^ (8 * Z.of_nat marshalBufLen)
    /\ Z.abs (sig_S sig) < 2 ^ (8 * Z.of_nat marshalBufLen).

(** What a walk keeps: the state in order, and the entries of [h0] at
    their addresses. *)
Definition walk_in_order (s : Server) (n : nat) (h0 : list DirEntry)
    (ws : State * list nat) : Prop :=
  state_in_order s n (fst ws) /\ heap_evolves h0 (heap (fst ws)).
(** * Properties *)

(** Closed equations between runs of the model are settled by evaluation. *)
Ltac run := vm_compute; reflexivity.

(** ** Sanity checks of the library models *)

Example Clean_samples :
  GoPath.Clean "/srv//data/./x/../y/" = "/srv/data/y"
  /\ GoPath.Clean "a/../.." = ".."
  /\ GoPath.Clean "/.." = "/"
  /\ GoPath.Clean "" = "."
  /\ filepath_Join "/srv" "" = "/srv"
  /\ filepath_Join "/" "a/b" = "/a/b"
  /\ gPath_Join "ann@example.com/" "Access" = "ann@example.com/Access".
Proof. vm_compute. repeat split. Qed.

Example Split_samples :
  GoStrings.Split "a/b-c-42" "-" = ["a/b"; "c"; "42"]
  /\ GoStrings.Split "" "-" = [""]
  /\ GoStrings.Split "-" "-" = [""; ""]
  /\ GoStrings.Split "doc" "-" = ["doc"].
Proof. vm_compute. repeat split. Qed.


(** ** Splitting and joining *)

Section SplitJoin.
Import GoStrings.

Variable sep : ascii.

Lemma Split_nonempty (s : string) : Split s sep <> [].
Proof.
  destruct s as [|c s]; simpl; [discriminate|].
  destruct (Ascii.eqb c sep); [discriminate|].
  destruct (Split s sep); discriminate.
Qed.

(** A separator in the middle cuts the string there. *)
Lemma Split_app (a b : string) :
  Split (a +:+ String sep b) sep = Split a sep ++ Split b sep.
Proof.
  induction a as [|c a IH]; simpl.
  - rewrite Ascii.eqb_refl. reflexivity.
  - destruct (Ascii.eqb c sep); rewrite IH; [reflexivity|].
    pose proof (Split_nonempty a) as Hne.
    destruct (Split a sep); [contradiction | reflexivity].
Qed.

Lemma Split_without_sep (d : string) :
  contains_byte sep d = false -> Split d sep = [d].
Proof.
  induction d as [|c d IH]; simpl; intros H; [reflexivity|].
  apply orb_false_iff in H as [Hc Hd].
  rewrite Hc, (IH Hd). reflexivity.
Qed.

(** Joining what [Split] gave with the separator gives the string back. *)
Lemma Join_Split (s : string) : Join (Split s sep) (String sep "") = s.
Proof.
  induction s as [|c s IH]; simpl; [reflexivity|].
  pose proof (Split_nonempty s) as Hne.
  destruct (Ascii.eqb c sep) eqn:Hc.
  - apply Ascii.eqb_eq in Hc. subst c.
    destruct (Split s sep) as [|w ws]; [contradiction|].
    simpl in *. rewrite IH. reflexivity.
  - destruct (Split s sep) as [|w ws]; [contradiction|].
    destruct ws; simpl in *; rewrite <- IH; reflexivity.
Qed.

Lemma last_elem_snoc (l : list string) (d : string) : last_elem (l ++ [d]) = d.
Proof. unfold last_elem. apply List.last_last. Qed.

Lemma but_last_snoc (l : list string) (d : string) : but_last (l ++ [d]) = l.
Proof. unfold but_last. apply List.removelast_last. Qed.

End SplitJoin.

Lemma decimal_has_no_hyphen (d : string) :
  is_decimal d = true -> GoStrings.contains_byte "-" d = false.
Proof.
  induction d as [|c d IH]; simpl; intros H; [reflexivity|].
  apply andb_true_iff in H as [Hc Hd].
  rewrite (IH Hd), orb_false_r.
  destruct (Ascii.eqb c "-") eqn:E; [|reflexivity].
  apply Ascii.eqb_eq in E. subst c. discriminate Hc.
Qed.

(** What [Get] makes of a reference [p-d] whose last token is [d]. *)
Lemma decode_reference (p d : string) :
  GoStrings.contains_byte "-" d = false ->
  let splitRef := GoStrings.Split (p +:+ "-" +:+ d) "-" in
  GoStrings.Join (GoStrings.but_last splitRef) "-" = p
  /\ GoStrings.last_elem splitRef = d.
Proof.
  intros Hd. cbv zeta.
  change ("-" +:+ d) with (String "-" d).
  rewrite Split_app, (Split_without_sep _ _ Hd).
  rewrite but_last_snoc, last_elem_snoc, Join_Split. split; reflexivity.
Qed.

(** ** The monad of the servers *)

Lemma bindM_Ok {A B : Type} (c : M A) (k : A -> M B) (st st' : State) (a : A) :
  c st = (Ok a, st') -> bindM c k st = k a st'.
Proof. unfold bindM. intros ->. reflexivity. Qed.

Lemma bindM_Fail {A B : Type} (c : M A) (k : A -> M B) (st st' : State) (err : error) :
  c st = (Fail err, st') -> bindM c k st = (Fail err, st').
Proof. unfold bindM. intros ->. reflexivity. Qed.

Lemma bindM_liftM_Ok {A B : Type} (c : outcome A) (k : A -> M B) (st : State) (a : A) :
  c = Ok a -> bindM (liftM c) k st = k a st.
Proof. intros ->. reflexivity. Qed.

(** ** References of the store *)

(** C7. Composite content references round-trip. For every relative path
    [p], which may contain hyphens, and every string of decimal digits
    [d], [Get] splits the reference [p-d] into the path [p] (everything
    before the last hyphen-delimited token) and the offset [d]; and once
    the caller has dialed, the owner-rooted name of [p] parses and the
    read right is granted, [Get] returns what [readFile] gives for the
    logical path followed by a hyphen and the offset, with [p] as the
    reference of the [Refdata]. *)
Theorem composite_reference_round_trip (p d : string) :
  is_decimal d = true ->
  (let splitRef := GoStrings.Split (p +:+ "-" +:+ d) "-" in
   GoStrings.Join (GoStrings.but_last splitRef) "-" = p
   /\ GoStrings.last_elem splitRef = d)
  /\ forall (w : World) (s : Server) (cfg : Config) (parsed : Parsed) (st : State),
       user s = Some cfg ->
       path_Parse w (UserName (server s) +:+ p) = Ok parsed ->
       can w s access.Read parsed = Ok true ->
       Get w s (p +:+ "-" +:+ d) st =
       (match readFile w s ((UserName (server s) +:+ p) +:+ "-" +:+ d) with
        | Ok data =>
            Ok (data, {| rd_Reference := p; Volatile := false; Duration := time_Minute |}, [])
        | Fail err => Fail (E [AOp "store/filesystem.Get"; AErr err])
        | Panic => Panic
        end, st).
Proof.
  intros Hd. apply decimal_has_no_hyphen in Hd.
  destruct (decode_reference p d Hd) as [Hp Ho].
  split; [exact (conj Hp Ho)|].
  intros w s cfg parsed st Hu Hparse Hcan.
  unfold Get. rewrite Hu. cbv zeta in Hp, Ho |- *. rewrite Hp, Ho.
  change ("" +:+ p) with p.
  rewrite (bindM_liftM_Ok _ _ _ parsed) by (rewrite Hparse; reflexivity).
  rewrite (bindM_liftM_Ok _ _ _ true) by (rewrite Hcan; reflexivity).
  cbn [negb]. unfold bindM, liftM, retM.
  destruct (readFile w s _); reflexivity.
Qed.

(** The reference [a/b-c-42] is split into [a/b-c] and [42]; on the demo
    world the owner reads the segment [/srv/doc-0] through the reference
    [/doc-0]. *)
Lemma composite_reference_round_trip_witness :
  GoStrings.Join (GoStrings.but_last (GoStrings.Split "a/b-c-42" "-")) "-" = "a/b-c"
  /\ GoStrings.last_elem (GoStrings.Split "a/b-c-42" "-") = "42"
  /\ Get Demo.world Demo.for_ann "/doc-0" Demo.init
     = (Ok ([Byte.x68; Byte.x65; Byte.x6c; Byte.x6c; Byte.x6f],
            {| rd_Reference := "/doc"; Volatile := false; Duration := time_Minute |}, []),
        Demo.init).
Proof.
  assert (Hd : is_decimal "42" = true) by run.
  assert (H0 : is_decimal "0" = true) by run.
  destruct (composite_reference_round_trip "a/b-c" "42" Hd) as [[H1 H2] _].
  destruct (composite_reference_round_trip "/doc" "0" H0) as [_ H3].
  split; [exact H1|]. split; [exact H2|].
  assert (Hu : user Demo.for_ann = Some Demo.ann) by run.
  assert (Hp : path_Parse Demo.world (UserName (server Demo.for_ann) +:+ "/doc")
               = Ok {| User := Demo.owner; Elems := ["doc"] |}) by run.
  assert (Hc : can Demo.world Demo.for_ann access.Read
                 {| User := Demo.owner; Elems := ["doc"] |} = Ok true) by run.
  pose proof (H3 Demo.world Demo.for_ann Demo.ann _ Demo.init Hu Hp Hc) as H.
  change ("/doc" +:+ "-" +:+ "0") with "/doc-0" in H.
  rewrite H. run.
Defined.

(** ** The name space is read-only *)

(** C8. [Put] and [Delete], of the directory server and of the store
    server, fail with the read-only-name-space error for every argument
    and leave the shared state as it was. *)
Theorem mutations_fail_read_only :
  forall (ciphertext : list Byte.byte) (ref : Reference) (pathName : PathName)
         (e : DirEntry) (st : State),
    storeServer_Put ciphertext st
      = (Fail (E [AOp "store/filesystem.Put"; AErr errReadOnly]), st)
    /\ storeServer_Delete ref st
      = (Fail (E [AOp "store/filesystem.Delete"; AErr errReadOnly]), st)
    /\ dirServer_Put e st
      = (Fail (E [AOp "dir/filesystem.Put"; AErr errReadOnly]), st)
    /\ dirServer_Delete pathName st
      = (Fail (E [AOp "dir/filesystem.Delete"; AErr errReadOnly]), st).
Proof. intros. repeat split. Qed.

(** ** World-readability *)

Lemma readFile_not_world_readable (w : World) (s : Server) (name : PathName)
    (parsed : Parsed) (info : FileInfo) :
  path_Parse w name = Ok parsed ->
  os_Stat w (filepath_Join (root s) (FilePath parsed)) = Ok info ->
  IsDir info = false ->
  Z.land (Mode info) 4 = 0 ->
  readFile w s name = Fail (E [AKind KPermission; AText "not world-readable"; APath name]).
Proof.
  intros Hparse Hstat Hdir Hmode. unfold readFile.
  rewrite Hparse. cbn [obind]. rewrite Hstat. cbn [obind].
  rewrite Hdir, Hmode. reflexivity.
Qed.

(** The name of the file that [Get] hands to [readFile] for a reference. *)
Lemma Get_reads (w : World) (s : Server) (ref : Reference) (st : State)
    (res : list Byte.byte * Refdata * list Location) (st' : State) :
  Get w s ref st = (Ok res, st') ->
  let splitRef := GoStrings.Split ref "-" in
  let pathName := UserName (server s) +:+ ""
                  +:+ GoStrings.Join (GoStrings.but_last splitRef) "-" in
  readFile w s (pathName +:+ "-" +:+ GoStrings.last_elem splitRef) = Ok (fst (fst res)).
Proof.
  unfold Get. destruct (user s); [|discriminate]. cbv zeta.
  unfold bindM, liftM, failM, retM.
  destruct (path_Parse w _) as [parsed| |]; cbn [wrap]; try discriminate.
  destruct (can w s access.Read parsed) as [[|]| |]; cbn [wrap negb]; try discriminate.
  destruct (readFile w s _) as [data| |]; cbn [wrap]; try discriminate.
  intros [= <- _]. reflexivity.
Qed.

(** C3. A file whose permission bits deny read access to others
    ([mode & 04 == 0]) is refused by [readFile] with a permission error,
    and no reference that makes [Get] read that file yields content,
    whatever the access evaluator answers; when the evaluator grants the
    read right, the failure of [Get] is that permission error. *)
Theorem unreadable_by_others_is_refused (w : World) (s : Server) (name : PathName)
    (parsed : Parsed) (info : FileInfo) :
  path_Parse w name = Ok parsed ->
  os_Stat w (filepath_Join (root s) (FilePath parsed)) = Ok info ->
  IsDir info = false ->
  Z.land (Mode info) 4 = 0 ->
  readFile w s name = Fail (E [AKind KPermission; AText "not world-readable"; APath name])
  /\ forall (ref : Reference) (st : State),
       (let splitRef := GoStrings.Split ref "-" in
        (UserName (server s) +:+ "" +:+ GoStrings.Join (GoStrings.but_last splitRef) "-")
        +:+ "-" +:+ GoStrings.last_elem splitRef) = name ->
       (forall res st', Get w s ref st <> (Ok res, st'))
       /\ (forall cfg p,
             user s = Some cfg ->
             path_Parse w (UserName (server s) +:+ ""
                           +:+ GoStrings.Join (GoStrings.but_last (GoStrings.Split ref "-")) "-")
               = Ok p ->
             can w s access.Read p = Ok true ->
             Get w s ref st =
             (Fail (E [AOp "store/filesystem.Get";
                       AErr (E [AKind KPermission; AText "not world-readable";
                                APath name])]), st)).
Proof.
  intros Hparse Hstat Hdir Hmode.
  pose proof (readFile_not_world_readable w s name parsed info Hparse Hstat Hdir Hmode)
    as Hread.
  split; [exact Hread|].
  intros ref st Hname. split.
  - intros res st' HGet. apply Get_reads in HGet. cbv zeta in HGet, Hname.
    rewrite Hname, Hread in HGet. discriminate.
  - intros cfg p Hu Hp Hcan. unfold Get. rewrite Hu. cbv zeta in Hname |- *.
    rewrite (bindM_liftM_Ok _ _ _ p) by (rewrite Hp; reflexivity).
    rewrite (bindM_liftM_Ok _ _ _ true) by (rewrite Hcan; reflexivity).
    cbn [negb]. rewrite Hname, Hread. reflexivity.
Qed.

(** On the demo world, [/srv/secret] has mode 0600: the owner, who holds
    every right, cannot read it through [Get]. *)
Lemma unreadable_by_others_is_refused_witness :
  readFile Demo.world Demo.for_ann "ann@example.com-/secret"
    = Fail (E [AKind KPermission; AText "not world-readable";
               APath "ann@example.com-/secret"])
  /\ Get Demo.world Demo.for_ann "/secret" Demo.init
     = (Fail (E [AOp "store/filesystem.Get";
                 AErr (E [AKind KPermission; AText "not world-readable";
                          APath "ann@example.com-/secret"])]), Demo.init).
Proof.
  assert (Hparse : path_Parse Demo.world "ann@example.com-/secret"
                   = Ok {| User := "ann@example.com-"; Elems := ["secret"] |}) by run.
  assert (Hstat : os_Stat Demo.world
                    (filepath_Join (root Demo.for_ann)
                       (FilePath {| User := "ann@example.com-"; Elems := ["secret"] |}))
                  = Ok (Demo.info Demo.private_mode 100 9)) by run.
  assert (Hdir : IsDir (Demo.info Demo.private_mode 100 9) = false) by run.
  assert (Hmode : Z.land (Mode (Demo.info Demo.private_mode 100 9)) 4 = 0) by run.
  destruct (unreadable_by_others_is_refused Demo.world Demo.for_ann
              "ann@example.com-/secret" _ _ Hparse Hstat Hdir Hmode) as [H1 H2].
  split; [exact H1|].
  assert (Hname : (let splitRef := GoStrings.Split "/secret" "-" in
                   (UserName (server Demo.for_ann) +:+ ""
                    +:+ GoStrings.Join (GoStrings.but_last splitRef) "-")
                   +:+ "-" +:+ GoStrings.last_elem splitRef)
                  = "ann@example.com-/secret") by run.
  destruct (H2 "/secret" Demo.init Hname) as [_ H3].
  assert (Hu : user Demo.for_ann = Some Demo.ann) by run.
  assert (Hp : path_Parse Demo.world
                 (UserName (server Demo.for_ann) +:+ ""
                  +:+ GoStrings.Join (GoStrings.but_last (GoStrings.Split "/secret" "-")) "-")
               = Ok {| User := Demo.owner; Elems := [] |}) by run.
  assert (Hc : can Demo.world Demo.for_ann access.Read
                 {| User := Demo.owner; Elems := [] |} = Ok true) by run.
  exact (H3 Demo.ann _ Hu Hp Hc).
Defined.

(** ** Paths outside the root *)

Lemma entry_not_in_root (w : World) (s : Server) (file : string) (st : State) :
  GoStrings.HasPrefix file (root s) = false ->
  entry w s file st = (Fail (Str "internal error: not in root"), st).
Proof. intros H. unfold entry. rewrite H. reflexivity. Qed.

Lemma wrapM_Ok {A : Type} (op : string) (c : M A) (st st' : State) (a : A) :
  wrapM op c st = (Ok a, st') -> c st = (Ok a, st').
Proof.
  unfold wrapM. destruct (c st) as [[a'|err|] st'']; cbn [wrap]; congruence.
Qed.

Lemma wrap_Ok {A : Type} (op : string) (c : outcome A) (a : A) :
  wrap op c = Ok a -> c = Ok a.
Proof. destruct c; cbn [wrap]; congruence. Qed.

(** C10. [entry] answers every argument that does not begin with the
    root with the error "internal error: not in root" and leaves the
    state alone. [WhichAccess] calls [entry] with the result of
    [whichAccess], a logical path or the empty string: whenever
    [WhichAccess] succeeds, that string begins with the root, and the
    result is what [entry] returns for it. *)
Theorem WhichAccess_needs_logical_path_in_root :
  (forall (w : World) (s : Server) (file : string) (st : State),
     GoStrings.HasPrefix file (root s) = false ->
     entry w s file st = (Fail (Str "internal error: not in root"), st))
  /\ (forall (w : World) (s : Server) (pathName : PathName) (st st' : State) (l : nat),
        WhichAccess w s pathName st = (Ok l, st') ->
        exists parsed accessPath,
          path_Parse w pathName = Ok parsed
          /\ whichAccess w s parsed = Ok accessPath
          /\ GoStrings.HasPrefix accessPath (root s) = true
          /\ entry w s accessPath st = (Ok l, st')).
Proof.
  split; [exact entry_not_in_root|].
  intros w s pathName st st' l. unfold WhichAccess. cbv zeta.
  unfold bindM at 1. unfold liftM at 1.
  destruct (path_Parse w pathName) as [parsed| |] eqn:Hparse; cbn [wrap]; try discriminate.
  unfold bindM at 1. unfold liftM at 1.
  destruct (verifyUserRoot s parsed) as [[]| |]; cbn [wrap]; try discriminate.
  unfold bindM at 1. unfold liftM at 1.
  destruct (can w s access.AnyRight parsed) as [[|]| |]; cbn [wrap negb];
    try discriminate.
  unfold bindM at 1. unfold liftM at 1.
  destruct (whichAccess w s parsed) as [accessPath| |] eqn:Hwhich; cbn [wrap];
    try discriminate.
  intros H. apply wrapM_Ok in H.
  exists parsed, accessPath. repeat split; try assumption.
  destruct (GoStrings.HasPrefix accessPath (root s)) eqn:Hpre; [reflexivity|].
  rewrite (entry_not_in_root w s accessPath st Hpre) in H. discriminate.
Qed.

(** On the demo world a logical path is not below [/srv]; with the empty
    root every path is, and [WhichAccess] gets through. *)
Lemma WhichAccess_needs_logical_path_in_root_witness :
  entry Demo.world Demo.for_ann "ann@example.com/pub/Access" Demo.init
    = (Fail (Str "internal error: not in root"), Demo.init)
  /\ exists parsed accessPath,
       path_Parse Demo.relative_world "ann@example.com/" = Ok parsed
       /\ whichAccess Demo.relative_world Demo.relative_srv parsed = Ok accessPath
       /\ GoStrings.HasPrefix accessPath (root Demo.relative_srv) = true
       /\ entry Demo.relative_world Demo.relative_srv accessPath Demo.init
          = (Ok 0%nat, Demo.relative_after).
Proof.
  destruct WhichAccess_needs_logical_path_in_root as [H1 H2].
  split.
  - apply H1. run.
  - assert (Hrun : WhichAccess Demo.relative_world Demo.relative_srv "ann@example.com/"
                     Demo.init = (Ok 0%nat, Demo.relative_after)) by run.
    exact (H2 _ _ _ _ _ _ Hrun).
Defined.

(** ** The search for the Access file *)

Section WhichAccess.

Variables (w : World) (s : Server) (parsed : Parsed).

Lemma whichAccess_step_passes (i : nat) (continue : outcome PathName) :
  no_Access_at w s parsed i ->
  whichAccess_step w s parsed i continue = continue.
Proof.
  intros (fi & Hdir & H). unfold whichAccess_step.
  fold (candidate_dir s parsed i). rewrite Hdir.
  destruct H as [Hnd | (err & Hacc & Hne)].
  - rewrite Hnd. reflexivity.
  - destruct (IsDir fi); [|reflexivity]. cbn [negb].
    fold (candidate_Access s parsed i). rewrite Hacc, Hne. reflexivity.
Qed.

(** Candidates without an Access file are passed over one by one. *)
Lemma whichAccess_loop_passes (n k i : nat) :
  (forall j, (i <= j < i + n)%nat -> no_Access_at w s parsed j) ->
  whichAccess_loop w s parsed (n + k) i = whichAccess_loop w s parsed k (i + n).
Proof.
  revert i. induction n as [|n IH]; intros i Hpass.
  - rewrite Nat.add_0_r. reflexivity.
  - cbn [Nat.add whichAccess_loop].
    rewrite whichAccess_step_passes by (apply Hpass; lia).
    rewrite IH by (intros j Hj; apply Hpass; lia).
    f_equal. lia.
Qed.

(** The search arrives at candidate [i] if the nearer ones hold nothing. *)
Lemma whichAccess_arrives (i : nat) :
  (i <= NElem parsed)%nat ->
  (forall j, (j < i)%nat -> no_Access_at w s parsed j) ->
  whichAccess w s parsed =
  whichAccess_step w s parsed i
    (whichAccess_loop w s parsed (NElem parsed - i) (S i)).
Proof.
  intros Hi Hpass. unfold whichAccess.
  replace (S (NElem parsed)) with (i + S (NElem parsed - i))%nat by lia.
  rewrite whichAccess_loop_passes by (intros j Hj; apply Hpass; lia).
  reflexivity.
Qed.

Lemma whichAccess_none :
  (forall j, (j <= NElem parsed)%nat -> no_Access_at w s parsed j) ->
  whichAccess w s parsed = Ok "".
Proof.
  intros Hpass. unfold whichAccess.
  replace (S (NElem parsed)) with (S (NElem parsed) + 0)%nat by lia.
  rewrite whichAccess_loop_passes by (intros j Hj; apply Hpass; lia).
  reflexivity.
Qed.

End WhichAccess.

(** C2, as the code has it. The search goes from the full path upward,
    dropping 0, 1, ..., N trailing elements. Let candidate [i] be the
    first that is not passed over (every nearer candidate can be
    described and is no directory or has no file named Access).
    - If [Stat] of the candidate directory fails, the search fails with
      that error.
    - If [Stat] of its Access file fails for another reason than absence,
      the search fails with that error.
    - If the Access file is not a regular file, the search fails with the
      "is not a regular file" error.
    - If it is a regular file and can be opened, the search returns its
      logical path; if opening it fails, the search fails with that
      error.
    If every candidate, the root included, is passed over, the search
    returns the empty name and no error. *)
Theorem whichAccess_nearest (w : World) (s : Server) (parsed : Parsed) :
  (forall i : nat,
     (i <= NElem parsed)%nat ->
     (forall j, (j < i)%nat -> no_Access_at w s parsed j) ->
     (forall err,
        os_Stat w (candidate_dir s parsed i) = Fail err ->
        whichAccess w s parsed = Fail err)
     /\ (forall fi,
           os_Stat w (candidate_dir s parsed i) = Ok fi ->
           IsDir fi = true ->
           (forall err,
              os_Stat w (candidate_Access s parsed i) = Fail err ->
              os_IsNotExist err = false ->
              whichAccess w s parsed = Fail err)
           /\ (forall fa,
                 os_Stat w (candidate_Access s parsed i) = Ok fa ->
                 (Mode_IsRegular (Mode fa) = false ->
                  whichAccess w s parsed =
                  Fail (Errorf "%q is not a regular file" [candidate_logical parsed i]))
                 /\ (Mode_IsRegular (Mode fa) = true ->
                     (os_Open w (candidate_Access s parsed i) = Ok tt ->
                      whichAccess w s parsed = Ok (candidate_logical parsed i))
                     /\ (forall err,
                           os_Open w (candidate_Access s parsed i) = Fail err ->
                           whichAccess w s parsed = Fail err)))))
  /\ ((forall j, (j <= NElem parsed)%nat -> no_Access_at w s parsed j) ->
      whichAccess w s parsed = Ok "").
Proof.
  split; [|apply whichAccess_none].
  intros i Hi Hpass.
  rewrite (whichAccess_arrives w s parsed i Hi Hpass).
  unfold whichAccess_step.
  fold (candidate_dir s parsed i). fold (candidate_Access s parsed i).
  fold (candidate_logical parsed i).
  split.
  - intros err ->. reflexivity.
  - intros fi -> ->. cbn [negb]. split.
    + intros err -> ->. reflexivity.
    + intros fa ->. split; [intros ->; reflexivity|].
      intros ->. cbn [negb]. split; [intros ->; reflexivity|].
      intros err ->. reflexivity.
Qed.

(** On the demo world the search for [pub/a.txt] passes over the file
    itself and finds [pub/Access]; the search for [doc] finds nothing. *)
Lemma whichAccess_nearest_witness :
  whichAccess Demo.world Demo.for_ann {| User := Demo.owner; Elems := ["pub"; "a.txt"] |}
    = Ok "ann@example.com/pub/Access"
  /\ whichAccess Demo.world Demo.for_ann {| User := Demo.owner; Elems := ["doc"] |}
     = Ok "".
Proof.
  set (p := {| User := Demo.owner; Elems := ["pub"; "a.txt"] |}).
  set (q := {| User := Demo.owner; Elems := ["doc"] |}).
  assert (Hp0 : no_Access_at Demo.world Demo.for_ann p 0).
  { exists (Demo.info Demo.file_mode 100 3). split; [run | left; run]. }
  assert (Hq0 : no_Access_at Demo.world Demo.for_ann q 0).
  { exists (Demo.info Demo.file_mode 100 5). split; [run | left; run]. }
  assert (Hq1 : no_Access_at Demo.world Demo.for_ann q 1).
  { exists (Demo.info Demo.dir_mode 50 0). split; [run|].
    right. exists (PathError "stat" "/srv/Access" ENOENT). split; run. }
  split.
  - destruct (whichAccess_nearest Demo.world Demo.for_ann p) as [H _].
    assert (Hpass : forall j, (j < 1)%nat -> no_Access_at Demo.world Demo.for_ann p j).
    { intros j Hj. replace j with 0%nat by lia. exact Hp0. }
    assert (Hi : (1 <= NElem p)%nat) by (vm_compute; lia).
    destruct (H 1%nat Hi Hpass) as [_ H1].
    assert (Hdir : os_Stat Demo.world (candidate_dir Demo.for_ann p 1)
                   = Ok (Demo.info Demo.dir_mode 60 0)) by run.
    assert (Hisdir : IsDir (Demo.info Demo.dir_mode 60 0) = true) by run.
    destruct (H1 _ Hdir Hisdir) as [_ H2].
    assert (Hacc : os_Stat Demo.world (candidate_Access Demo.for_ann p 1)
                   = Ok (Demo.info Demo.file_mode 70 1)) by run.
    destruct (H2 _ Hacc) as [_ H3].
    assert (Hreg : Mode_IsRegular (Mode (Demo.info Demo.file_mode 70 1)) = true) by run.
    destruct (H3 Hreg) as [H4 _].
    assert (Hopen : os_Open Demo.world (candidate_Access Demo.for_ann p 1) = Ok tt) by run.
    exact (H4 Hopen).
  - destruct (whichAccess_nearest Demo.world Demo.for_ann q) as [_ H].
    apply H. intros j Hj.
    assert (Hj' : j = 0%nat \/ j = 1%nat) by (vm_compute in Hj; lia).
    destruct Hj' as [-> | ->]; assumption.
Defined.

(** C2 as stated fails where the nearest Access file is a regular file
    that the server cannot open: [/srv/pub] is a directory, [Stat] shows
    a regular file [/srv/pub/Access], and the search for [pub] fails with
    the error of [Open] instead of returning the file's logical path. *)
Lemma whichAccess_closed_Access_counterexample :
  (exists fi fa,
     os_Stat Demo.world_closed_Access (candidate_dir Demo.for_ann Demo.pub 0) = Ok fi
     /\ IsDir fi = true
     /\ os_Stat Demo.world_closed_Access (candidate_Access Demo.for_ann Demo.pub 0) = Ok fa
     /\ Mode_IsRegular (Mode fa) = true)
  /\ whichAccess Demo.world_closed_Access Demo.for_ann Demo.pub
     = Fail (PathError "open" "/srv/pub/Access" EACCES)
  /\ whichAccess Demo.world_closed_Access Demo.for_ann Demo.pub
     <> Ok (candidate_logical Demo.pub 0).
Proof.
  assert (Hrun : whichAccess Demo.world_closed_Access Demo.for_ann Demo.pub
                 = Fail (PathError "open" "/srv/pub/Access" EACCES)) by run.
  split; [|split].
  - exists (Demo.info Demo.dir_mode 60 0), (Demo.info Demo.file_mode 70 1).
    vm_compute. repeat split.
  - exact Hrun.
  - rewrite Hrun. discriminate.
Qed.

(** ** The LRU cache *)

Section LRUFacts.

Context {V : Type}.
Implicit Types (c : LRU.t V) (l : list (string * V)) (k : string) (v : V).

Lemma find_remove_key_same k l : LRU.find k (LRU.remove_key k l) = None.
Proof.
  induction l as [|[k' v'] l IH]; simpl; [reflexivity|].
  destruct (String.eqb k' k) eqn:E; simpl; [exact IH|]. rewrite E. exact IH.
Qed.

Lemma find_remove_key_other k k' l :
  k <> k' -> LRU.find k' (LRU.remove_key k l) = LRU.find k' l.
Proof.
  intros Hne. induction l as [|[k0 v0] l IH]; simpl; [reflexivity|].
  destruct (String.eqb k0 k) eqn:E; simpl.
  - apply String.eqb_eq in E. subst k0.
    destruct (String.eqb k k') eqn:E'; [|exact IH].
    apply String.eqb_eq in E'. contradiction.
  - rewrite IH. reflexivity.
Qed.

Lemma remove_key_absent k l : LRU.find k l = None -> LRU.remove_key k l = l.
Proof.
  induction l as [|[k0 v0] l IH]; simpl; [reflexivity|].
  destruct (String.eqb k0 k); [discriminate|]. intros H. rewrite IH; auto.
Qed.

Lemma remove_key_twice k l :
  LRU.remove_key k (LRU.remove_key k l) = LRU.remove_key k l.
Proof. apply remove_key_absent, find_remove_key_same. Qed.

Lemma find_removelast k l v :
  LRU.find k (removelast l) = Some v -> LRU.find k l = Some v.
Proof.
  induction l as [|[k0 v0] l IH]; simpl; [discriminate|].
  destruct l as [|p l']; [discriminate|].
  change (LRU.find k ((k0, v0) :: removelast (p :: l')) = Some v ->
          (if String.eqb k0 k then Some v0 else LRU.find k (p :: l')) = Some v).
  simpl LRU.find at 1. destruct (String.eqb k0 k); [auto|exact IH].
Qed.

(** [Get] answers what [peek] sees and changes no answer of [peek]. *)
Lemma Get_value c k : fst (LRU.Get c k) = LRU.peek c k.
Proof. unfold LRU.Get, LRU.peek. destruct (LRU.find k (LRU.ll c)); reflexivity. Qed.

Lemma peek_Get c k k' : LRU.peek (snd (LRU.Get c k)) k' = LRU.peek c k'.
Proof.
  unfold LRU.Get, LRU.peek. destruct (LRU.find k (LRU.ll c)) as [v|] eqn:E;
    [|reflexivity].
  cbn. destruct (String.eqb k k') eqn:E'.
  - apply String.eqb_eq in E'. subst k'. symmetry. exact E.
  - apply find_remove_key_other. intros ->. rewrite String.eqb_refl in E'. discriminate.
Qed.

Lemma Get_miss c k : LRU.peek c k = None -> LRU.Get c k = (None, c).
Proof. unfold LRU.Get, LRU.peek. intros ->. reflexivity. Qed.

Lemma peek_Remove_same c k : LRU.peek (LRU.Remove c k) k = None.
Proof. apply find_remove_key_same. Qed.

Lemma peek_Remove_other c k k' :
  k <> k' -> LRU.peek (LRU.Remove c k) k' = LRU.peek c k'.
Proof. apply find_remove_key_other. Qed.

Lemma Remove_absent c k : LRU.peek c k = None -> LRU.Remove c k = c.
Proof.
  unfold LRU.Remove, LRU.peek. intros H. rewrite remove_key_absent by exact H.
  destruct c; reflexivity.
Qed.

Lemma Remove_Get c k : LRU.Remove (snd (LRU.Get c k)) k = LRU.Remove c k.
Proof.
  unfold LRU.Get, LRU.Remove. destruct (LRU.find k (LRU.ll c)) as [v|]; [|reflexivity].
  cbn. rewrite String.eqb_refl, remove_key_twice. reflexivity.
Qed.

(** A cache with room for one entry holds what was added last. *)
Lemma peek_Add_same c k v :
  (0 < LRU.maxEntries c)%nat -> LRU.peek (LRU.Add c k v) k = Some v.
Proof.
  intros Hcap. unfold LRU.Add, LRU.peek.
  destruct (LRU.find k (LRU.ll c)); cbn [LRU.ll LRU.find].
  - rewrite String.eqb_refl. reflexivity.
  - destruct (LRU.ll c) as [|p l].
    + replace (LRU.maxEntries c <? length [(k, v)])%nat with false
        by (symmetry; apply Nat.ltb_ge; cbn; lia).
      cbn [LRU.ll LRU.find]. rewrite String.eqb_refl. reflexivity.
    + destruct (_ <? _)%nat; cbn [LRU.ll].
      * change (removelast ((k, v) :: p :: l)) with ((k, v) :: removelast (p :: l)).
        cbn [LRU.find]. rewrite String.eqb_refl. reflexivity.
      * cbn [LRU.find]. rewrite String.eqb_refl. reflexivity.
Qed.

(** Adding a key makes no other key appear or change. *)
Lemma peek_Add_other c k v k' v' :
  k <> k' -> LRU.peek (LRU.Add c k v) k' = Some v' -> LRU.peek c k' = Some v'.
Proof.
  intros Hne. unfold LRU.Add, LRU.peek.
  assert (Hk : String.eqb k k' = false).
  { destruct (String.eqb k k') eqn:E; [|reflexivity].
    apply String.eqb_eq in E. contradiction. }
  destruct (LRU.find k (LRU.ll c)).
  - cbn [LRU.ll LRU.find]. rewrite Hk, find_remove_key_other by exact Hne. auto.
  - destruct (_ <? _)%nat; cbn [LRU.ll].
    + intros H. apply find_removelast in H. cbn [LRU.find] in H.
      rewrite Hk in H. exact H.
    + cbn [LRU.find]. rewrite Hk. auto.
Qed.

Lemma maxEntries_Get c k : LRU.maxEntries (snd (LRU.Get c k)) = LRU.maxEntries c.
Proof. unfold LRU.Get. destruct (LRU.find k (LRU.ll c)); reflexivity. Qed.

Lemma maxEntries_Add c k v : LRU.maxEntries (LRU.Add c k v) = LRU.maxEntries c.
Proof.
  unfold LRU.Add. destruct (LRU.find k (LRU.ll c)); [reflexivity|].
  destruct (_ <? _)%nat; reflexivity.
Qed.

End LRUFacts.

(** ** Synthesis of an entry *)

Section Entry.

Variables (w : World) (s : Server) (file : string) (info : FileInfo).

Hypothesis in_root : GoStrings.HasPrefix file (root s) = true.
Hypothesis stat_ok : os_Stat w file = Ok info.

(** A directory: the cache is neither read nor written, the signer is not
    called, and the entry is the bare one. *)
Lemma entry_directory (st : State) :
  IsDir info = true ->
  entry w s file st =
  (Ok (length (heap st)),
   {| heap := heap st ++ [bare_entry s file info]; dirEntries := dirEntries st |}).
Proof.
  intros Hdir. unfold entry. rewrite in_root. cbn [negb].
  unfold bindM at 1. unfold liftM at 1. rewrite stat_ok.
  rewrite Hdir. unfold bindM, retM, new_entry, bare_entry. rewrite Hdir. reflexivity.
Qed.

Lemma cached_entry_fresh (st : State) (l : nat) :
  cached_fresh st file (TimeFromGo (ModTime info)) l ->
  cached_entry file (TimeFromGo (ModTime info)) st
  = (Ok (Some l), with_cache st (snd (LRU.Get (dirEntries st) file))).
Proof.
  intros (Hpeek & e & Hl & Htime). unfold cached_entry.
  pose proof (Get_value (dirEntries st) file) as Hv. rewrite Hpeek in Hv.
  destruct (LRU.Get (dirEntries st) file) as [v c]. cbn [fst snd] in *. subst v.
  rewrite Hl, Htime, Z.eqb_refl. reflexivity.
Qed.

Lemma cached_entry_other (st : State) :
  LRU.peek (dirEntries st) file = None \/ cached_stale st file (TimeFromGo (ModTime info)) ->
  cached_entry file (TimeFromGo (ModTime info)) st
  = (Ok None, with_cache st (LRU.Remove (dirEntries st) file)).
Proof.
  intros [Hnone | (l & e & Hpeek & Hl & Htime)]; unfold cached_entry.
  - rewrite (Get_miss _ _ Hnone), (Remove_absent _ _ Hnone). reflexivity.
  - pose proof (Get_value (dirEntries st) file) as Hv. rewrite Hpeek in Hv.
    pose proof (Remove_Get (dirEntries st) file) as Hr.
    destruct (LRU.Get (dirEntries st) file) as [v c]. cbn [fst snd] in *. subst v.
    rewrite Hl, Hr. apply Z.eqb_neq in Htime. rewrite Htime. reflexivity.
Qed.

(** A file with a cached entry of the same time: the entry is returned as
    it is; nothing is allocated, nothing is signed. *)
Lemma entry_file_hit (st : State) (l : nat) :
  IsDir info = false ->
  cached_fresh st file (TimeFromGo (ModTime info)) l ->
  entry w s file st = (Ok l, with_cache st (snd (LRU.Get (dirEntries st) file))).
Proof.
  intros Hdir Hfresh. unfold entry. rewrite in_root. cbn [negb].
  unfold bindM at 1. unfold liftM at 1. rewrite stat_ok.
  rewrite Hdir. unfold bindM at 1.
  rewrite (cached_entry_fresh st l Hfresh). reflexivity.
Qed.

(** A file without a cached entry of the same time: what the call does
    after the cache slot has been cleared. *)
Lemma entry_file_rebuild (st : State) :
  IsDir info = false ->
  LRU.peek (dirEntries st) file = None \/ cached_stale st file (TimeFromGo (ModTime info)) ->
  let st1 := with_cache st (LRU.Remove (dirEntries st) file) in
  entry w s file st =
  match DirEntry_Size w (bare_entry s file info) with
  | Panic => (Panic, st1)
  | Fail err => (Fail err, st1)
  | Ok offs =>
      let d := set_Blocks (bare_entry s file info) [file_block s file info offs] in
      match user s with
      | None => (Panic, st1)
      | Some u =>
          match Factotum u with
          | None => (Panic, st1)
          | Some f =>
              match FileSign w f (entry_digest w f d) with
              | Panic => (Panic, st1)
              | Fail err => (Fail err, st1)
              | Ok sig =>
                  match pdMarshal [] sig None with
                  | Panic => (Panic, st1)
                  | Fail err => (Fail err, st1)
                  | Ok pd =>
                      (Ok (length (heap st)),
                       {| heap := heap st ++ [set_Packdata d pd];
                          dirEntries := LRU.Add (LRU.Remove (dirEntries st) file) file
                                          (length (heap st)) |})
                  end
              end
          end
      end
  end.
Proof.
  intros Hdir Hother. cbv zeta. unfold entry. rewrite in_root. cbn [negb].
  unfold bindM at 1. unfold liftM at 1. rewrite stat_ok.
  rewrite Hdir. unfold bindM at 1.
  rewrite (cached_entry_other st Hother).
  unfold bare_entry, file_block, entry_digest. rewrite Hdir.
  unfold bindM, liftM, retM, new_entry, cache_add, with_cache.
  destruct (DirEntry_Size w _) as [offs| |]; try reflexivity.
  destruct (user s) as [u|]; [|reflexivity].
  unfold factotum_of. destruct (Factotum u); reflexivity.
Qed.

End Entry.

(** Marshalling a signature never returns an error. *)
Lemma pdMarshal_no_error (dst : list Byte.byte) (sig : Signature) (sig2 : option Signature)
    (err : error) :
  pdMarshal dst sig sig2 <> Fail err.
Proof.
  unfold pdMarshal, PutBytes. cbv zeta.
  repeat (match goal with
          | |- context [if ?b then Panic else _] => destruct b
          end; cbn [obind]; try discriminate).
Qed.

(** ** Directories *)

(** C6, as the code has it. For a directory, [entry] does not look at the
    cache and does not change it; it returns a new entry with the
    directory attribute, no blocks, and an empty [Packdata]: the signing
    step of files is not applied, so that neither the signer nor the
    caller's configuration matters. *)
Theorem directory_entry_is_bare (w : World) (s : Server) (file : string)
    (info : FileInfo) (st : State) :
  GoStrings.HasPrefix file (root s) = true ->
  os_Stat w file = Ok info ->
  IsDir info = true ->
  exists e,
    entry w s file st
    = (Ok (length (heap st)), {| heap := heap st ++ [e]; dirEntries := dirEntries st |})
    /\ Attr e = AttrDirectory
    /\ Blocks e = []
    /\ Packdata e = []
    /\ Name e = upspinPathFromLocal s file
    /\ Time_of e = TimeFromGo (ModTime info).
Proof.
  intros Hpre Hstat Hdir. exists (bare_entry s file info).
  split; [exact (entry_directory w s file info Hpre Hstat st Hdir)|].
  unfold bare_entry. cbn. rewrite Hdir. repeat split.
Qed.

(** The directory [/srv/pub] of the demo world, asked for by a server
    that nobody has dialed. *)
Lemma directory_entry_is_bare_witness :
  exists e,
    entry Demo.world Demo.srv "/srv/pub" Demo.init
    = (Ok (length (heap Demo.init)),
       {| heap := heap Demo.init ++ [e]; dirEntries := dirEntries Demo.init |})
    /\ Attr e = AttrDirectory /\ Blocks e = [] /\ Packdata e = []
    /\ Name e = upspinPathFromLocal Demo.srv "/srv/pub"
    /\ Time_of e = TimeFromGo (ModTime (Demo.info Demo.dir_mode 60 0)).
Proof.
  assert (Hpre : GoStrings.HasPrefix "/srv/pub" (root Demo.srv) = true) by run.
  assert (Hstat : os_Stat Demo.world "/srv/pub" = Ok (Demo.info Demo.dir_mode 60 0))
    by run.
  assert (Hdir : IsDir (Demo.info Demo.dir_mode 60 0) = true) by run.
  exact (directory_entry_is_bare Demo.world Demo.srv "/srv/pub" _ Demo.init
           Hpre Hstat Hdir).
Defined.

(** C6 as stated fails: the entry of the directory [/srv/pub] has an
    empty signature buffer, whereas the file [/srv/doc], for the same
    caller and signer, gets seven bytes of signature. *)
Lemma directory_entry_unsigned_counterexample :
  IsDir (Demo.info Demo.dir_mode 60 0) = true
  /\ os_Stat Demo.world "/srv/pub" = Ok (Demo.info Demo.dir_mode 60 0)
  /\ fst (entry Demo.world Demo.for_ann "/srv/pub" Demo.init) = Ok 0%nat
  /\ Packdata <$> heap (snd (entry Demo.world Demo.for_ann "/srv/pub" Demo.init)) !! 0%nat
     = Some []
  /\ Packdata <$> heap (snd (entry Demo.world Demo.for_ann "/srv/doc" Demo.init)) !! 0%nat
     = Some [Byte.x04; Byte.x03; Byte.xe9; Byte.x02; Byte.x6f; Byte.x00; Byte.x00].
Proof. vm_compute. repeat split. Qed.

(** ** Failures during synthesis *)

(** C9, as the code has it. Once [Stat] has succeeded:
    - if the size computation or the signer fails while no cached entry
      of the file's modification time exists, [entry] fails with that
      error;
    - whenever [entry] fails, the error is that of the size computation
      or of the signer (marshalling returns no error), no entry has been
      allocated or added to the cache, and the cache is the one before
      the call with the slot of the file removed: an absent slot leaves
      the state as it was, a slot that was present held an entry of
      another time and is gone; the slots of other files answer as
      before. *)
Theorem failed_synthesis_adds_nothing (w : World) (s : Server) (file : string)
    (info : FileInfo) (st : State) :
  GoStrings.HasPrefix file (root s) = true ->
  os_Stat w file = Ok info ->
  (IsDir info = false ->
   LRU.peek (dirEntries st) file = None
   \/ cached_stale st file (TimeFromGo (ModTime info)) ->
   forall err,
     DirEntry_Size w (bare_entry s file info) = Fail err
     \/ (exists offs u f,
           DirEntry_Size w (bare_entry s file info) = Ok offs
           /\ user s = Some u
           /\ Factotum u = Some f
           /\ FileSign w f
                (entry_digest w f
                   (set_Blocks (bare_entry s file info) [file_block s file info offs]))
              = Fail err) ->
     entry w s file st = (Fail err, with_cache st (LRU.Remove (dirEntries st) file)))
  /\ (forall err st',
        entry w s file st = (Fail err, st') ->
        (DirEntry_Size w (bare_entry s file info) = Fail err
         \/ exists offs u f,
              DirEntry_Size w (bare_entry s file info) = Ok offs
              /\ user s = Some u
              /\ Factotum u = Some f
              /\ FileSign w f
                   (entry_digest w f
                      (set_Blocks (bare_entry s file info) [file_block s file info offs]))
                 = Fail err)
        /\ heap st' = heap st
        /\ dirEntries st' = LRU.Remove (dirEntries st) file
        /\ LRU.peek (dirEntries st') file = None
        /\ (forall other, file <> other ->
              LRU.peek (dirEntries st') other = LRU.peek (dirEntries st) other)
        /\ (LRU.peek (dirEntries st) file = None -> st' = st)
        /\ (forall l, LRU.peek (dirEntries st) file = Some l ->
              cached_stale st file (TimeFromGo (ModTime info)))).
Proof.
  intros Hpre Hstat. split.
  - intros Hdir Hother err Hfail.
    rewrite (entry_file_rebuild w s file info Hpre Hstat st Hdir Hother). cbv zeta.
    destruct Hfail as [-> | (offs & u & f & -> & -> & -> & ->)]; reflexivity.
  - intros err st' Hentry.
    destruct (IsDir info) eqn:Hdir.
    { rewrite (entry_directory w s file info Hpre Hstat st Hdir) in Hentry.
      discriminate. }
    assert (Hother : LRU.peek (dirEntries st) file = None
                     \/ cached_stale st file (TimeFromGo (ModTime info))).
    { destruct (LRU.peek (dirEntries st) file) as [l|] eqn:Hpeek; [right|left; reflexivity].
      destruct (heap st !! l) as [e|] eqn:Hl.
      - destruct (Z.eq_dec (Time_of e) (TimeFromGo (ModTime info))) as [Heq|Hne].
        + rewrite (entry_file_hit w s file info Hpre Hstat st l Hdir) in Hentry;
            [discriminate|].
          split; [exact Hpeek|]. exists e. split; assumption.
        + exists l, e. repeat split; assumption.
      - exfalso. revert Hentry. unfold entry. rewrite Hpre. cbn [negb].
        unfold bindM at 1. unfold liftM at 1. rewrite Hstat, Hdir.
        unfold bindM at 1. unfold cached_entry.
        pose proof (Get_value (dirEntries st) file) as Hv. rewrite Hpeek in Hv.
        destruct (LRU.Get (dirEntries st) file) as [v c]. cbn [fst] in Hv. subst v.
        rewrite Hl. discriminate. }
    rewrite (entry_file_rebuild w s file info Hpre Hstat st Hdir Hother) in Hentry.
    cbv zeta in Hentry.
    assert (Hst' : st' = with_cache st (LRU.Remove (dirEntries st) file)
                   /\ (DirEntry_Size w (bare_entry s file info) = Fail err
                       \/ exists offs u f,
                            DirEntry_Size w (bare_entry s file info) = Ok offs
                            /\ user s = Some u
                            /\ Factotum u = Some f
                            /\ FileSign w f
                                 (entry_digest w f
                                    (set_Blocks (bare_entry s file info)
                                       [file_block s file info offs]))
                               = Fail err)).
    { destruct (DirEntry_Size w (bare_entry s file info)) as [offs| |] eqn:Hsize;
        try discriminate.
      - destruct (user s) as [u|] eqn:Hu; try discriminate.
        destruct (Factotum u) as [f|] eqn:Hf; try discriminate.
        destruct (FileSign w f _) as [sig| |] eqn:Hsign; try discriminate.
        + destruct (pdMarshal [] sig None) as [pd| |] eqn:Hpd; try discriminate.
          exfalso. exact (pdMarshal_no_error _ _ _ _ Hpd).
        + injection Hentry as <- <-. split; [reflexivity|].
          right. exists offs, u, f. repeat split; assumption.
      - injection Hentry as <- <-. split; [reflexivity | left; reflexivity]. }
    destruct Hst' as [-> Horigin]. cbn [with_cache heap dirEntries].
    split; [exact Horigin|]. split; [reflexivity|]. split; [reflexivity|].
    split; [apply peek_Remove_same|].
    split; [intros other Hne; apply peek_Remove_other; exact Hne|].
    split.
    + intros Hnone. unfold with_cache. rewrite (Remove_absent _ _ Hnone).
      destruct st; reflexivity.
    + intros l Hpeek. destruct Hother as [Hnone | Hstale]; [congruence | exact Hstale].
Qed.

(** After a failed signature on the touched file [/srv/doc], whose entry
    was cached before: the call fails with the signer's error and the
    slot is gone. *)
Lemma failed_synthesis_adds_nothing_witness :
  entry Demo.world_touched_without_signer Demo.for_ann "/srv/doc" Demo.after_doc
    = (Fail (Foreign 7),
       with_cache Demo.after_doc (LRU.Remove (dirEntries Demo.after_doc) "/srv/doc"))
  /\ heap (with_cache Demo.after_doc (LRU.Remove (dirEntries Demo.after_doc) "/srv/doc"))
     = heap Demo.after_doc
  /\ LRU.peek (dirEntries (with_cache Demo.after_doc
                             (LRU.Remove (dirEntries Demo.after_doc) "/srv/doc")))
       "/srv/doc" = None.
Proof.
  set (w := Demo.world_touched_without_signer).
  set (fi := Demo.info Demo.file_mode 200 5).
  assert (Hpre : GoStrings.HasPrefix "/srv/doc" (root Demo.for_ann) = true) by run.
  assert (Hstat : os_Stat w "/srv/doc" = Ok fi) by run.
  destruct (failed_synthesis_adds_nothing w Demo.for_ann "/srv/doc" fi Demo.after_doc
              Hpre Hstat) as [HA HB].
  assert (Hdir : IsDir fi = false) by run.
  assert (Hstale : cached_stale Demo.after_doc "/srv/doc" (TimeFromGo (ModTime fi))).
  { exists 0%nat, (set_Packdata
                     (set_Blocks (bare_entry Demo.for_ann "/srv/doc"
                                    (Demo.info Demo.file_mode 100 5))
                        [file_block Demo.for_ann "/srv/doc"
                           (Demo.info Demo.file_mode 100 5) 0])
                     [Byte.x04; Byte.x03; Byte.xe9; Byte.x02; Byte.x6f; Byte.x00;
                      Byte.x00]).
    split; [run|]. split; [run|]. vm_compute. discriminate. }
  assert (Hsign : DirEntry_Size w (bare_entry Demo.for_ann "/srv/doc" fi) = Fail (Foreign 7)
                  \/ exists offs u f,
                       DirEntry_Size w (bare_entry Demo.for_ann "/srv/doc" fi) = Ok offs
                       /\ user Demo.for_ann = Some u
                       /\ Factotum u = Some f
                       /\ FileSign w f
                            (entry_digest w f
                               (set_Blocks (bare_entry Demo.for_ann "/srv/doc" fi)
                                  [file_block Demo.for_ann "/srv/doc" fi offs]))
                          = Fail (Foreign 7)).
  { right. exists 0, Demo.ann, 1%nat. split; [run|]. split; [run|]. split; run. }
  pose proof (HA Hdir (or_intror Hstale) _ Hsign) as Hfail.
  split; [exact Hfail|].
  destruct (HB _ _ Hfail) as (_ & Hheap & _ & Hnone & _).
  split; [exact Hheap | exact Hnone].
Defined.

(** C9 as stated fails: the file [/srv/doc] has a cached entry of time
    100; the file is touched and the signer refuses; the call fails, and
    the slot that was there before the call is no longer there. *)
Lemma failed_synthesis_clears_slot_counterexample :
  os_Stat Demo.world_touched_without_signer "/srv/doc"
    = Ok (Demo.info Demo.file_mode 200 5)
  /\ fst (entry Demo.world_touched_without_signer Demo.for_ann "/srv/doc" Demo.after_doc)
     = Fail (Foreign 7)
  /\ LRU.peek (dirEntries Demo.after_doc) "/srv/doc" = Some 0%nat
  /\ LRU.peek (dirEntries (snd (entry Demo.world_touched_without_signer Demo.for_ann
                                  "/srv/doc" Demo.after_doc))) "/srv/doc" = None.
Proof. vm_compute. repeat split. Qed.

(** ** The cache is keyed by path and checked by modification time *)

Lemma entry_file_Ok_cached (w : World) (s : Server) (file : string) (info : FileInfo)
    (st st' : State) (l : nat) :
  GoStrings.HasPrefix file (root s) = true ->
  os_Stat w file = Ok info ->
  IsDir info = false ->
  (0 < LRU.maxEntries (dirEntries st))%nat ->
  entry w s file st = (Ok l, st') ->
  cached_fresh st' file (TimeFromGo (ModTime info)) l.
Proof.
  intros Hpre Hstat Hdir Hcap Hentry.
  assert (Hcases : (exists l0, cached_fresh st file (TimeFromGo (ModTime info)) l0)
                   \/ (LRU.peek (dirEntries st) file = None
                       \/ cached_stale st file (TimeFromGo (ModTime info)))
                   \/ (exists l0, LRU.peek (dirEntries st) file = Some l0
                                  /\ heap st !! l0 = None)).
  { destruct (LRU.peek (dirEntries st) file) as [l0|] eqn:Hpeek; [|auto].
    destruct (heap st !! l0) as [e|] eqn:Hl; [|eauto].
    destruct (Z.eq_dec (Time_of e) (TimeFromGo (ModTime info))) as [Heq|Hne].
    - left. exists l0. split; [exact Hpeek|]. eauto.
    - right. left. right. exists l0, e. auto. }
  destruct Hcases as [[l0 Hfresh] | [Hother | (l0 & Hpeek & Hl)]].
  - rewrite (entry_file_hit w s file info Hpre Hstat st l0 Hdir Hfresh) in Hentry.
    injection Hentry as <- <-. destruct Hfresh as (Hpeek & e & Hl & Htime).
    split; [cbn; rewrite peek_Get; exact Hpeek|]. exists e. auto.
  - rewrite (entry_file_rebuild w s file info Hpre Hstat st Hdir Hother) in Hentry.
    cbv zeta in Hentry.
    destruct (DirEntry_Size w _) as [offs| |]; try discriminate.
    destruct (user s) as [u|]; try discriminate.
    destruct (Factotum u) as [f|]; try discriminate.
    destruct (FileSign w _ _) as [sig| |]; try discriminate.
    destruct (pdMarshal [] sig None) as [pd| |]; try discriminate.
    injection Hentry as <- <-. split.
    + cbn. apply peek_Add_same. exact Hcap.
    + eexists. split; [apply list_lookup_middle; reflexivity|].
      reflexivity.
  - exfalso. revert Hentry. unfold entry. rewrite Hpre. cbn [negb].
    unfold bindM at 1. unfold liftM at 1. rewrite Hstat, Hdir.
    unfold bindM at 1. unfold cached_entry.
    pose proof (Get_value (dirEntries st) file) as Hv. rewrite Hpeek in Hv.
    destruct (LRU.Get (dirEntries st) file) as [v c]. cbn [fst] in Hv. subst v.
    rewrite Hl. discriminate.
Qed.

Lemma entry_file_stale (w : World) (s : Server) (file : string) (info : FileInfo)
    (st st' : State) (r : outcome nat) :
  GoStrings.HasPrefix file (root s) = true ->
  os_Stat w file = Ok info ->
  IsDir info = false ->
  cached_stale st file (TimeFromGo (ModTime info)) ->
  entry w s file st = (r, st') ->
  match r with
  | Ok l' =>
      l' = length (heap st)
      /\ dirEntries st' = LRU.Add (LRU.Remove (dirEntries st) file) file l'
      /\ exists e', heap st' = heap st ++ [e']
                    /\ Time_of e' = TimeFromGo (ModTime info)
  | _ => heap st' = heap st /\ dirEntries st' = LRU.Remove (dirEntries st) file
  end.
Proof.
  intros Hpre Hstat Hdir Hstale.
  rewrite (entry_file_rebuild w s file info Hpre Hstat st Hdir (or_intror Hstale)).
  cbv zeta.
  destruct (DirEntry_Size w _) as [offs| |]; try (intros [= <- <-]; split; reflexivity).
  destruct (user s) as [u|]; try (intros [= <- <-]; split; reflexivity).
  destruct (Factotum u) as [f|]; try (intros [= <- <-]; split; reflexivity).
  destruct (FileSign w _ _) as [sig| |]; try (intros [= <- <-]; split; reflexivity).
  destruct (pdMarshal [] sig None) as [pd| |]; try (intros [= <- <-]; split; reflexivity).
  intros [= <- <-]. split; [reflexivity|]. split; [reflexivity|].
  eexists. split; reflexivity.
Qed.

Lemma Lookup_Ok (w : World) (s : Server) (pathName : PathName) (st st' : State) (l : nat) :
  Lookup w s pathName st = (Ok l, st') <->
  exists parsed,
    path_Parse w pathName = Ok parsed
    /\ verifyUserRoot s parsed = Ok tt
    /\ can w s access.List parsed = Ok true
    /\ entry w s (filepath_Join (root s) (FilePath parsed)) st = (Ok l, st').
Proof.
  unfold Lookup. cbv zeta. split.
  - unfold bindM at 1. unfold liftM at 1.
    destruct (path_Parse w pathName) as [parsed| |] eqn:Hparse; cbn [wrap];
      try discriminate.
    unfold bindM at 1. unfold liftM at 1.
    destruct (verifyUserRoot s parsed) as [[]| |] eqn:Hv; cbn [wrap]; try discriminate.
    unfold bindM at 1. unfold liftM at 1.
    destruct (can w s access.List parsed) as [[|]| |] eqn:Hcan; cbn [wrap negb];
      try discriminate.
    intros H. apply wrapM_Ok in H. exists parsed. auto.
  - intros (parsed & -> & Hv & Hcan & Hentry).
    unfold bindM at 1. unfold liftM at 1. cbn [wrap].
    unfold bindM at 1. unfold liftM at 1. rewrite Hv. cbn [wrap].
    unfold bindM at 1. unfold liftM at 1. rewrite Hcan. cbn [wrap negb].
    unfold wrapM. rewrite Hentry. reflexivity.
Qed.

(** C1. [entry] caches the entry it builds for a file under the local
    path. A later call for the path, while it is a file, returns the
    cached entry as it is - the same object, untouched, hence the same
    version and the same signature bytes - if and only if the file's
    modification time equals the version of the cached entry; if the
    times differ, the slot is removed and the entry is built anew, at a
    new address, with the new version: when the size computation, the
    signer and the marshalling succeed, the call returns the new
    address, the heap has grown by the unsigned entry of the file with
    its one block and the marshalled signature, and the slot holds the
    new address; when one of them fails, the slot stays removed. Hence
    two calls in a row for a file whose modification time has not
    changed, be it through [entry] or through [Lookup], return the same
    entry. *)
Theorem entry_cached_until_modification_time_changes :
  (* what a call returns for a file is in the cache afterwards *)
  (forall (w : World) (s : Server) (file : string) (info : FileInfo)
          (st st' : State) (l : nat),
     GoStrings.HasPrefix file (root s) = true ->
     os_Stat w file = Ok info ->
     IsDir info = false ->
     (0 < LRU.maxEntries (dirEntries st))%nat ->
     entry w s file st = (Ok l, st') ->
     LRU.peek (dirEntries st') file = Some l
     /\ exists e, heap st' !! l = Some e /\ Time_of e = TimeFromGo (ModTime info))
  (* a later call *)
  /\ (forall (w : World) (s : Server) (file : string) (info : FileInfo)
             (st : State) (l : nat) (e : DirEntry),
        GoStrings.HasPrefix file (root s) = true ->
        os_Stat w file = Ok info ->
        IsDir info = false ->
        LRU.peek (dirEntries st) file = Some l ->
        heap st !! l = Some e ->
        (fst (entry w s file st) = Ok l <-> TimeFromGo (ModTime info) = Time_of e)
        /\ (TimeFromGo (ModTime info) = Time_of e ->
            entry w s file st
            = (Ok l, with_cache st (snd (LRU.Get (dirEntries st) file))))
        /\ (TimeFromGo (ModTime info) <> Time_of e ->
            match fst (entry w s file st) with
            | Ok l' =>
                l' <> l
                /\ heap (snd (entry w s file st)) !! l = Some e
                /\ dirEntries (snd (entry w s file st))
                   = LRU.Add (LRU.Remove (dirEntries st) file) file l'
                /\ exists e', heap (snd (entry w s file st)) !! l' = Some e'
                              /\ Time_of e' = TimeFromGo (ModTime info)
            | _ =>
                heap (snd (entry w s file st)) = heap st
                /\ dirEntries (snd (entry w s file st))
                   = LRU.Remove (dirEntries st) file
            end))
  (* two calls in a row *)
  /\ (forall (w1 w2 : World) (s : Server) (file : string) (info1 info2 : FileInfo)
             (st st1 : State) (l : nat),
        GoStrings.HasPrefix file (root s) = true ->
        os_Stat w1 file = Ok info1 -> IsDir info1 = false ->
        os_Stat w2 file = Ok info2 -> IsDir info2 = false ->
        TimeFromGo (ModTime info2) = TimeFromGo (ModTime info1) ->
        (0 < LRU.maxEntries (dirEntries st))%nat ->
        entry w1 s file st = (Ok l, st1) ->
        exists st2 e,
          entry w2 s file st1 = (Ok l, st2)
          /\ heap st1 !! l = Some e /\ heap st2 !! l = Some e)
  /\ (forall (w : World) (s : Server) (pathName : PathName) (parsed : Parsed)
             (info : FileInfo) (st st1 : State) (l : nat),
        path_Parse w pathName = Ok parsed ->
        os_Stat w (filepath_Join (root s) (FilePath parsed)) = Ok info ->
        IsDir info = false ->
        (0 < LRU.maxEntries (dirEntries st))%nat ->
        Lookup w s pathName st = (Ok l, st1) ->
        exists st2 e,
          Lookup w s pathName st1 = (Ok l, st2)
          /\ heap st1 !! l = Some e /\ heap st2 !! l = Some e)
  (* building the entry anew: the slot is absent or stale, and the size
     computation, the signer and the marshalling succeed *)
  /\ (forall (w : World) (s : Server) (file : string) (info : FileInfo) (st : State)
             (offs : Z) (u : Config) (f : nat) (sig : Signature) (pd : list Byte.byte),
        GoStrings.HasPrefix file (root s) = true ->
        os_Stat w file = Ok info ->
        IsDir info = false ->
        LRU.peek (dirEntries st) file = None
        \/ cached_stale st file (TimeFromGo (ModTime info)) ->
        DirEntry_Size w (bare_entry s file info) = Ok offs ->
        user s = Some u ->
        Factotum u = Some f ->
        FileSign w f
          (entry_digest w f
             (set_Blocks (bare_entry s file info) [file_block s file info offs]))
        = Ok sig ->
        pdMarshal [] sig None = Ok pd ->
        entry w s file st
        = (Ok (length (heap st)),
           {| heap := heap st
                      ++ [set_Packdata
                            (set_Blocks (bare_entry s file info)
                               [file_block s file info offs]) pd];
              dirEntries := LRU.Add (LRU.Remove (dirEntries st) file) file
                              (length (heap st)) |})
        /\ Time_of (set_Packdata
                      (set_Blocks (bare_entry s file info)
                         [file_block s file info offs]) pd)
           = TimeFromGo (ModTime info)).
Proof.
  assert (Htwice : forall (w1 w2 : World) (s : Server) (file : string)
                          (info1 info2 : FileInfo) (st st1 : State) (l : nat),
             GoStrings.HasPrefix file (root s) = true ->
             os_Stat w1 file = Ok info1 -> IsDir info1 = false ->
             os_Stat w2 file = Ok info2 -> IsDir info2 = false ->
             TimeFromGo (ModTime info2) = TimeFromGo (ModTime info1) ->
             (0 < LRU.maxEntries (dirEntries st))%nat ->
             entry w1 s file st = (Ok l, st1) ->
             exists st2 e,
               entry w2 s file st1 = (Ok l, st2)
               /\ heap st1 !! l = Some e /\ heap st2 !! l = Some e).
  { intros w1 w2 s file info1 info2 st st1 l Hpre Hs1 Hd1 Hs2 Hd2 Htime Hcap H1.
    pose proof (entry_file_Ok_cached w1 s file info1 st st1 l Hpre Hs1 Hd1 Hcap H1)
      as Hfresh.
    rewrite <- Htime in Hfresh.
    pose proof (entry_file_hit w2 s file info2 Hpre Hs2 st1 l Hd2 Hfresh) as H2.
    destruct Hfresh as (_ & e & Hl & _).
    eexists. exists e. split; [exact H2|]. split; [exact Hl | exact Hl]. }
  split; [|split; [|split; [|split]]].
  - intros w s file info st st' l Hpre Hstat Hdir Hcap Hentry.
    exact (entry_file_Ok_cached w s file info st st' l Hpre Hstat Hdir Hcap Hentry).
  - intros w s file info st l e Hpre Hstat Hdir Hpeek Hl.
    assert (Hhit : TimeFromGo (ModTime info) = Time_of e ->
                   entry w s file st
                   = (Ok l, with_cache st (snd (LRU.Get (dirEntries st) file)))).
    { intros Heq. apply (entry_file_hit w s file info Hpre Hstat st l Hdir).
      split; [exact Hpeek|]. exists e. auto. }
    assert (Hmiss : TimeFromGo (ModTime info) <> Time_of e ->
                    match fst (entry w s file st) with
                    | Ok l' =>
                        l' <> l
                        /\ heap (snd (entry w s file st)) !! l = Some e
                        /\ dirEntries (snd (entry w s file st))
                           = LRU.Add (LRU.Remove (dirEntries st) file) file l'
                        /\ exists e', heap (snd (entry w s file st)) !! l' = Some e'
                                      /\ Time_of e' = TimeFromGo (ModTime info)
                    | _ =>
                        heap (snd (entry w s file st)) = heap st
                        /\ dirEntries (snd (entry w s file st))
                           = LRU.Remove (dirEntries st) file
                    end).
    { intros Hne.
      assert (Hstale : cached_stale st file (TimeFromGo (ModTime info))).
      { exists l, e. repeat split; auto. }
      destruct (entry w s file st) as [r st'] eqn:Hentry.
      pose proof (entry_file_stale w s file info st st' r Hpre Hstat Hdir Hstale Hentry)
        as H.
      cbn [fst snd]. destruct r as [l'| |]; try exact H.
      destruct H as (-> & Hc & e' & Hheap & Htime).
      pose proof (lookup_lt_Some _ _ _ Hl) as Hlt.
      split; [lia|]. split; [rewrite Hheap; apply lookup_app_l_Some; exact Hl|].
      split; [exact Hc|]. exists e'. split; [|exact Htime].
      rewrite Hheap. apply list_lookup_middle. reflexivity. }
    split; [|split; assumption]. split.
    + intros HOk.
      destruct (Z.eq_dec (TimeFromGo (ModTime info)) (Time_of e)) as [Heq|Hne];
        [exact Heq|].
      specialize (Hmiss Hne). rewrite HOk in Hmiss. destruct Hmiss as [Hll _].
      contradiction.
    + intros Heq. rewrite (Hhit Heq). reflexivity.
  - exact Htwice.
  - intros w s pathName parsed info st st1 l Hparse Hstat Hdir Hcap HL.
    apply Lookup_Ok in HL. destruct HL as (parsed' & Hparse' & Hv & Hcan & Hentry).
    assert (parsed' = parsed) by congruence. subst parsed'.
    assert (Hpre : GoStrings.HasPrefix (filepath_Join (root s) (FilePath parsed)) (root s)
                   = true).
    { destruct (GoStrings.HasPrefix _ (root s)) eqn:E; [reflexivity|].
      rewrite (entry_not_in_root w s _ st E) in Hentry. discriminate. }
    destruct (Htwice w w s _ info info st st1 l Hpre Hstat Hdir Hstat Hdir eq_refl Hcap
                Hentry) as (st2 & e & H2 & Hl1 & Hl2).
    exists st2, e. split; [|split; assumption].
    apply Lookup_Ok. exists parsed. auto.
  - intros w s file info st offs u f sig pd Hpre Hstat Hdir Hother Hsize Hu Hf Hsign Hpd.
    split; [|reflexivity].
    rewrite (entry_file_rebuild w s file info Hpre Hstat st Hdir Hother). cbv zeta.
    rewrite Hsize, Hu, Hf, Hsign, Hpd. reflexivity.
Qed.

(** On the demo world: the entry of [/srv/doc] is cached at address 0; a
    call by another caller while the file is unchanged returns address 0
    and moves nothing; after the file has been touched the address is
    not returned: the entry is built anew at address 1, with the new
    time and the signature of the caller, and takes the slot. *)
Lemma entry_cached_until_modification_time_changes_witness :
  (LRU.peek (dirEntries Demo.after_doc) "/srv/doc" = Some 0%nat
   /\ exists e, heap Demo.after_doc !! 0%nat = Some e
                /\ Time_of e = TimeFromGo (ModTime Demo.doc_info))
  /\ entry Demo.world Demo.for_bob "/srv/doc" Demo.after_doc
     = (Ok 0%nat,
        with_cache Demo.after_doc (snd (LRU.Get (dirEntries Demo.after_doc) "/srv/doc")))
  /\ fst (entry Demo.world_touched Demo.for_bob "/srv/doc" Demo.after_doc) <> Ok 0%nat
  /\ (exists st2 e,
        entry Demo.world_without_signer Demo.for_ann "/srv/doc" Demo.after_doc
        = (Ok 0%nat, st2)
        /\ heap Demo.after_doc !! 0%nat = Some e /\ heap st2 !! 0%nat = Some e)
  /\ (exists st2 e,
        Lookup Demo.world Demo.for_ann "ann@example.com/doc" Demo.after_doc
        = (Ok 0%nat, st2)
        /\ heap Demo.after_doc !! 0%nat = Some e /\ heap st2 !! 0%nat = Some e)
  /\ entry Demo.world_touched Demo.for_bob "/srv/doc" Demo.after_doc
     = (Ok 1%nat,
        {| heap := heap Demo.after_doc
                   ++ [set_Packdata
                         (set_Blocks
                            (bare_entry Demo.for_bob "/srv/doc"
                               (Demo.info Demo.file_mode 200 5))
                            [file_block Demo.for_bob "/srv/doc"
                               (Demo.info Demo.file_mode 200 5) 0])
                         [Byte.x04; Byte.x03; Byte.xea; Byte.x02; Byte.x6f; Byte.x00;
                          Byte.x00]];
           dirEntries := LRU.Add (LRU.Remove (dirEntries Demo.after_doc) "/srv/doc")
                           "/srv/doc" 1%nat |}).
Proof.
  destruct entry_cached_until_modification_time_changes as (H1 & H2 & H3 & H4 & H5).
  set (touched := Demo.info Demo.file_mode 200 5).
  assert (Hcap : (0 < LRU.maxEntries (dirEntries Demo.init))%nat)
    by (cbn; unfold maxCacheEntries; lia).
  assert (Hpre : GoStrings.HasPrefix "/srv/doc" (root Demo.for_ann) = true) by run.
  assert (Hpre' : GoStrings.HasPrefix "/srv/doc" (root Demo.for_bob) = true) by run.
  assert (Hstat : os_Stat Demo.world "/srv/doc" = Ok Demo.doc_info) by run.
  assert (Hstat' : os_Stat Demo.world_without_signer "/srv/doc" = Ok Demo.doc_info) by run.
  assert (Hstat2 : os_Stat Demo.world_touched "/srv/doc" = Ok touched) by run.
  assert (Hdir : IsDir Demo.doc_info = false) by run.
  assert (Hdir2 : IsDir touched = false) by run.
  assert (Hrun : entry Demo.world Demo.for_ann "/srv/doc" Demo.init
                 = (Ok 0%nat, Demo.after_doc)) by run.
  assert (Hpeek : LRU.peek (dirEntries Demo.after_doc) "/srv/doc" = Some 0%nat) by run.
  assert (Hl : heap Demo.after_doc !! 0%nat = Some Demo.doc_entry) by run.
  split; [|split; [|split; [|split; [|split]]]].
  - exact (H1 _ _ _ _ _ _ _ Hpre Hstat Hdir Hcap Hrun).
  - destruct (H2 Demo.world Demo.for_bob _ _ _ _ _ Hpre' Hstat Hdir Hpeek Hl)
      as (_ & Hhit & _).
    apply Hhit. run.
  - destruct (H2 Demo.world_touched Demo.for_bob _ _ _ _ _ Hpre' Hstat2 Hdir2 Hpeek Hl)
      as (Hiff & _).
    intros HOk. apply Hiff in HOk. vm_compute in HOk. discriminate HOk.
  - exact (H3 Demo.world Demo.world_without_signer Demo.for_ann _ _ _ _ _ _
             Hpre Hstat Hdir Hstat' Hdir eq_refl Hcap Hrun).
  - assert (Hparse : path_Parse Demo.world "ann@example.com/doc"
                     = Ok {| User := Demo.owner; Elems := ["doc"] |}) by run.
    assert (HL : Lookup Demo.world Demo.for_ann "ann@example.com/doc" Demo.init
                 = (Ok 0%nat, Demo.after_doc)) by run.
    exact (H4 Demo.world Demo.for_ann _ _ Demo.doc_info _ _ _ Hparse Hstat Hdir Hcap HL).
  - assert (Hstale : cached_stale Demo.after_doc "/srv/doc" (TimeFromGo (ModTime touched))).
    { exists 0%nat, Demo.doc_entry. split; [exact Hpeek|]. split; [exact Hl|].
      vm_compute. discriminate. }
    assert (Hsize : DirEntry_Size Demo.world_touched
                      (bare_entry Demo.for_bob "/srv/doc" touched) = Ok 0) by run.
    assert (Hu : user Demo.for_bob = Some Demo.bob) by run.
    assert (Hf : Factotum Demo.bob = Some 2%nat) by run.
    assert (Hsign : FileSign Demo.world_touched 2
                      (entry_digest Demo.world_touched 2
                         (set_Blocks (bare_entry Demo.for_bob "/srv/doc" touched)
                            [file_block Demo.for_bob "/srv/doc" touched 0]))
                    = Ok {| sig_R := 1002; sig_S := 111 |}) by run.
    assert (Hpd : pdMarshal [] {| sig_R := 1002; sig_S := 111 |} None
                  = Ok [Byte.x04; Byte.x03; Byte.xea; Byte.x02; Byte.x6f; Byte.x00;
                        Byte.x00]) by run.
    exact (proj1 (H5 Demo.world_touched Demo.for_bob "/srv/doc" touched Demo.after_doc
                    0 Demo.bob 2%nat _ _ Hpre' Hstat2 Hdir2 (or_intror Hstale)
                    Hsize Hu Hf Hsign Hpd)).
Defined.

(** ** Errors that the lister passes to [filepath.Walk] *)

Lemma os_call_not_skip {A : Type} (op path : string) (r : syscall A) (err : error) :
  os_call op path r = Fail err -> is_skip err = false.
Proof. destruct r; cbn; [discriminate|]. intros [= <-]. reflexivity. Qed.

Lemma from_reply_not_skip {A : Type} (r : reply A) (err : error) :
  from_reply r = Fail err -> is_skip err = false.
Proof. destruct r; cbn; [discriminate|]. intros [= <-]. reflexivity. Qed.

Lemma os_call_no_panic {A : Type} (op path : string) (r : syscall A) :
  os_call op path r <> Panic.
Proof. destruct r; discriminate. Qed.




(** ** Entries once allocated *)

Lemma MarkIncomplete_incomplete (e : DirEntry) : incomplete (MarkIncomplete e).
Proof.
  unfold incomplete, IsIncomplete. cbn. repeat split.
  apply negb_true_iff, Z.eqb_neq. intros H.
  assert (Hbit : Z.testbit (Z.land (Z.lor (Attr e) AttrIncomplete) AttrIncomplete) 3 = true).
  { rewrite Z.land_spec, Z.lor_spec. unfold AttrIncomplete. cbn.
    rewrite orb_true_r. reflexivity. }
  rewrite H in Hbit. discriminate Hbit.
Qed.

Lemma heap_evolves_refl (h : list DirEntry) : heap_evolves h h.
Proof. intros l e H. exists e. auto. Qed.

Lemma heap_evolves_trans (h1 h2 h3 : list DirEntry) :
  heap_evolves h1 h2 -> heap_evolves h2 h3 -> heap_evolves h1 h3.
Proof.
  intros H12 H23 l e H.
  destruct (H12 l e H) as (e2 & H2 & Hn2 & Hi2).
  destruct (H23 l e2 H2) as (e3 & H3 & Hn3 & Hi3).
  exists e3. split; [exact H3|]. split; [congruence | auto].
Qed.

Lemma heap_evolves_app (h : list DirEntry) (d : DirEntry) : heap_evolves h (h ++ [d]).
Proof.
  intros l e H. exists e. split; [apply lookup_app_l_Some; exact H | auto].
Qed.

Lemma heap_evolves_mark (h : list DirEntry) (l : nat) :
  heap_evolves h (alter MarkIncomplete l h).
Proof.
  intros l' e H. destruct (Nat.eq_dec l l') as [<- | Hne].
  - exists (MarkIncomplete e). rewrite list_lookup_alter_eq, H.
    split; [reflexivity|]. split; [reflexivity|].
    intros _. apply MarkIncomplete_incomplete.
  - exists e. rewrite list_lookup_alter_ne by exact Hne. auto.
Qed.


Lemma cache_names_evolves (s : Server) (st st' : State) :
  dirEntries st' = dirEntries st ->
  heap_evolves (heap st) (heap st') ->
  cache_names s st -> cache_names s st'.
Proof.
  intros Hc Hev Hinv file l Hpeek. rewrite Hc in Hpeek.
  destruct (Hinv file l Hpeek) as (e & Hl & Hname).
  destruct (Hev l e Hl) as (e' & Hl' & Hname' & _).
  exists e'. split; [exact Hl' | congruence].
Qed.

Lemma peek_Add_fresh {V : Type} (c : LRU.t V) (k : string) (v v' : V) :
  LRU.peek (LRU.Add (LRU.Remove c k) k v) k = Some v' -> v' = v.
Proof.
  unfold LRU.Add, LRU.peek. cbn [LRU.Remove LRU.ll LRU.maxEntries].
  rewrite find_remove_key_same.
  destruct (_ <? _)%nat; cbn [LRU.ll].
  - intros H. apply find_removelast in H. cbn [LRU.find] in H.
    rewrite String.eqb_refl in H. congruence.
  - cbn [LRU.find]. rewrite String.eqb_refl. congruence.
Qed.

(** Under [cache_names] a slot is fresh, stale or absent. *)
Lemma cache_slot_cases (s : Server) (st : State) (file : string) (t : upspin_Time) :
  cache_names s st ->
  (exists l, cached_fresh st file t l)
  \/ (LRU.peek (dirEntries st) file = None \/ cached_stale st file t).
Proof.
  intros Hinv. destruct (LRU.peek (dirEntries st) file) as [l|] eqn:Hpeek; [|auto].
  destruct (Hinv file l Hpeek) as (e & Hl & _).
  destruct (Z.eq_dec (Time_of e) t) as [Heq|Hne].
  - left. exists l. split; [exact Hpeek|]. eauto.
  - right. right. exists l, e. auto.
Qed.

(** What a call of [entry] leaves behind, for a directory or a file. *)
Lemma entry_spec (w : World) (s : Server) (file : string) (st st' : State)
    (r : outcome nat) :
  cache_names s st ->
  entry w s file st = (r, st') ->
  match r with
  | Ok l =>
      cache_names s st'
      /\ heap_evolves (heap st) (heap st')
      /\ exists e, heap st' !! l = Some e /\ Name e = upspinPathFromLocal s file
  | Fail err => is_skip err = false
  | Panic => True
  end.
Proof.
  intros Hinv Hentry.
  destruct (GoStrings.HasPrefix file (root s)) eqn:Hpre.
  2:{ rewrite (entry_not_in_root w s file st Hpre) in Hentry.
      injection Hentry as <- <-. reflexivity. }
  destruct (os_Stat w file) as [info|err|] eqn:Hstat.
  2:{ revert Hentry. unfold entry. rewrite Hpre. cbn [negb].
      unfold bindM at 1. unfold liftM at 1. rewrite Hstat. intros [= <- <-].
      exact (os_call_not_skip _ _ _ _ Hstat). }
  2:{ exfalso. exact (os_call_no_panic _ _ _ Hstat). }
  destruct (IsDir info) eqn:Hdir.
  { rewrite (entry_directory w s file info Hpre Hstat st Hdir) in Hentry.
    injection Hentry as <- <-. split; [|split].
    - intros f l Hpeek. cbn [heap dirEntries] in Hpeek |- *.
      destruct (Hinv f l Hpeek) as (e & Hl & Hname).
      exists e. split; [apply lookup_app_l_Some; exact Hl | exact Hname].
    - apply heap_evolves_app.
    - eexists. split; [apply list_lookup_middle; reflexivity | reflexivity]. }
  destruct (cache_slot_cases s st file (TimeFromGo (ModTime info)) Hinv)
    as [[l0 Hfresh] | Hother].
  - rewrite (entry_file_hit w s file info Hpre Hstat st l0 Hdir Hfresh) in Hentry.
    injection Hentry as <- <-. destruct Hfresh as (Hpeek & e & Hl & _).
    split; [|split].
    + intros f l Hp. cbn [with_cache heap dirEntries] in Hp |- *.
      rewrite peek_Get in Hp. exact (Hinv f l Hp).
    + apply heap_evolves_refl.
    + destruct (Hinv file l0 Hpeek) as (e' & Hl' & Hname). exists e'. auto.
  - revert Hentry.
    rewrite (entry_file_rebuild w s file info Hpre Hstat st Hdir Hother). cbv zeta.
    destruct (DirEntry_Size w _) as [offs|err|] eqn:Hsize.
    2:{ intros [= <- <-]. exact (from_reply_not_skip _ _ Hsize). }
    2:{ intros [= <- <-]. exact I. }
    destruct (user s) as [u|]; [|intros [= <- <-]; exact I].
    destruct (Factotum u) as [fk|]; [|intros [= <- <-]; exact I].
    destruct (FileSign w _ _) as [sig|err|] eqn:Hsign.
    2:{ intros [= <- <-]. exact (from_reply_not_skip _ _ Hsign). }
    2:{ intros [= <- <-]. exact I. }
    destruct (pdMarshal [] sig None) as [pd|err|] eqn:Hpd.
    2:{ exfalso. exact (pdMarshal_no_error _ _ _ _ Hpd). }
    2:{ intros [= <- <-]. exact I. }
    intros [= <- <-]. split; [|split].
    + intros f l Hp. cbn [heap dirEntries] in Hp |- *.
      destruct (string_dec file f) as [<- | Hnf].
      * apply peek_Add_fresh in Hp. subst l.
        eexists. split; [apply list_lookup_middle; reflexivity | reflexivity].
      * apply (peek_Add_other _ _ _ _ _ Hnf) in Hp.
        rewrite (peek_Remove_other _ _ _ Hnf) in Hp.
        destruct (Hinv f l Hp) as (e1 & Hl1 & Hn1).
        exists e1. split; [apply lookup_app_l_Some; exact Hl1 | exact Hn1].
    + apply heap_evolves_app.
    + eexists. split; [apply list_lookup_middle; reflexivity | reflexivity].
Qed.

(** The invariant holds of the state that [New] makes, for every copy of
    the server, and dialing does not change it. *)
Lemma cache_names_New (w : World) (cfg : Config) (r : string) (s s' : Server) (st : State) :
  New w cfg r = Ok (s, st) -> cache_names s' st.
Proof.
  unfold New. cbv zeta.
  destruct (negb (filepath_IsAbs _)); [discriminate|].
  destruct (os_Stat w _) as [fi|err|]; [| |discriminate].
  - destruct (negb (IsDir fi)); [discriminate|].
    destruct (access_New w _) as [a|err|]; cbn [wrap obind]; try discriminate.
    intros [= <- <-] file l Hpeek. discriminate Hpeek.
  - destruct (os_IsNotExist err); discriminate.
Qed.

Lemma cache_names_Dial (s : Server) (cfg : Config) (st : State) :
  cache_names (Dial s cfg) st <-> cache_names s st.
Proof. reflexivity. Qed.

(** ** Listing a directory *)

Section Listing.

Variables (w : World) (s : Server) (dir : string).

Lemma listDir_walk_err (f : string) (info : option FileInfo) (err : error)
    (ws : State * list nat) :
  (listDir_walk w s dir) f info (Some err) ws = (Fail err, ws).
Proof. destruct ws. reflexivity. Qed.

Lemma listDir_walk_root (info : option FileInfo) (ws : State * list nat) :
  (listDir_walk w s dir) dir info None ws = (Ok tt, ws).
Proof. destruct ws. unfold listDir_walk. rewrite String.eqb_refl. reflexivity. Qed.









End Listing.



Lemma walk_unfold {WS : Type} (w : World) (d : nat) (walkFn : WalkFunc WS)
    (path : string) (info : FileInfo) (ws : WS) :
  walk w (S d) walkFn path info ws =
  if negb (IsDir info) then Some (walkFn path (Some info) None ws)
  else match readDirNames w path with
       | Panic => Some (Panic, ws)
       | Fail err => Some (walkFn path (Some info) (Some err) ws)
       | Ok names =>
           match walkFn path (Some info) None ws with
           | (Ok _, ws') => walk_names w (walk w d walkFn) walkFn path names ws'
           | other => Some other
           end
       end.
Proof. reflexivity. Qed.



(** ** The walk against the listing of one level *)









(** ** Entries shared between the cache and a listing *)

(** The lister on a regular file whose entry is in the cache with the
    file's modification time, for a caller who is denied the read right:
    the address it appends is the cached one, and the object at that
    address is marked in place. *)
Lemma listDir_walk_marks_cached_entry (w : World) (s : Server) (dir f : string)
    (fi info : FileInfo) (p : Parsed) (st : State) (entries : list nat) (l : nat) :
  String.eqb f dir = false ->
  Mode_IsDir (Mode fi) = false ->
  Mode_IsRegular (Mode fi) = true ->
  GoStrings.HasPrefix f (root s) = true ->
  os_Stat w f = Ok info ->
  IsDir info = false ->
  cached_fresh st f (TimeFromGo (ModTime info)) l ->
  path_Parse w (upspinPathFromLocal s f) = Ok p ->
  can w s access.Read p = Ok false ->
  listDir_walk w s dir f (Some fi) None (st, entries)
  = (Ok tt,
     (mark_incomplete l (with_cache st (snd (LRU.Get (dirEntries st) f))),
      entries ++ [l])).
Proof.
  intros Hne Hd Hr Hpre Hstat Hdir Hfresh Hparse Hcan.
  unfold listDir_walk. rewrite Hne, Hd, Hr. cbn [negb andb].
  rewrite (entry_file_hit w s f info Hpre Hstat st l Hdir Hfresh).
  rewrite Hparse, Hcan. reflexivity.
Qed.

(** After that, a call of [entry] for the unchanged file, by any caller,
    returns the marked object. *)
Lemma entry_returns_marked_entry (w : World) (s : Server) (f : string) (info : FileInfo)
    (st : State) (l : nat) (e : DirEntry) :
  GoStrings.HasPrefix f (root s) = true ->
  os_Stat w f = Ok info ->
  IsDir info = false ->
  LRU.peek (dirEntries st) f = Some l ->
  heap st !! l = Some e ->
  Time_of e = TimeFromGo (ModTime info) ->
  exists st',
    entry w s f (mark_incomplete l st) = (Ok l, st')
    /\ heap st' !! l = Some (MarkIncomplete e).
Proof.
  intros Hpre Hstat Hdir Hpeek Hl Htime.
  assert (Hfresh : cached_fresh (mark_incomplete l st) f (TimeFromGo (ModTime info)) l).
  { split; [exact Hpeek|]. exists (MarkIncomplete e).
    cbn [mark_incomplete heap]. rewrite list_lookup_alter_eq, Hl. split; [reflexivity|].
    exact Htime. }
  eexists. split; [exact (entry_file_hit w s f info Hpre Hstat _ l Hdir Hfresh)|].
  cbn [with_cache mark_incomplete heap]. rewrite list_lookup_alter_eq, Hl. reflexivity.
Qed.

(** C5 fails on the code. The owner looks up [pub/b.txt]: the entry is
    built, signed and cached at address 0. The guest, who may list [pub]
    but not read [b.txt], lists [pub]: the lister receives the cached
    object from [entry] and marks it incomplete in place. The owner, who
    may read the file, looks it up again while the file is unchanged:
    the cache answers with the same object, which now carries the
    incomplete flag and has lost its block and its signature. *)
Theorem listing_marks_the_cached_entry :
    Lookup Demo.world Demo.for_ann "ann@example.com/pub/b.txt" Demo.init
      = (Ok 0%nat, Demo.after_b)
    /\ IsIncomplete <$> heap Demo.after_b !! 0%nat = Some false
    /\ length <$> (Blocks <$> heap Demo.after_b !! 0%nat) = Some 1%nat
    /\ Packdata <$> heap Demo.after_b !! 0%nat
       = Some [Byte.x04; Byte.x03; Byte.xe9; Byte.x02; Byte.x6f; Byte.x00; Byte.x00]
    /\ can Demo.world Demo.for_ann access.Read Demo.pub_b = Ok true
    /\ can Demo.world Demo.for_bob access.Read Demo.pub_b = Ok false
    /\ listDir Demo.world Demo.for_bob 2 "ann@example.com/pub" Demo.after_b
       = Some ([1; 2; 0; 3]%nat, Ok tt, Demo.after_listing)
    /\ fst (Lookup Demo.world Demo.for_ann "ann@example.com/pub/b.txt" Demo.after_listing)
       = Ok 0%nat
    /\ IsIncomplete <$> heap (snd (Lookup Demo.world Demo.for_ann "ann@example.com/pub/b.txt"
                    Demo.after_listing)) !! 0%nat = Some true
    /\ Blocks <$> heap (snd (Lookup Demo.world Demo.for_ann "ann@example.com/pub/b.txt"
                    Demo.after_listing)) !! 0%nat = Some []
    /\ Packdata <$> heap (snd (Lookup Demo.world Demo.for_ann "ann@example.com/pub/b.txt"
                    Demo.after_listing)) !! 0%nat = Some [].
Proof.
  vm_compute. repeat split.
Qed.

(** * Further properties of the package *)

(** ** Making and dialing a server *)

(** X1. A server that [New] returns has the cleaned root, which is
    absolute and a directory at the time of the call; it carries the
    given configuration and the default Access file of the owner; nobody
    has dialed it; its cache is empty with room for [maxCacheEntries]
    entries. A root that is not absolute after cleaning is refused with
    an [Invalid] error. *)
Theorem New_makes_clean_server (w : World) (cfg : Config) (r : string) :
  (forall s st,
     New w cfg r = Ok (s, st) ->
     root s = GoPath.Clean r
     /\ filepath_IsAbs (root s) = true
     /\ (exists fi, os_Stat w (root s) = Ok fi /\ IsDir fi = true)
     /\ server s = cfg
     /\ user s = None
     /\ access_New w (UserName cfg +:+ "/Access") = Ok (defaultAccess s)
     /\ st = {| heap := []; dirEntries := LRU.NewLRU maxCacheEntries |})
  /\ (filepath_IsAbs (GoPath.Clean r) = false ->
      New w cfg r
      = Fail (E [AOp "exp/filesystem.New"; AKind KInvalid;
                 AText "root must be an absolute path"])).
Proof.
  unfold New. cbv zeta. split.
  - intros s st.
    destruct (filepath_IsAbs (GoPath.Clean r)) eqn:Habs; cbn [negb]; [|discriminate].
    destruct (os_Stat w (GoPath.Clean r)) as [fi|err|] eqn:Hstat; [| |discriminate].
    + destruct (IsDir fi) eqn:Hdir; cbn [negb]; [|discriminate].
      destruct (access_New w _) as [a|err|] eqn:Ha; cbn [wrap obind]; try discriminate.
      intros [= <- <-]. cbn [root server user defaultAccess].
      repeat split; try assumption. exists fi. auto.
    + destruct (os_IsNotExist err); discriminate.
  - intros ->. reflexivity.
Qed.

Lemma New_makes_clean_server_witness :
  (exists s st,
     New Demo.world Demo.ann "/srv//./" = Ok (s, st)
     /\ root s = "/srv" /\ user s = None)
  /\ New Demo.world Demo.ann "srv"
     = Fail (E [AOp "exp/filesystem.New"; AKind KInvalid;
                AText "root must be an absolute path"]).
Proof.
  destruct (New_makes_clean_server Demo.world Demo.ann "/srv//./") as [H _].
  destruct (New_makes_clean_server Demo.world Demo.ann "srv") as [_ H'].
  split.
  - assert (Hrun : New Demo.world Demo.ann "/srv//./" = Ok (Demo.srv, Demo.init)) by run.
    destruct (H _ _ Hrun) as (Hroot & _ & _ & _ & Hu & _).
    exists Demo.srv, Demo.init. split; [exact Hrun|]. split; [|exact Hu].
    rewrite Hroot. run.
  - apply H'. run.
Defined.

Lemma can_needs_Dial (w : World) (s : Server) (right : access.Right) (parsed : Parsed)
    (b : bool) :
  can w s right parsed = Ok b -> user s <> None.
Proof.
  unfold can. intros H Hu. rewrite Hu in H.
  destruct (whichAccess w s parsed) as [afn| |]; cbn [obind] in H; try discriminate.
  destruct (negb (String.eqb afn "")).
  - destruct (readFile w s afn) as [data| |]; cbn [obind] in H; try discriminate.
    destruct (access_Parse w afn data); cbn [obind] in H; discriminate.
  - cbn [obind] in H. discriminate.
Qed.

(** X2. Before [Dial], the store server answers every [Get] with the
    "must Dial before making request" error and leaves the state alone;
    the directory server has no such check: no access decision is ever
    reached, so that [Lookup], [WhichAccess] and the lister return no
    entry on a server that nobody has dialed. *)
Theorem requests_need_Dial (w : World) (s : Server) :
  user s = None ->
  (forall ref st,
     Get w s ref st = (Fail (E [AOp "store/filesystem.Get"; AErr errNotDialed]), st))
  /\ (forall right parsed b, can w s right parsed <> Ok b)
  /\ (forall pathName st l st', Lookup w s pathName st <> (Ok l, st'))
  /\ (forall pathName st l st', WhichAccess w s pathName st <> (Ok l, st'))
  /\ (forall depth name st entries st',
        listDir w s depth name st <> Some (entries, Ok tt, st')).
Proof.
  intros Hu.
  assert (Hcan : forall right parsed b, can w s right parsed <> Ok b).
  { intros right parsed b H. exact (can_needs_Dial w s right parsed b H Hu). }
  split; [|split; [exact Hcan|split; [|split]]].
  - intros ref st. unfold Get. rewrite Hu. reflexivity.
  - intros pathName st l st' H. apply Lookup_Ok in H.
    destruct H as (parsed & _ & _ & H & _). exact (Hcan _ _ _ H).
  - intros pathName st l st'. unfold WhichAccess. cbv zeta.
    unfold bindM at 1. unfold liftM at 1.
    destruct (path_Parse w pathName) as [parsed| |]; cbn [wrap]; try discriminate.
    unfold bindM at 1. unfold liftM at 1.
    destruct (verifyUserRoot s parsed) as [[]| |]; cbn [wrap]; try discriminate.
    unfold bindM at 1. unfold liftM at 1.
    destruct (can w s access.AnyRight parsed) as [b| |] eqn:H; cbn [wrap];
      try discriminate.
    exfalso. exact (Hcan _ _ _ H).
  - intros depth name st entries st'. unfold listDir.
    destruct (path_Parse w name) as [parsed| |]; try discriminate.
    destruct (can w s access.List parsed) as [b| |] eqn:H; try discriminate.
    exfalso. exact (Hcan _ _ _ H).
Qed.

Lemma requests_need_Dial_witness :
  Get Demo.world Demo.srv "/doc-0" Demo.init
    = (Fail (E [AOp "store/filesystem.Get"; AErr errNotDialed]), Demo.init)
  /\ can Demo.world Demo.srv access.Read Demo2.doc <> Ok true.
Proof.
  assert (Hu : user Demo.srv = None) by run.
  destruct (requests_need_Dial Demo.world Demo.srv Hu) as (H1 & H2 & _).
  split; [apply H1 | apply H2].
Defined.

Lemma whichAccess_loop_Dial (w : World) (s : Server) (cfg : Config) (parsed : Parsed)
    (k i : nat) :
  whichAccess_loop w (Dial s cfg) parsed k i = whichAccess_loop w s parsed k i.
Proof.
  revert i. induction k as [|k IH]; intros i; cbn [whichAccess_loop]; [reflexivity|].
  rewrite IH. reflexivity.
Qed.

(** X3. Which Access file governs a path, what a file holds and how a
    local name maps to a logical one do not depend on who has dialed:
    they are the same for every dialed copy of a server. *)
Theorem resolution_is_caller_independent (w : World) (s : Server) (cfg : Config) :
  (forall parsed, whichAccess w (Dial s cfg) parsed = whichAccess w s parsed)
  /\ (forall name, readFile w (Dial s cfg) name = readFile w s name)
  /\ (forall local, upspinPathFromLocal (Dial s cfg) local = upspinPathFromLocal s local).
Proof.
  split; [|split].
  - intros parsed. apply whichAccess_loop_Dial.
  - reflexivity.
  - reflexivity.
Qed.

(** ** What the directory server checks *)

(** X4. [Lookup] and [WhichAccess] serve the owner's tree only: for a
    name that parses to another user they fail with an [Invalid] error
    that carries the mismatched user name, whatever the file system and
    the policy hold, and leave the state as it was. *)
Theorem foreign_user_is_refused (w : World) (s : Server) (pathName : PathName)
    (parsed : Parsed) (st : State) :
  path_Parse w pathName = Ok parsed ->
  User parsed <> UserName (server s) ->
  Lookup w s pathName st
    = (Fail (E [AOp "dir/filesystem.Lookup";
                AErr (E [AKind KInvalid; APath (Path parsed);
                         AErr (Errorf "mismatched user name %q" [User parsed])])]), st)
  /\ WhichAccess w s pathName st
     = (Fail (E [AOp "dir/filesystem.WhichAccess";
                 AErr (E [AKind KInvalid; APath (Path parsed);
                          AErr (Errorf "mismatched user name %q" [User parsed])])]), st).
Proof.
  intros Hparse Hne. apply String.eqb_neq in Hne.
  unfold Lookup, WhichAccess, verifyUserRoot. cbv zeta.
  unfold bindM, liftM. rewrite Hparse. cbn [wrap]. rewrite Hne. cbn [negb wrap].
  split; reflexivity.
Qed.

Lemma foreign_user_is_refused_witness :
  Lookup Demo.world Demo.for_bob "bob@example.com/doc" Demo.init
    = (Fail (E [AOp "dir/filesystem.Lookup";
                AErr (E [AKind KInvalid; APath "bob@example.com/doc";
                         AErr (Errorf "mismatched user name %q" ["bob@example.com"])])]),
       Demo.init).
Proof.
  assert (Hparse : path_Parse Demo.world "bob@example.com/doc" = Ok Demo2.bobs_doc) by run.
  assert (Hne : User Demo2.bobs_doc <> UserName (server Demo.for_bob))
    by (vm_compute; discriminate).
  exact (proj1 (foreign_user_is_refused Demo.world Demo.for_bob _ _ Demo.init Hparse Hne)).
Defined.

(** X5. [Lookup] returns an entry only for a name of the owner on which
    the caller holds the list right, and the entry is then the one of
    the local file under the root; a caller without the list right gets
    the [Private] error and the cache is neither read nor changed. *)
Theorem Lookup_needs_list_right (w : World) (s : Server) (pathName : PathName) (st : State) :
  (forall l st',
     Lookup w s pathName st = (Ok l, st') ->
     exists parsed,
       path_Parse w pathName = Ok parsed
       /\ User parsed = UserName (server s)
       /\ can w s access.List parsed = Ok true
       /\ entry w s (filepath_Join (root s) (FilePath parsed)) st = (Ok l, st'))
  /\ (forall parsed,
        path_Parse w pathName = Ok parsed ->
        User parsed = UserName (server s) ->
        can w s access.List parsed = Ok false ->
        Lookup w s pathName st = (Fail (E [AOp "dir/filesystem.Lookup"; AKind KPrivate]), st)).
Proof.
  split.
  - intros l st' H. apply Lookup_Ok in H.
    destruct H as (parsed & Hp & Hv & Hc & He). exists parsed.
    repeat split; try assumption.
    unfold verifyUserRoot in Hv.
    destruct (String.eqb (User parsed) (UserName (server s))) eqn:E; [|discriminate].
    apply String.eqb_eq. exact E.
  - intros parsed Hp Hu Hc. apply String.eqb_eq in Hu.
    unfold Lookup, verifyUserRoot. cbv zeta. unfold bindM, liftM, failM.
    rewrite Hp. cbn [wrap]. rewrite Hu. cbn [negb wrap]. rewrite Hc. reflexivity.
Qed.

Lemma Lookup_needs_list_right_witness :
  (exists parsed,
     path_Parse Demo.world "ann@example.com/doc" = Ok parsed
     /\ User parsed = UserName (server Demo.for_ann)
     /\ can Demo.world Demo.for_ann access.List parsed = Ok true
     /\ entry Demo.world Demo.for_ann (filepath_Join (root Demo.for_ann) (FilePath parsed))
          Demo.init = (Ok 0%nat, Demo.after_doc))
  /\ Lookup Demo.world Demo.for_bob "ann@example.com/" Demo.after_doc
     = (Fail (E [AOp "dir/filesystem.Lookup"; AKind KPrivate]), Demo.after_doc).
Proof.
  split.
  - destruct (Lookup_needs_list_right Demo.world Demo.for_ann "ann@example.com/doc"
                Demo.init) as [H _].
    apply H. run.
  - destruct (Lookup_needs_list_right Demo.world Demo.for_bob "ann@example.com/"
                Demo.after_doc) as [_ H].
    apply (H {| User := Demo.owner; Elems := [] |}); run.
Defined.

(** ** What the store server returns *)

Lemma append_assoc (a b c : string) : (a +:+ b) +:+ c = a +:+ (b +:+ c).
Proof.
  induction a as [|x a IH]; [reflexivity|].
  change (String x ((a +:+ b) +:+ c) = String x (a +:+ (b +:+ c))).
  rewrite IH. reflexivity.
Qed.

Lemma Join_snoc (l : list string) (x sep : string) :
  l <> [] -> GoStrings.Join (l ++ [x]) sep = GoStrings.Join l sep +:+ sep +:+ x.
Proof.
  induction l as [|a l IH]; [contradiction|]. intros _.
  destruct l as [|b l]; [reflexivity|].
  change (GoStrings.Join ((a :: b :: l) ++ [x]) sep)
    with (a +:+ sep +:+ GoStrings.Join ((b :: l) ++ [x]) sep).
  rewrite IH by discriminate.
  change (GoStrings.Join (a :: b :: l) sep) with (a +:+ sep +:+ GoStrings.Join (b :: l) sep).
  rewrite !append_assoc. reflexivity.
Qed.

Lemma Split_with_sep (s : string) (sep : ascii) :
  GoStrings.contains_byte sep s = true ->
  GoStrings.but_last (GoStrings.Split s sep) <> [].
Proof.
  induction s as [|c s IH]; cbn [GoStrings.contains_byte GoStrings.Split];
    [discriminate|].
  rewrite Ascii.eqb_sym.
  pose proof (Split_nonempty sep s) as Hne.
  destruct (Ascii.eqb sep c) eqn:E; cbn [orb].
  - intros _. destruct (GoStrings.Split s sep); [contradiction | discriminate].
  - intros H. specialize (IH H).
    destruct (GoStrings.Split s sep) as [|x [|y l]]; [contradiction | | discriminate].
    exfalso. apply IH. reflexivity.
Qed.

(** The name that [Get] hands to [readFile] is the owner's name followed
    by the whole reference, if the reference holds a hyphen. *)
Lemma Get_name_with_hyphen (ref : string) :
  GoStrings.contains_byte "-" ref = true ->
  GoStrings.Join (GoStrings.but_last (GoStrings.Split ref "-")) "-"
  +:+ "-" +:+ GoStrings.last_elem (GoStrings.Split ref "-") = ref.
Proof.
  intros H. pose proof (Split_with_sep ref "-" H) as Hne.
  pose proof (Join_Split "-" ref) as HJ.
  pose proof (Split_nonempty "-" ref) as Hs.
  destruct (exists_last Hs) as (l & x & Hl). rewrite Hl in *.
  rewrite but_last_snoc in *. rewrite last_elem_snoc.
  rewrite Join_snoc in HJ by exact Hne. exact HJ.
Qed.

(** X6. [Get] leaves the shared state alone and returns data only after
    the checks: the caller has dialed, the owner's name followed by the
    reference without its last hyphen-delimited token parses, the caller
    holds the read right on it, and [readFile] has returned the data for
    that name followed by a hyphen and the last token. A caller who is
    denied the read right gets a permission error that names the path. *)
Theorem Get_returns_only_permitted_content (w : World) (s : Server) (ref : Reference)
    (st : State) :
  let splitRef := GoStrings.Split ref "-" in
  let pathName := UserName (server s) +:+ ""
                  +:+ GoStrings.Join (GoStrings.but_last splitRef) "-" in
  let offset := GoStrings.last_elem splitRef in
  snd (Get w s ref st) = st
  /\ (forall res,
        fst (Get w s ref st) = Ok res ->
        user s <> None
        /\ exists parsed data,
             path_Parse w pathName = Ok parsed
             /\ can w s access.Read parsed = Ok true
             /\ readFile w s (pathName +:+ "-" +:+ offset) = Ok data
             /\ res = (data,
                       {| rd_Reference := GoStrings.Join (GoStrings.but_last splitRef) "-";
                          Volatile := false; Duration := time_Minute |}, []))
  /\ (forall cfg parsed,
        user s = Some cfg ->
        path_Parse w pathName = Ok parsed ->
        can w s access.Read parsed = Ok false ->
        Get w s ref st
        = (Fail (E [AOp "store/filesystem.Get"; APath (Path parsed);
                    AErr access.ErrPermissionDenied]), st)).
Proof.
  cbv zeta. unfold Get. cbv zeta.
  destruct (user s) as [cfg|] eqn:Hu.
  2:{ split; [reflexivity|]. split; [discriminate|]. discriminate. }
  unfold bindM, liftM, failM, retM.
  destruct (path_Parse w _) as [parsed|err|] eqn:Hp; cbn [wrap fst snd].
  2,3: split; [reflexivity|]; split; discriminate.
  destruct (can w s access.Read parsed) as [[|]|err|] eqn:Hc; cbn [wrap negb fst snd].
  3,4: split; [reflexivity|]; split; [discriminate|];
       intros cfg' parsed' _ [= <-]; rewrite Hc; discriminate.
  - destruct (readFile w s _) as [data|err|] eqn:Hr; cbn [wrap fst snd].
    2,3: split; [reflexivity|]; split; [discriminate|];
         intros cfg' parsed' _ [= <-]; rewrite Hc; discriminate.
    split; [reflexivity|]. split.
    + intros res [= <-]. split; [discriminate|]. exists parsed, data. auto.
    + intros cfg' parsed' _ [= <-]. rewrite Hc. discriminate.
  - split; [reflexivity|]. split; [discriminate|].
    intros cfg' parsed' _ [= <-] _. reflexivity.
Qed.

Lemma Get_returns_only_permitted_content_witness :
  Get Demo.world Demo.for_bob "/doc-0" Demo.after_doc
    = (Fail (E [AOp "store/filesystem.Get"; APath "ann@example.com/doc";
                AErr access.ErrPermissionDenied]), Demo.after_doc)
  /\ can Demo.world Demo.for_ann access.Read Demo2.doc = Ok true.
Proof.
  split.
  - destruct (Get_returns_only_permitted_content Demo.world Demo.for_bob "/doc-0"
                Demo.after_doc) as (_ & _ & H).
    apply (H Demo.bob Demo2.doc); run.
  - destruct (Get_returns_only_permitted_content Demo.world Demo.for_ann "/doc-0"
                Demo.init) as (_ & H & _).
    assert (Hrun : fst (Get Demo.world Demo.for_ann "/doc-0" Demo.init)
                   = Ok ([Byte.x68; Byte.x65; Byte.x6c; Byte.x6c; Byte.x6f],
                         {| rd_Reference := "/doc"; Volatile := false;
                            Duration := time_Minute |}, [])) by run.
    destruct (H _ Hrun) as (_ & parsed & data & Hp & Hc & _).
    assert (Hd : Ok parsed = Ok Demo2.doc) by (rewrite <- Hp; run).
    injection Hd as <-. exact Hc.
Defined.

Lemma append_nil_r (a : string) : a +:+ "" = a.
Proof.
  induction a as [|x a IH]; [reflexivity|].
  change (String x (a +:+ "") = String x a). rewrite IH. reflexivity.
Qed.

(** X7. The right is checked on one name and the file is read under
    another. For a reference that holds a hyphen, the read right is asked
    for the owner's name followed by the reference without its last
    token, and [readFile] gets the owner's name followed by the whole
    reference. A reference without a hyphen is its own last token: the
    right is asked for the owner's bare name, and [readFile] gets the
    owner's name, a hyphen and the reference. In both cases a granted
    request returns what [readFile] returns, its error wrapped. *)
Theorem Get_checks_prefix_reads_whole (w : World) (s : Server) (ref : Reference)
    (st : State) (cfg : Config) (parsed : Parsed) :
  let checked := GoStrings.Join (GoStrings.but_last (GoStrings.Split ref "-")) "-" in
  let answer (name : PathName) :=
    match readFile w s name with
    | Ok data => Ok (data, {| rd_Reference := checked; Volatile := false;
                              Duration := time_Minute |}, [])
    | Fail err => Fail (E [AOp "store/filesystem.Get"; AErr err])
    | Panic => Panic
    end in
  user s = Some cfg ->
  can w s access.Read parsed = Ok true ->
  (GoStrings.contains_byte "-" ref = true ->
   path_Parse w (UserName (server s) +:+ checked) = Ok parsed ->
   Get w s ref st = (answer (UserName (server s) +:+ ref), st))
  /\ (GoStrings.contains_byte "-" ref = false ->
      path_Parse w (UserName (server s)) = Ok parsed ->
      checked = ""
      /\ Get w s ref st = (answer (UserName (server s) +:+ "-" +:+ ref), st)).
Proof.
  cbv zeta. intros Hu Hc.
  assert (HG : forall name,
             path_Parse w (UserName (server s) +:+ "" +:+
               GoStrings.Join (GoStrings.but_last (GoStrings.Split ref "-")) "-")
             = Ok parsed ->
             (UserName (server s) +:+ "" +:+
               GoStrings.Join (GoStrings.but_last (GoStrings.Split ref "-")) "-")
             +:+ "-" +:+ GoStrings.last_elem (GoStrings.Split ref "-") = name ->
             Get w s ref st
             = (match readFile w s name with
                | Ok data =>
                    Ok (data,
                        {| rd_Reference :=
                             GoStrings.Join (GoStrings.but_last (GoStrings.Split ref "-")) "-";
                           Volatile := false; Duration := time_Minute |}, [])
                | Fail err => Fail (E [AOp "store/filesystem.Get"; AErr err])
                | Panic => Panic
                end, st)).
  { intros name Hp <-. unfold Get. rewrite Hu. cbv zeta.
    unfold bindM, liftM, failM, retM. rewrite Hp. cbn [wrap]. rewrite Hc. cbn [wrap negb].
    destruct (readFile w s _); reflexivity. }
  split.
  - intros Hh Hp. apply HG; [exact Hp|].
    change (UserName (server s) +:+ "" +:+ ?x) with (UserName (server s) +:+ x).
    rewrite append_assoc, (Get_name_with_hyphen ref Hh). reflexivity.
  - intros Hh. rewrite (Split_without_sep "-" ref Hh).
    change (GoStrings.Join (GoStrings.but_last [ref]) "-") with "" in *.
    intros Hp. split; [reflexivity|].
    rewrite (Split_without_sep "-" ref Hh) in HG.
    change (GoStrings.Join (GoStrings.but_last [ref]) "-") with "" in HG.
    change (GoStrings.last_elem [ref]) with ref in HG.
    change (UserName (server s) +:+ "" +:+ "") with (UserName (server s) +:+ "") in HG.
    rewrite append_nil_r in HG. apply HG; [exact Hp | reflexivity].
Qed.

Lemma Get_checks_prefix_reads_whole_witness :
  Get Demo.world Demo.for_ann "/doc-0" Demo.init
    = (match readFile Demo.world Demo.for_ann "ann@example.com/doc-0" with
       | Ok data => Ok (data, {| rd_Reference := "/doc"; Volatile := false;
                                 Duration := time_Minute |}, [])
       | Fail err => Fail (E [AOp "store/filesystem.Get"; AErr err])
       | Panic => Panic
       end, Demo.init)
  /\ Get Demo.world Demo.for_ann "doc" Demo.init
     = (match readFile Demo.world Demo.for_ann "ann@example.com-doc" with
        | Ok data => Ok (data, {| rd_Reference := GoStrings.Join
                                    (GoStrings.but_last (GoStrings.Split "doc" "-")) "-";
                                  Volatile := false; Duration := time_Minute |}, [])
        | Fail err => Fail (E [AOp "store/filesystem.Get"; AErr err])
        | Panic => Panic
        end, Demo.init).
Proof.
  assert (Hu : user Demo.for_ann = Some Demo.ann) by run.
  assert (Hc : can Demo.world Demo.for_ann access.Read Demo2.doc = Ok true) by run.
  assert (Hc' : can Demo.world Demo.for_ann access.Read
                  {| User := Demo.owner; Elems := [] |} = Ok true) by run.
  split.
  - destruct (Get_checks_prefix_reads_whole Demo.world Demo.for_ann "/doc-0" Demo.init
                Demo.ann Demo2.doc Hu Hc) as [H _].
    apply H; run.
  - destruct (Get_checks_prefix_reads_whole Demo.world Demo.for_ann "doc" Demo.init
                Demo.ann {| User := Demo.owner; Elems := [] |} Hu Hc') as [_ H].
    apply H; run.
Defined.

(** ** Reading files *)

(** X8. [readFile] returns data exactly when the name parses, the local
    file under the root can be described, is no directory, is readable by
    others and [ioutil.ReadFile] returns that data; for a directory it
    fails with the [IsDir] error. *)
Theorem readFile_returns_file_content (w : World) (s : Server) (name : PathName) :
  (forall data,
     readFile w s name = Ok data <->
     exists parsed info,
       path_Parse w name = Ok parsed
       /\ os_Stat w (filepath_Join (root s) (FilePath parsed)) = Ok info
       /\ IsDir info = false
       /\ Z.land (Mode info) 4 <> 0
       /\ ioutil_ReadFile w (filepath_Join (root s) (FilePath parsed)) = Ok data)
  /\ (forall parsed info,
        path_Parse w name = Ok parsed ->
        os_Stat w (filepath_Join (root s) (FilePath parsed)) = Ok info ->
        IsDir info = true ->
        readFile w s name = Fail (E [AKind KIsDir; APath name])).
Proof.
  split.
  - intros data. unfold readFile. split.
    + destruct (path_Parse w name) as [parsed| |]; cbn [obind]; try discriminate.
      destruct (os_Stat w _) as [info| |] eqn:Hs; cbn [obind]; try discriminate.
      destruct (IsDir info) eqn:Hd; [discriminate|].
      destruct (Z.land (Mode info) 4 =? 0) eqn:Hm; [discriminate|].
      intros H. exists parsed, info. apply Z.eqb_neq in Hm. auto.
    + intros (parsed & info & -> & Hs & Hd & Hm & Hr). cbn [obind].
      rewrite Hs. cbn [obind]. rewrite Hd. apply Z.eqb_neq in Hm. rewrite Hm. exact Hr.
  - intros parsed info Hp Hs Hd. unfold readFile. rewrite Hp. cbn [obind].
    rewrite Hs. cbn [obind]. rewrite Hd. reflexivity.
Qed.

Lemma readFile_returns_file_content_witness :
  readFile Demo.world Demo.for_ann "ann@example.com/doc-0"
    = Ok [Byte.x68; Byte.x65; Byte.x6c; Byte.x6c; Byte.x6f]
  /\ readFile Demo.world Demo.for_ann "ann@example.com/pub"
     = Fail (E [AKind KIsDir; APath "ann@example.com/pub"]).
Proof.
  destruct (readFile_returns_file_content Demo.world Demo.for_ann "ann@example.com/doc-0")
    as [H _].
  destruct (readFile_returns_file_content Demo.world Demo.for_ann "ann@example.com/pub")
    as [_ H'].
  split.
  - apply H. exists {| User := Demo.owner; Elems := ["doc-0"] |}, Demo.doc_info.
    split; [run|]. split; [run|]. split; [run|]. split; [vm_compute; discriminate | run].
  - apply (H' Demo.pub (Demo.info Demo.dir_mode 60 0)); run.
Defined.

(** ** Evaluating a right *)

(** X9. [can] evaluates the right on the policy of the nearest Access
    file, parsed anew from what [readFile] returns for it, or on the
    server's default policy if the search finds none; the evaluator gets
    the caller's user name, the right, the path and [readFile] as the
    loader. *)
Theorem can_uses_nearest_policy (w : World) (s : Server) (right : access.Right)
    (parsed : Parsed) (u : Config) :
  user s = Some u ->
  (whichAccess w s parsed = Ok "" ->
   can w s right parsed
   = access_Can w (defaultAccess s) (UserName u) right (Path parsed) (readFile w s))
  /\ (forall afn data a,
        whichAccess w s parsed = Ok afn ->
        afn <> "" ->
        readFile w s afn = Ok data ->
        access_Parse w afn data = Ok a ->
        can w s right parsed
        = access_Can w a (UserName u) right (Path parsed) (readFile w s)).
Proof.
  intros Hu. unfold can. rewrite Hu. split.
  - intros ->. reflexivity.
  - intros afn data a -> Hne Hr Ha. cbn [obind].
    apply String.eqb_neq in Hne. rewrite Hne. cbn [negb].
    rewrite Hr. cbn [obind]. rewrite Ha. reflexivity.
Qed.

Lemma can_uses_nearest_policy_witness :
  can Demo.world Demo.for_bob access.Read Demo2.doc
    = access_Can Demo.world (defaultAccess Demo.for_bob) "bob@example.com" access.Read
        "ann@example.com/doc" (readFile Demo.world Demo.for_bob)
  /\ can Demo.world Demo.for_bob access.Read Demo2.pub_a
     = access_Can Demo.world
         {| access.acc_path := "ann@example.com/pub/Access";
            access.acc_data := [Byte.x72] |}
         "bob@example.com" access.Read "ann@example.com/pub/a.txt"
         (readFile Demo.world Demo.for_bob).
Proof.
  assert (Hu : user Demo.for_bob = Some Demo.bob) by run.
  split.
  - destruct (can_uses_nearest_policy Demo.world Demo.for_bob access.Read Demo2.doc
                Demo.bob Hu) as [H _].
    apply H. run.
  - destruct (can_uses_nearest_policy Demo.world Demo.for_bob access.Read Demo2.pub_a
                Demo.bob Hu) as [_ H].
    apply (H "ann@example.com/pub/Access" [Byte.x72]); try run.
    discriminate.
Defined.

(** X10. The Access file is read through [readFile], so that it must be
    readable by others on the host: under an Access file whose mode
    denies that, every check of every right fails with the "not
    world-readable" permission error, for every caller, the owner
    included, before the policy is looked at. *)
Theorem private_Access_file_locks_the_tree (w : World) (s : Server) (parsed : Parsed)
    (afn : PathName) (p : Parsed) (info : FileInfo) :
  whichAccess w s parsed = Ok afn ->
  afn <> "" ->
  path_Parse w afn = Ok p ->
  os_Stat w (filepath_Join (root s) (FilePath p)) = Ok info ->
  IsDir info = false ->
  Z.land (Mode info) 4 = 0 ->
  forall (cfg : Config) (right : access.Right),
    can w (Dial s cfg) right parsed
    = Fail (E [AKind KPermission; AText "not world-readable"; APath afn]).
Proof.
  intros Hw Hne Hp Hs Hd Hm cfg right. unfold can.
  unfold whichAccess in *. rewrite whichAccess_loop_Dial, Hw. cbn [obind].
  apply String.eqb_neq in Hne. rewrite Hne. cbn [negb].
  change (readFile w (Dial s cfg) afn) with (readFile w s afn).
  rewrite (readFile_not_world_readable w s afn p info Hp Hs Hd Hm). reflexivity.
Qed.

Lemma private_Access_file_locks_the_tree_witness :
  can Demo2.world_private_Access (Dial Demo.srv Demo.ann) access.List Demo2.pub_a
    = Fail (E [AKind KPermission; AText "not world-readable";
               APath "ann@example.com/pub/Access"]).
Proof.
  apply (private_Access_file_locks_the_tree Demo2.world_private_Access Demo.srv
           Demo2.pub_a "ann@example.com/pub/Access"
           {| User := Demo.owner; Elems := ["pub"; "Access"] |}
           (Demo.info Demo.private_mode 70 1)); try run.
  discriminate.
Defined.

Lemma Drop_0 (parsed : Parsed) : Drop parsed 0 = parsed.
Proof.
  destruct parsed as [u es]. unfold Drop. cbn [User Elems].
  rewrite Nat.sub_0_r, firstn_all. reflexivity.
Qed.

(** X11. A path whose local file cannot be described fails before any
    policy is consulted: the search for the Access file starts with
    [Stat] of the path itself, so [can] fails with the error of that call
    for every right and every caller, dialed or not, and [Lookup]
    returns it wrapped. A caller without any right thus learns that a
    path does not exist. *)
Theorem missing_path_fails_before_policy (w : World) (s : Server) (parsed : Parsed)
    (err : error) :
  os_Stat w (filepath_Join (root s) (FilePath parsed)) = Fail err ->
  (forall right, can w s right parsed = Fail err)
  /\ (forall pathName st,
        path_Parse w pathName = Ok parsed ->
        User parsed = UserName (server s) ->
        Lookup w s pathName st
        = (Fail (E [AOp "dir/filesystem.Lookup"; AErr err]), st)).
Proof.
  intros Hs.
  assert (Hw : whichAccess w s parsed = Fail err).
  { rewrite (whichAccess_arrives w s parsed 0) by (lia || (intros j Hj; lia)).
    unfold whichAccess_step, filepath_FromSlash. rewrite Drop_0, Hs. reflexivity. }
  assert (Hcan : forall right, can w s right parsed = Fail err).
  { intros right. unfold can. rewrite Hw. reflexivity. }
  split; [exact Hcan|].
  intros pathName st Hp Hu. apply String.eqb_eq in Hu.
  unfold Lookup, verifyUserRoot. cbv zeta. unfold bindM, liftM.
  rewrite Hp. cbn [wrap]. rewrite Hu. cbn [negb wrap]. rewrite Hcan. reflexivity.
Qed.

Lemma missing_path_fails_before_policy_witness :
  can Demo.world Demo.for_bob access.Read Demo2.nothing
    = Fail (PathError "stat" "/srv/nothing" ENOENT)
  /\ Lookup Demo.world Demo.for_bob "ann@example.com/nothing" Demo.init
     = (Fail (E [AOp "dir/filesystem.Lookup";
                 AErr (PathError "stat" "/srv/nothing" ENOENT)]), Demo.init).
Proof.
  assert (Hs : os_Stat Demo.world
                 (filepath_Join (root Demo.for_bob) (FilePath Demo2.nothing))
               = Fail (PathError "stat" "/srv/nothing" ENOENT)) by run.
  destruct (missing_path_fails_before_policy Demo.world Demo.for_bob Demo2.nothing _ Hs)
    as [H1 H2].
  split; [apply H1 | apply H2; run].
Defined.

(** ** What the search for the Access file has seen *)

Section WhichAccessSound.

Variables (w : World) (s : Server) (parsed : Parsed).

Lemma whichAccess_step_Ok (i : nat) (continue : outcome PathName) (afn : PathName) :
  whichAccess_step w s parsed i continue = Ok afn ->
  (no_Access_at w s parsed i /\ continue = Ok afn)
  \/ (Access_at w s parsed i /\ afn = candidate_logical parsed i).
Proof.
  unfold whichAccess_step, no_Access_at, Access_at.
  fold (candidate_dir s parsed i). fold (candidate_Access s parsed i).
  fold (candidate_logical parsed i).
  destruct (os_Stat w (candidate_dir s parsed i)) as [fi| |]; try discriminate.
  destruct (IsDir fi) eqn:Hd; cbn [negb].
  2:{ intros H. left. split; [|exact H]. exists fi. auto. }
  destruct (os_Stat w (candidate_Access s parsed i)) as [fa|err|] eqn:Ha; try discriminate.
  - destruct (Mode_IsRegular (Mode fa)) eqn:Hr; cbn [negb]; [|discriminate].
    destruct (os_Open w (candidate_Access s parsed i)) as [[]| |] eqn:Ho; try discriminate.
    intros [= <-]. right. split; [|reflexivity]. exists fi, fa. auto.
  - destruct (os_IsNotExist err) eqn:Hne; [|discriminate].
    intros H. left. split; [|exact H]. exists fi. split; [reflexivity|].
    right. exists err. auto.
Qed.

Lemma whichAccess_loop_Ok (k i : nat) (afn : PathName) :
  whichAccess_loop w s parsed k i = Ok afn ->
  (afn = "" /\ forall j, (i <= j < i + k)%nat -> no_Access_at w s parsed j)
  \/ exists n, (i <= n < i + k)%nat
               /\ (forall j, (i <= j < n)%nat -> no_Access_at w s parsed j)
               /\ Access_at w s parsed n
               /\ afn = candidate_logical parsed n.
Proof.
  revert i. induction k as [|k IH]; intros i; cbn [whichAccess_loop].
  - intros [= <-]. left. split; [reflexivity|]. intros j Hj. lia.
  - intros H. apply whichAccess_step_Ok in H as [[Hno Hk] | [Hat ->]].
    + destruct (IH _ Hk) as [[-> Hall] | (n & Hn & Hpass & Hat & ->)].
      * left. split; [reflexivity|]. intros j Hj.
        destruct (Nat.eq_dec j i) as [->|Hne]; [exact Hno | apply Hall; lia].
      * right. exists n. split; [lia|]. split; [|auto].
        intros j Hj. destruct (Nat.eq_dec j i) as [->|Hne]; [exact Hno | apply Hpass; lia].
    + right. exists i. split; [lia|]. split; [intros j Hj; lia | auto].
Qed.

End WhichAccessSound.

(** X12. What a successful search has seen. If [whichAccess] returns a
    name without an error, then either the name is empty and every
    candidate from the path up to the root could be described and held
    no Access file, or the name is the logical name of the Access file of
    one candidate: that candidate is a directory, its Access file is a
    regular file that could be opened, and every nearer candidate could
    be described and held no Access file. *)
Theorem whichAccess_result_is_nearest (w : World) (s : Server) (parsed : Parsed)
    (afn : PathName) :
  whichAccess w s parsed = Ok afn ->
  (afn = "" /\ forall j, (j <= NElem parsed)%nat -> no_Access_at w s parsed j)
  \/ exists i, (i <= NElem parsed)%nat
               /\ (forall j, (j < i)%nat -> no_Access_at w s parsed j)
               /\ Access_at w s parsed i
               /\ afn = candidate_logical parsed i.
Proof.
  intros H. apply whichAccess_loop_Ok in H as [[-> Hall] | (n & Hn & Hpass & Hat & ->)].
  - left. split; [reflexivity|]. intros j Hj. apply Hall. lia.
  - right. exists n. split; [lia|]. split; [|auto]. intros j Hj. apply Hpass. lia.
Qed.

Lemma whichAccess_result_is_nearest_witness :
  exists i, (i <= NElem Demo2.pub_a)%nat
            /\ (forall j, (j < i)%nat -> no_Access_at Demo.world Demo.for_bob Demo2.pub_a j)
            /\ Access_at Demo.world Demo.for_bob Demo2.pub_a i
            /\ "ann@example.com/pub/Access" = candidate_logical Demo2.pub_a i.
Proof.
  assert (Hrun : whichAccess Demo.world Demo.for_bob Demo2.pub_a
                 = Ok "ann@example.com/pub/Access") by run.
  destruct (whichAccess_result_is_nearest Demo.world Demo.for_bob Demo2.pub_a _ Hrun)
    as [[Hempty _] | H]; [discriminate | exact H].
Defined.

(** ** Local names and logical names *)

Section CleanPaths.
Import GoStrings GoPath.

Lemma Split_Join (sep : ascii) (cs : list string) :
  cs <> [] ->
  Forall (fun c => contains_byte sep c = false) cs ->
  Split (Join cs (String sep "")) sep = cs.
Proof.
  induction cs as [|c cs IH]; [contradiction|]. intros _ Hall.
  apply Forall_cons_1 in Hall as [Hc Hcs].
  destruct cs as [|d cs]; [exact (Split_without_sep sep c Hc)|].
  change (Join (c :: d :: cs) (String sep ""))
    with (c +:+ String sep (Join (d :: cs) (String sep ""))).
  rewrite Split_app, (Split_without_sep sep c Hc), IH by (discriminate || exact Hcs).
  reflexivity.
Qed.

Lemma Join_app (l l' : list string) (sep : string) :
  l <> [] -> l' <> [] -> Join (l ++ l') sep = Join l sep +:+ sep +:+ Join l' sep.
Proof.
  intros Hl Hl'. induction l as [|a l IH]; [contradiction|].
  destruct l as [|b l].
  - destruct l' as [|c l']; [contradiction | reflexivity].
  - change (Join ((a :: b :: l) ++ l') sep) with (a +:+ sep +:+ Join ((b :: l) ++ l') sep).
    rewrite IH by discriminate.
    change (Join (a :: b :: l) sep) with (a +:+ sep +:+ Join (b :: l) sep).
    rewrite !append_assoc. reflexivity.
Qed.

Lemma proper_elem_spec (c : string) :
  proper_elem c = true ->
  String.eqb c "" = false /\ String.eqb c "." = false /\ String.eqb c ".." = false
  /\ contains_byte "/" c = false.
Proof.
  unfold proper_elem. rewrite !andb_true_iff, !negb_true_iff. tauto.
Qed.

(** On empty and proper components [Clean]'s pass only drops the empty
    ones. *)
Lemma clean_components_proper (rooted : bool) (cs acc : list string) :
  Forall (fun c => c = "" \/ proper_elem c = true) cs ->
  clean_components rooted acc cs = rev acc ++ List.filter nonempty_elem cs.
Proof.
  revert acc. induction cs as [|c cs IH]; intros acc Hall; cbn [clean_components List.filter].
  - rewrite app_nil_r. reflexivity.
  - apply Forall_cons_1 in Hall as [Hc Hcs]. unfold nonempty_elem at 1.
    destruct Hc as [-> | Hc]; [exact (IH acc Hcs)|].
    apply proper_elem_spec in Hc as (H1 & H2 & H3 & _).
    rewrite H1, H2, H3. cbn [orb negb]. rewrite (IH (c :: acc) Hcs).
    cbn [rev]. rewrite <- app_assoc. reflexivity.
Qed.

Lemma filter_proper (cs : list string) :
  Forall (fun c => proper_elem c = true) cs -> List.filter nonempty_elem cs = cs.
Proof.
  induction 1 as [|c cs Hc _ IH]; [reflexivity|]. cbn [List.filter].
  apply proper_elem_spec in Hc as (H1 & _). unfold nonempty_elem at 1.
  rewrite H1, IH. reflexivity.
Qed.

(** [Clean] of a rooted path of empty and proper components. *)
Lemma Clean_rooted (cs : list string) :
  cs <> [] ->
  Forall (fun c => c = "" \/ proper_elem c = true) cs ->
  Clean (String "/" (Join cs "/")) = String "/" (Join (List.filter nonempty_elem cs) "/").
Proof.
  intros Hne Hall. unfold Clean.
  assert (Hp : HasPrefix (String "/" (Join cs "/")) "/" = true)
    by (unfold HasPrefix; cbn; destruct (Join cs "/"); reflexivity).
  rewrite Hp. cbv iota zeta.
  change (Split (String "/" (Join cs "/")) "/") with ("" :: Split (Join cs "/") "/").
  rewrite Split_Join.
  - rewrite clean_components_proper by (constructor; [left; reflexivity | exact Hall]).
    reflexivity.
  - exact Hne.
  - eapply Forall_impl; [exact Hall|]. intros c [-> | Hc]; [reflexivity|].
    apply proper_elem_spec in Hc. tauto.
Qed.

Lemma slice_from_app (a b : string) : slice_from (String.length a) (a +:+ b) = b.
Proof. induction a as [|x a IH]; [destruct b; reflexivity | exact IH]. Qed.

Lemma HasPrefix_app (a b : string) : HasPrefix (a +:+ b) a = true.
Proof.
  unfold HasPrefix. induction a as [|x a IH]; [destruct b; reflexivity|].
  change (String x a +:+ b) with (String x (a +:+ b)). cbn [String.prefix].
  destruct (ascii_dec x x); [exact IH | contradiction].
Qed.

(** The local name of a path of proper elements under a clean absolute
    root: the elements of the root, then those of the path. *)
Lemma filepath_Join_clean (rs es : list string) :
  Forall (fun c => proper_elem c = true) rs ->
  Forall (fun c => proper_elem c = true) es ->
  filepath_Join (String "/" (Join rs "/")) (Join es "/")
  = String "/" (Join (rs ++ es) "/").
Proof.
  intros Hrs Hes. unfold filepath_Join. cbn [JoinPath String.eqb]. cbv iota.
  set (rs' := match rs with [] => [""] | _ => rs end).
  set (es' := match es with [] => [""] | _ => es end).
  assert (Hr : Join rs "/" = Join rs' "/") by (destruct rs; reflexivity).
  assert (He : Join es "/" = Join es' "/") by (destruct es; reflexivity).
  assert (Hrne : rs' <> []) by (destruct rs; discriminate).
  assert (Hene : es' <> []) by (destruct es; discriminate).
  assert (Hfr : List.filter nonempty_elem rs' = rs)
    by (destruct rs; [reflexivity | exact (filter_proper _ Hrs)]).
  assert (Hfe : List.filter nonempty_elem es' = es)
    by (destruct es; [reflexivity | exact (filter_proper _ Hes)]).
  assert (Hall : forall l, Forall (fun c => proper_elem c = true) l ->
                 Forall (fun c => c = "" \/ proper_elem c = true)
                        (match l with [] => [""] | _ => l end)).
  { intros l Hl. destruct l; [constructor; [left; reflexivity | constructor]|].
    eapply Forall_impl; [exact Hl|]. intros c Hc. right. exact Hc. }
  change (Join [String "/" (Join rs "/"); Join es "/"] "/")
    with (String "/" (Join rs "/") +:+ "/" +:+ Join es "/").
  change (String "/" (Join rs "/") +:+ "/" +:+ Join es "/")
    with (String "/" (Join rs "/" +:+ "/" +:+ Join es "/")).
  rewrite Hr, He, <- (Join_app rs' es' "/" Hrne Hene).
  rewrite Clean_rooted.
  - rewrite List.filter_app, Hfr, Hfe. reflexivity.
  - destruct rs'; [contradiction | discriminate].
  - apply Forall_app. split; [exact (Hall rs Hrs) | exact (Hall es Hes)].
Qed.

End CleanPaths.

(** The local name of a path, and the logical name of that local name. *)
Lemma upspinPathFromLocal_Join (s : Server) (rs : list string) (parsed : Parsed) :
  root s = "/" +:+ GoStrings.Join rs "/" ->
  Forall (fun c => proper_elem c = true) rs ->
  Forall (fun c => proper_elem c = true) (Elems parsed) ->
  User parsed = UserName (server s) ->
  let local := filepath_Join (root s) (FilePath parsed) in
  GoStrings.HasPrefix local (root s) = true
  /\ (rs <> [] -> Elems parsed <> [] -> upspinPathFromLocal s local = Path parsed)
  /\ (rs <> [] -> Elems parsed = [] ->
      upspinPathFromLocal s local = UserName (server s) /\ Path parsed = UserName (server s) +:+ "/")
  /\ (rs = [] -> upspinPathFromLocal s local = UserName (server s) +:+ FilePath parsed).
Proof.
  intros Hroot Hrs Hes Hu. cbv zeta. unfold upspinPathFromLocal, Path, FilePath.
  rewrite Hroot, Hu.
  change ("/" +:+ GoStrings.Join rs "/") with (String "/" (GoStrings.Join rs "/")).
  rewrite (filepath_Join_clean rs (Elems parsed) Hrs Hes).
  destruct rs as [|r rs].
  - cbn [app]. split; [exact (HasPrefix_app "/" (GoStrings.Join (Elems parsed) "/"))|].
    split; [intros H; contradiction|].
    split; [intros H; contradiction|]. intros _. reflexivity.
  - destruct (Elems parsed) as [|e es] eqn:HE.
    + rewrite app_nil_r. split.
      * rewrite <- (append_nil_r (String "/" (GoStrings.Join (r :: rs) "/"))) at 1.
        apply HasPrefix_app.
      * split; [intros _ H; contradiction|]. split; [|discriminate].
        intros _ _. split; [|reflexivity].
        rewrite <- (append_nil_r (String "/" (GoStrings.Join (r :: rs) "/"))) at 2.
        rewrite slice_from_app. apply append_nil_r.
    + rewrite Join_app by discriminate.
      change (String "/" (GoStrings.Join (r :: rs) "/" +:+ "/" +:+ GoStrings.Join (e :: es) "/"))
        with (String "/" (GoStrings.Join (r :: rs) "/") +:+ "/" +:+ GoStrings.Join (e :: es) "/").
      split; [apply HasPrefix_app|]. split.
      * intros _ _. rewrite slice_from_app. reflexivity.
      * split; [intros _ H; discriminate | discriminate].
Qed.

(** X13. From a logical path to the local name and back. Let the root
    be clean and absolute, [/r1/.../rm] of proper elements, and let the
    path be the owner's, of proper elements. The local name that
    [Lookup], [listDir] and [readFile] build with [filepath.Join] begins
    with the root, as [entry] demands, and
    - for a root other than [/] and a path below the owner's root,
      [upspinPathFromLocal] gives the path back;
    - for the owner's root itself it gives the owner's name without the
      closing slash of the path;
    - under the root [/] it gives the owner's name followed by the
      elements without the slash between them. *)
Theorem local_name_round_trip (s : Server) (rs : list string) (parsed : Parsed) :
  root s = "/" +:+ GoStrings.Join rs "/" ->
  Forall (fun c => proper_elem c = true) rs ->
  Forall (fun c => proper_elem c = true) (Elems parsed) ->
  User parsed = UserName (server s) ->
  let local := filepath_Join (root s) (FilePath parsed) in
  GoStrings.HasPrefix local (root s) = true
  /\ (rs <> [] -> Elems parsed <> [] -> upspinPathFromLocal s local = Path parsed)
  /\ (rs <> [] -> Elems parsed = [] ->
      upspinPathFromLocal s local = UserName (server s) /\ Path parsed = UserName (server s) +:+ "/")
  /\ (rs = [] -> upspinPathFromLocal s local = UserName (server s) +:+ FilePath parsed).
Proof. exact (upspinPathFromLocal_Join s rs parsed). Qed.

Lemma local_name_round_trip_witness :
  upspinPathFromLocal Demo.for_bob (filepath_Join (root Demo.for_bob) (FilePath Demo2.pub_a))
    = "ann@example.com/pub/a.txt"
  /\ upspinPathFromLocal Demo.for_bob
       (filepath_Join (root Demo.for_bob) (FilePath {| User := Demo.owner; Elems := [] |}))
     = "ann@example.com".
Proof.
  assert (Hroot : root Demo.for_bob = "/" +:+ GoStrings.Join ["srv"] "/") by run.
  assert (Hrs : Forall (fun c => proper_elem c = true) ["srv"])
    by (repeat constructor).
  assert (Hes : Forall (fun c => proper_elem c = true) (Elems Demo2.pub_a))
    by (repeat constructor).
  assert (Hu : User Demo2.pub_a = UserName (server Demo.for_bob)) by run.
  split.
  - destruct (local_name_round_trip Demo.for_bob ["srv"] Demo2.pub_a Hroot Hrs Hes Hu)
      as (_ & H & _).
    apply H; discriminate.
  - destruct (local_name_round_trip Demo.for_bob ["srv"]
                {| User := Demo.owner; Elems := [] |} Hroot Hrs (List.Forall_nil _) Hu)
      as (_ & _ & H & _).
    apply H; [discriminate | reflexivity].
Defined.

(** ** The marshalled signature *)

Lemma PutBytes_fits (pre rest src : list Byte.byte) (n : nat) :
  n = length pre ->
  (length (pd_bytes src) <= length rest)%nat ->
  PutBytes (pre ++ rest) n src
  = Ok ((pre ++ pd_bytes src) ++ drop (length (pd_bytes src)) rest, length (pd_bytes src)).
Proof.
  intros -> Hfit. unfold PutBytes, pd_bytes in *. cbv zeta.
  rewrite length_app in Hfit.
  rewrite !length_app.
  replace (length pre + length rest - length pre)%nat with (length rest) by lia.
  destruct (Nat.ltb_spec (length rest) (length (varint_bytes (Z.of_nat (length src)))));
    [lia|].
  rewrite (take_ge src) by lia.
  rewrite take_app_length.
  rewrite <- Nat.add_assoc, drop_app_add.
  rewrite <- !app_assoc. reflexivity.
Qed.

(** Four fields that fit are written one after the other. *)
Lemma pdMarshal_fits (dst : list Byte.byte) (sig : Signature)
    (sig2 : option Signature) :
  (length (pd_encoding sig sig2) <= packdataLen)%nat ->
  pdMarshal dst sig sig2 = Ok (pd_encoding sig sig2).
Proof.
  unfold pdMarshal, pd_encoding. cbv zeta.
  set (s2 := match sig2 with None => {| sig_R := 0; sig_S := 0 |} | Some s => s end).
  set (buf := if (length dst <? packdataLen)%nat then repeat Byte.x00 packdataLen else dst).
  assert (Hbuf : (packdataLen <= length buf)%nat).
  { subst buf. destruct (Nat.ltb_spec (length dst) packdataLen); [|assumption].
    rewrite repeat_length. lia. }
  set (f1 := pd_field (sig_R sig)). set (f2 := pd_field (sig_S sig)).
  set (f3 := pd_field (sig_R s2)). set (f4 := pd_field (sig_S s2)).
  rewrite !length_app. intros Hfit.
  change (PutBytes buf 0 (big_Bytes (sig_R sig)))
    with (PutBytes ([] ++ buf) 0 (big_Bytes (sig_R sig))).
  rewrite (PutBytes_fits [] buf (big_Bytes (sig_R sig)) 0 eq_refl)
    by (fold (pd_field (sig_R sig)); fold f1; lia).
  fold (pd_field (sig_R sig)). fold f1. cbn [obind]. cbv beta iota.
  rewrite (PutBytes_fits ([] ++ f1) (drop (length f1) buf) (big_Bytes (sig_S sig)))
    by (reflexivity || (fold (pd_field (sig_S sig)); fold f2; rewrite length_drop; lia)).
  fold (pd_field (sig_S sig)). fold f2. cbn [obind]. cbv beta iota.
  rewrite (PutBytes_fits (([] ++ f1) ++ f2) (drop (length f2) (drop (length f1) buf))
             (big_Bytes (sig_R s2)))
    by ((rewrite !length_app; reflexivity)
        || (fold (pd_field (sig_R s2)); fold f3; rewrite !length_drop; lia)).
  fold (pd_field (sig_R s2)). fold f3. cbn [obind]. cbv beta iota.
  rewrite (PutBytes_fits ((([] ++ f1) ++ f2) ++ f3)
             (drop (length f3) (drop (length f2) (drop (length f1) buf)))
             (big_Bytes (sig_S s2)))
    by ((rewrite !length_app; reflexivity)
        || (fold (pd_field (sig_S s2)); fold f4; rewrite !length_drop; lia)).
  fold (pd_field (sig_S s2)). fold f4. cbn [obind]. cbv beta iota.
  f_equal. rewrite take_app_length' by (rewrite !length_app; reflexivity).
  cbn [app]. rewrite <- !app_assoc. reflexivity.
Qed.

Lemma uvarint_bytes_length (fuel : nat) (x : Z) :
  (1 <= length (uvarint_bytes fuel x) <= S fuel)%nat.
Proof.
  revert x. induction fuel as [|fuel IH]; intros x; cbn [uvarint_bytes].
  - cbn [length]. lia.
  - destruct (x <? 128); cbn [length]; [lia|]. specialize (IH (Z.shiftr x 7)). lia.
Qed.

(** The length of a slice of fewer than 8192 bytes takes two bytes at
    most. *)
Lemma varint_bytes_small (n : Z) :
  0 <= n < 8192 -> (length (varint_bytes n) <= 2)%nat.
Proof.
  intros Hn. unfold varint_bytes. cbv zeta.
  destruct (Z.ltb_spec n 0); [lia|].
  rewrite Z.mod_small by lia.
  change (uvarint_bytes 9 (n * 2))
    with (if n * 2 <? 128 then [byte_of_Z (n * 2)]
          else byte_of_Z (Z.lor (Z.land (n * 2) 255) 128)
               :: (if Z.shiftr (n * 2) 7 <? 128 then [byte_of_Z (Z.shiftr (n * 2) 7)]
                   else byte_of_Z (Z.lor (Z.land (Z.shiftr (n * 2) 7) 255) 128)
                        :: uvarint_bytes 7 (Z.shiftr (Z.shiftr (n * 2) 7) 7))).
  destruct (n * 2 <? 128); [cbn [length]; lia|].
  destruct (Z.ltb_spec (Z.shiftr (n * 2) 7) 128); [cbn [length]; lia|].
  exfalso. rewrite Z.shiftr_div_pow2 in H0 by lia.
  assert (n * 2 / 2 ^ 7 < 128) by (apply Z.div_lt_upper_bound; lia). lia.
Qed.

Lemma be_bytes_length (fuel : nat) :
  forall (k : nat) (n : Z) (acc : list Byte.byte),
    0 <= n < 2 ^ (8 * Z.of_nat k) ->
    (length (be_bytes fuel n acc) <= length acc + k)%nat.
Proof.
  induction fuel as [|fuel IH]; intros k n acc Hn; cbn [be_bytes]; [lia|].
  destruct (Z.eqb_spec n 0); [lia|].
  destruct k as [|k]; [change (2 ^ (8 * Z.of_nat 0)) with 1 in Hn; lia|].
  assert (Hs : 0 <= Z.shiftr n 8 < 2 ^ (8 * Z.of_nat k)).
  { rewrite Z.shiftr_div_pow2 by lia. split; [apply Z.div_pos; lia|].
    apply Z.div_lt_upper_bound; [lia|].
    rewrite <- Z.pow_add_r by lia.
    replace (8 + 8 * Z.of_nat k) with (8 * Z.of_nat (S k)) by lia. lia. }
  specialize (IH k (Z.shiftr n 8) (byte_of_Z (Z.land n 255) :: acc) Hs).
  cbn [length] in IH. lia.
Qed.

Lemma big_Bytes_length (x : Z) (k : nat) :
  Z.abs x < 2 ^ (8 * Z.of_nat k) -> (length (big_Bytes x) <= k)%nat.
Proof.
  intros Hx. unfold big_Bytes.
  pose proof (be_bytes_length (Z.to_nat (Z.log2 (Z.abs x)) + 1) k (Z.abs x) []) as H.
  cbn [length] in H. apply H. lia.
Qed.

Lemma pd_field_length (x : Z) :
  Z.abs x < 2 ^ (8 * Z.of_nat marshalBufLen) ->
  (length (pd_field x) <= 2 + marshalBufLen)%nat.
Proof.
  intros Hx. pose proof (big_Bytes_length x marshalBufLen Hx) as Hb.
  unfold pd_field, pd_bytes. rewrite length_app.
  assert (Hv : (length (varint_bytes (Z.of_nat (length (big_Bytes x)))) <= 2)%nat).
  { apply varint_bytes_small. unfold marshalBufLen in Hb. lia. }
  lia.
Qed.

(** X14. The format of the packdata. Whatever [*dst] held, if the four
    fields fit into [packdataLen] bytes, [pdMarshal] stores their
    concatenation and nothing else: for each of [sig.R], [sig.S],
    [sig2.R], [sig2.S] the length of its big-endian bytes as a varint,
    then the bytes; a missing second signature counts as zero. *)
Theorem pdMarshal_format (dst : list Byte.byte) (sig : Signature)
    (sig2 : option Signature) :
  (length (pd_encoding sig sig2) <= packdataLen)%nat ->
  pdMarshal dst sig sig2 = Ok (pd_encoding sig sig2).
Proof. exact (pdMarshal_fits dst sig sig2). Qed.

Lemma pdMarshal_format_witness :
  pdMarshal [] {| sig_R := 258; sig_S := 3 |} None
  = Ok [Byte.x04; Byte.x01; Byte.x02; Byte.x02; Byte.x03; Byte.x00; Byte.x00].
Proof.
  assert (H : (length (pd_encoding {| sig_R := 258; sig_S := 3 |} None) <= packdataLen)%nat)
    by (vm_compute; lia).
  exact (pdMarshal_format [] {| sig_R := 258; sig_S := 3 |} None H).
Defined.

(** X15. [packdataLen] is enough for the way the package calls
    [pdMarshal]: with one signature whose values take [marshalBufLen]
    bytes at most and no second signature, the call neither fails nor
    runs over the buffer, whatever [*dst] held; the packdata is the two
    fields followed by two zero bytes, five bytes short of the buffer
    at most. *)
Theorem packdataLen_holds_one_signature (dst : list Byte.byte) (sig : Signature) :
  Z.abs (sig_R sig) < 2 ^ (8 * Z.of_nat marshalBufLen) ->
  Z.abs (sig_S sig) < 2 ^ (8 * Z.of_nat marshalBufLen) ->
  pdMarshal dst sig None
  = Ok (pd_field (sig_R sig) ++ pd_field (sig_S sig) ++ [Byte.x00; Byte.x00])
  /\ (length (pd_field (sig_R sig) ++ pd_field (sig_S sig) ++ [Byte.x00; Byte.x00]) + 5
      <= packdataLen)%nat.
Proof.
  intros HR HS.
  pose proof (pd_field_length _ HR) as H1. pose proof (pd_field_length _ HS) as H2.
  assert (Henc : pd_encoding sig None
                 = pd_field (sig_R sig) ++ pd_field (sig_S sig) ++ [Byte.x00; Byte.x00])
    by reflexivity.
  assert (Hlen : (length (pd_encoding sig None) + 5 <= packdataLen)%nat).
  { rewrite Henc, !length_app. cbn [length]. unfold packdataLen, marshalBufLen in *.
    unfold binary_MaxVarintLen64. lia. }
  split.
  - rewrite <- Henc. apply pdMarshal_fits. lia.
  - rewrite <- Henc. exact Hlen.
Qed.

Lemma packdataLen_holds_one_signature_witness :
  pdMarshal [Byte.xff] {| sig_R := 2 ^ 527; sig_S := -1 |} None
  = Ok (pd_field (2 ^ 527) ++ pd_field (-1) ++ [Byte.x00; Byte.x00]).
Proof.
  assert (HR : Z.abs (sig_R {| sig_R := 2 ^ 527; sig_S := -1 |})
               < 2 ^ (8 * Z.of_nat marshalBufLen)) by (vm_compute; reflexivity).
  assert (HS : Z.abs (sig_S {| sig_R := 2 ^ 527; sig_S := -1 |})
               < 2 ^ (8 * Z.of_nat marshalBufLen)) by (vm_compute; reflexivity).
  exact (proj1 (packdataLen_holds_one_signature [Byte.xff]
                  {| sig_R := 2 ^ 527; sig_S := -1 |} HR HS)).
Defined.

(** ** Signing an entry *)

(** X16. [simplePack] touches nothing but [entry.Packdata]: after a
    successful call every other field is as before, and the packdata is
    what [pdMarshal] makes of the signature that the factotum of the
    configuration gives for the entry's hash with zero [dkey] and [sum].
    An error of [simplePack] is always the error of the signer. A
    configuration without a factotum makes the call panic. *)
Theorem simplePack_only_sets_Packdata (w : World) (cfg : Config) (e : DirEntry) :
  (forall e',
     simplePack w cfg e = Ok e' ->
     e' = set_Packdata e (Packdata e')
     /\ exists f sig,
          Factotum cfg = Some f
          /\ FileSign w f (entry_digest w f e) = Ok sig
          /\ pdMarshal (Packdata e) sig None = Ok (Packdata e'))
  /\ (forall err,
        simplePack w cfg e = Fail err ->
        exists f,
          Factotum cfg = Some f
          /\ FileSign w f (entry_digest w f e) = Fail err)
  /\ (Factotum cfg = None -> simplePack w cfg e = Panic).
Proof.
  unfold simplePack, entry_digest, factotum_of. cbv zeta.
  destruct (Factotum cfg) as [f|]; cbn [obind].
  2:{ split; [discriminate|]. split; [discriminate | reflexivity]. }
  destruct (FileSign w f _) as [sig|err|] eqn:Hs; cbn [obind].
  - destruct (pdMarshal (Packdata e) sig None) as [pd|err|] eqn:Hpd; cbn [obind].
    + split; [|split; discriminate]. intros e' [= <-]. split; [reflexivity|].
      exists f, sig. auto.
    + exfalso. exact (pdMarshal_no_error _ _ _ _ Hpd).
    + split; [discriminate|]. split; discriminate.
  - split; [discriminate|]. split; [|discriminate].
    intros err' [= <-]. exists f. auto.
  - split; [discriminate|]. split; discriminate.
Qed.

Lemma simplePack_only_sets_Packdata_witness :
  Demo.doc_entry
  = set_Packdata (set_Blocks (bare_entry Demo.for_ann "/srv/doc" Demo.doc_info)
                    [file_block Demo.for_ann "/srv/doc" Demo.doc_info 0])
      (Packdata Demo.doc_entry).
Proof.
  assert (Hrun : simplePack Demo.world Demo.ann
                   (set_Blocks (bare_entry Demo.for_ann "/srv/doc" Demo.doc_info)
                      [file_block Demo.for_ann "/srv/doc" Demo.doc_info 0])
                 = Ok Demo.doc_entry) by run.
  destruct (simplePack_only_sets_Packdata Demo.world Demo.ann
              (set_Blocks (bare_entry Demo.for_ann "/srv/doc" Demo.doc_info)
                 [file_block Demo.for_ann "/srv/doc" Demo.doc_info 0])) as [H _].
  exact (proj1 (H Demo.doc_entry Hrun)).
Defined.

(** X17. The signing that [entry] does in line for a file is
    [simplePack]: when the cache has no entry of the file's modification
    time, what the call allocates and caches is what [simplePack], run
    for the caller, makes of the unsigned entry with its one block, and
    the call fails as [simplePack] does. *)
Theorem entry_signs_like_simplePack (w : World) (s : Server) (file : string)
    (info : FileInfo) (u : Config) (offs : Z) (st : State) :
  GoStrings.HasPrefix file (root s) = true ->
  os_Stat w file = Ok info ->
  IsDir info = false ->
  user s = Some u ->
  LRU.peek (dirEntries st) file = None \/ cached_stale st file (TimeFromGo (ModTime info)) ->
  DirEntry_Size w (bare_entry s file info) = Ok offs ->
  entry w s file st
  = match simplePack w u (set_Blocks (bare_entry s file info)
                            [file_block s file info offs]) with
    | Ok d =>
        (Ok (length (heap st)),
         {| heap := heap st ++ [d];
            dirEntries := LRU.Add (LRU.Remove (dirEntries st) file) file
                            (length (heap st)) |})
    | Fail err => (Fail err, with_cache st (LRU.Remove (dirEntries st) file))
    | Panic => (Panic, with_cache st (LRU.Remove (dirEntries st) file))
    end.
Proof.
  intros Hpre Hstat Hdir Hu Hcache Hsize.
  rewrite (entry_file_rebuild w s file info Hpre Hstat st Hdir Hcache). cbv zeta.
  rewrite Hsize, Hu. unfold simplePack, entry_digest, factotum_of. cbv zeta.
  destruct (Factotum u) as [f|]; cbn [obind]; [|reflexivity].
  destruct (FileSign w f _) as [sig| |]; cbn [obind]; try reflexivity.
  change (Packdata (set_Blocks (bare_entry s file info) [file_block s file info offs]))
    with (@nil Byte.byte).
  destruct (pdMarshal [] sig None) as [pd| |]; cbn [obind]; reflexivity.
Qed.

Lemma entry_signs_like_simplePack_witness :
  entry Demo.world Demo.for_ann "/srv/doc" Demo.init
  = match simplePack Demo.world Demo.ann
            (set_Blocks (bare_entry Demo.for_ann "/srv/doc" Demo.doc_info)
               [file_block Demo.for_ann "/srv/doc" Demo.doc_info 0]) with
    | Ok d =>
        (Ok (length (heap Demo.init)),
         {| heap := heap Demo.init ++ [d];
            dirEntries := LRU.Add (LRU.Remove (dirEntries Demo.init) "/srv/doc")
                            "/srv/doc" (length (heap Demo.init)) |})
    | Fail err => (Fail err, with_cache Demo.init
                               (LRU.Remove (dirEntries Demo.init) "/srv/doc"))
    | Panic => (Panic, with_cache Demo.init
                         (LRU.Remove (dirEntries Demo.init) "/srv/doc"))
    end.
Proof.
  assert (Hpre : GoStrings.HasPrefix "/srv/doc" (root Demo.for_ann) = true) by run.
  assert (Hstat : os_Stat Demo.world "/srv/doc" = Ok Demo.doc_info) by run.
  assert (Hdir : IsDir Demo.doc_info = false) by run.
  assert (Hu : user Demo.for_ann = Some Demo.ann) by run.
  assert (Hpeek : LRU.peek (dirEntries Demo.init) "/srv/doc" = None) by run.
  assert (Hsize : DirEntry_Size Demo.world (bare_entry Demo.for_ann "/srv/doc" Demo.doc_info)
                  = Ok 0) by run.
  exact (entry_signs_like_simplePack Demo.world Demo.for_ann "/srv/doc" Demo.doc_info
           Demo.ann 0 Demo.init Hpre Hstat Hdir Hu (or_introl Hpeek) Hsize).
Defined.

(** ** What [Lookup] returns *)

(** X18. [Lookup] names the entry after the path. Under a clean absolute
    root other than [/], with a cache that holds entries under their own
    names, the entry that a successful [Lookup] returns for a path of
    proper elements carries that path as its name; for the owner's root
    it carries the owner's name without the closing slash. The cache
    holds entries under their own names afterwards. *)
Theorem Lookup_names_the_path (w : World) (s : Server) (rs : list string)
    (pathName : PathName) (st st' : State) (l : nat) :
  root s = "/" +:+ GoStrings.Join rs "/" ->
  rs <> [] ->
  Forall (fun c => proper_elem c = true) rs ->
  cache_names s st ->
  Lookup w s pathName st = (Ok l, st') ->
  exists parsed e,
    path_Parse w pathName = Ok parsed
    /\ heap st' !! l = Some e
    /\ (Forall (fun c => proper_elem c = true) (Elems parsed) ->
        (Elems parsed <> [] -> Name e = Path parsed)
        /\ (Elems parsed = [] -> Name e = UserName (server s)))
    /\ cache_names s st'.
Proof.
  intros Hroot Hne Hrs Hinv HL.
  apply Lookup_Ok in HL as (parsed & Hp & Hv & _ & He).
  pose proof (entry_spec w s _ st st' (Ok l) Hinv He) as (Hinv' & _ & e & Hl & Hname).
  exists parsed, e. split; [exact Hp|]. split; [exact Hl|]. split; [|exact Hinv'].
  intros Hes.
  assert (Hu : User parsed = UserName (server s)).
  { unfold verifyUserRoot in Hv.
    destruct (String.eqb (User parsed) (UserName (server s))) eqn:E; [|discriminate].
    apply String.eqb_eq. exact E. }
  destruct (upspinPathFromLocal_Join s rs parsed Hroot Hrs Hes Hu) as (_ & H1 & H2 & _).
  rewrite Hname. split.
  - intros H. exact (H1 Hne H).
  - intros H. exact (proj1 (H2 Hne H)).
Qed.

Lemma Lookup_names_the_path_witness :
  exists parsed e,
    path_Parse Demo.world "ann@example.com/doc" = Ok parsed
    /\ heap Demo.after_doc !! 0%nat = Some e
    /\ (Forall (fun c => proper_elem c = true) (Elems parsed) ->
        (Elems parsed <> [] -> Name e = Path parsed)
        /\ (Elems parsed = [] -> Name e = UserName (server Demo.for_ann)))
    /\ cache_names Demo.for_ann Demo.after_doc.
Proof.
  assert (Hroot : root Demo.for_ann = "/" +:+ GoStrings.Join ["srv"] "/") by run.
  assert (Hne : ["srv"] <> []) by discriminate.
  assert (Hrs : Forall (fun c => proper_elem c = true) ["srv"]) by (repeat constructor).
  assert (Hinv : cache_names Demo.for_ann Demo.init).
  { intros f l' H. vm_compute in H. discriminate. }
  assert (Hrun : Lookup Demo.world Demo.for_ann "ann@example.com/doc" Demo.init
                 = (Ok 0%nat, Demo.after_doc)) by run.
  exact (Lookup_names_the_path Demo.world Demo.for_ann ["srv"] "ann@example.com/doc"
           Demo.init Demo.after_doc 0 Hroot Hne Hrs Hinv Hrun).
Defined.

(** ** [WhichAccess] under an absolute root *)

Section RelativePaths.
Import GoStrings GoPath.

Lemma Split_no_sep (sep : ascii) (s : string) :
  Forall (fun c => contains_byte sep c = false) (Split s sep).
Proof.
  induction s as [|c s IH]; cbn [Split].
  - repeat constructor.
  - destruct (Ascii.eqb c sep) eqn:E; [constructor; [reflexivity | exact IH]|].
    destruct (Split s sep) as [|x l].
    + repeat constructor. cbn [contains_byte]. rewrite E. reflexivity.
    + apply Forall_cons_1 in IH as [Hx Hl]. constructor; [|exact Hl].
      cbn [contains_byte]. rewrite E, Hx. reflexivity.
Qed.

Lemma clean_components_elems (rooted : bool) (cs acc : list string) :
  Forall (fun c => clean_elem c = true) acc ->
  Forall (fun c => contains_byte "/" c = false) cs ->
  Forall (fun c => clean_elem c = true) (clean_components rooted acc cs).
Proof.
  revert acc. induction cs as [|c cs IH]; intros acc Hacc Hcs; cbn [clean_components].
  - apply Forall_rev. exact Hacc.
  - apply Forall_cons_1 in Hcs as [Hc Hcs].
    destruct (String.eqb c "") eqn:E0; cbn [orb]; [exact (IH acc Hacc Hcs)|].
    destruct (String.eqb c "."); [exact (IH acc Hacc Hcs)|].
    assert (Hce : clean_elem c = true) by (unfold clean_elem; rewrite E0, Hc; reflexivity).
    destruct (String.eqb c "..").
    + destruct acc as [|top acc'].
      * destruct rooted; apply IH; try assumption. repeat constructor. exact Hce.
      * destruct (String.eqb top "..").
        -- apply IH; [constructor; assumption | assumption].
        -- apply Forall_cons_1 in Hacc as [_ Hacc']. exact (IH acc' Hacc' Hcs).
    + apply IH; [constructor; assumption | assumption].
Qed.

Lemma clean_elem_head (c : string) :
  clean_elem c = true -> exists a c', c = String a c' /\ Ascii.eqb a "/" = false.
Proof.
  unfold clean_elem. destruct c as [|a c']; [discriminate|]. cbn [String.eqb negb andb].
  cbn [contains_byte]. intros H. apply negb_true_iff, orb_false_iff in H as [H _].
  eauto.
Qed.

Lemma HasPrefix_slash_head (a : ascii) (x : string) :
  Ascii.eqb a "/" = false -> HasPrefix (String a x) "/" = false.
Proof.
  intros H. unfold HasPrefix. cbn [String.prefix].
  destruct (ascii_dec "/" a) as [<-|]; [|reflexivity].
  rewrite Ascii.eqb_refl in H. discriminate.
Qed.

Lemma Join_relative (cs : list string) :
  Forall (fun c => clean_elem c = true) cs -> HasPrefix (Join cs "/") "/" = false.
Proof.
  destruct cs as [|c cs]; [reflexivity|]. intros H.
  apply Forall_cons_1 in H as [Hc _].
  apply clean_elem_head in Hc as (a & c' & -> & Ha).
  destruct cs; [exact (HasPrefix_slash_head a c' Ha)|].
  exact (HasPrefix_slash_head a _ Ha).
Qed.

(** [Clean] keeps a relative path relative. *)
Lemma Clean_relative (p : string) :
  HasPrefix p "/" = false -> HasPrefix (Clean p) "/" = false.
Proof.
  intros H. unfold Clean. rewrite H. cbv zeta iota.
  destruct (String.eqb _ ""); [reflexivity|].
  apply Join_relative, clean_components_elems; [constructor | apply Split_no_sep].
Qed.

Lemma HasPrefix_app_relative (a b : string) :
  a <> "" -> HasPrefix a "/" = false -> HasPrefix (a +:+ b) "/" = false.
Proof.
  destruct a as [|x a]; [contradiction|]. intros _ H.
  change (String x a +:+ b) with (String x (a +:+ b)).
  unfold HasPrefix in *. cbn [String.prefix] in *.
  destruct (ascii_dec "/" x); [|reflexivity].
  destruct a; discriminate.
Qed.

(** The logical name of an Access file does not begin with a slash. *)
Lemma candidate_logical_relative (parsed : Parsed) (i : nat) :
  User parsed <> "" -> HasPrefix (User parsed) "/" = false ->
  HasPrefix (candidate_logical parsed i) "/" = false.
Proof.
  intros Hne Hrel. unfold candidate_logical, gPath_Join, Parsed_String, Path.
  cbn [JoinPath User Drop].
  destruct (String.eqb _ "") eqn:E.
  - cbn [String.eqb]. cbv iota. apply Clean_relative. reflexivity.
  - apply Clean_relative.
    change (Join [User parsed +:+ "/" +:+ FilePath (Drop parsed i); "Access"] "/")
      with ((User parsed +:+ "/" +:+ FilePath (Drop parsed i)) +:+ "/" +:+ "Access").
    rewrite append_assoc. apply HasPrefix_app_relative; assumption.
Qed.

Lemma HasPrefix_absolute (r x : string) :
  HasPrefix r "/" = true -> HasPrefix x r = true -> HasPrefix x "/" = true.
Proof.
  unfold HasPrefix. destruct r as [|a r]; [discriminate|]. cbn [String.prefix].
  destruct (ascii_dec "/" a) as [<-|]; [|discriminate]. intros _.
  destruct x as [|b x]; [discriminate|]. cbn [String.prefix].
  destruct (ascii_dec "/" b); [|discriminate]. intros _. destruct x; reflexivity.
Qed.

End RelativePaths.

Lemma WhichAccess_Ok (w : World) (s : Server) (pathName : PathName) (st st' : State)
    (l : nat) :
  WhichAccess w s pathName st = (Ok l, st') ->
  exists parsed accessPath,
    path_Parse w pathName = Ok parsed
    /\ verifyUserRoot s parsed = Ok tt
    /\ can w s access.AnyRight parsed = Ok true
    /\ whichAccess w s parsed = Ok accessPath
    /\ entry w s accessPath st = (Ok l, st').
Proof.
  unfold WhichAccess. cbv zeta.
  unfold bindM at 1. unfold liftM at 1.
  destruct (path_Parse w pathName) as [parsed| |] eqn:Hparse; cbn [wrap]; try discriminate.
  unfold bindM at 1. unfold liftM at 1.
  destruct (verifyUserRoot s parsed) as [[]| |] eqn:Hv; cbn [wrap]; try discriminate.
  unfold bindM at 1. unfold liftM at 1.
  destruct (can w s access.AnyRight parsed) as [[|]| |] eqn:Hc; cbn [wrap negb];
    try discriminate.
  unfold bindM at 1. unfold liftM at 1.
  destruct (whichAccess w s parsed) as [accessPath| |] eqn:Hwhich; cbn [wrap];
    try discriminate.
  intros H. apply wrapM_Ok in H. exists parsed, accessPath. auto.
Qed.

(** X19. Under an absolute root, which is the only kind [New] accepts,
    [WhichAccess] never returns an entry. It hands [entry] the logical
    name that [whichAccess] found, or the empty name; neither begins
    with the root, so that [entry] answers "not in root". The owner's
    name is taken to be non-empty and not to begin with a slash. *)
Theorem WhichAccess_never_answers (w : World) (s : Server) :
  filepath_IsAbs (root s) = true ->
  UserName (server s) <> "" ->
  GoStrings.HasPrefix (UserName (server s)) "/" = false ->
  forall (pathName : PathName) (st st' : State) (l : nat),
    WhichAccess w s pathName st <> (Ok l, st').
Proof.
  intros Habs Hne Hrel pathName st st' l H.
  apply WhichAccess_Ok in H as (parsed & accessPath & _ & Hv & _ & Hw & He).
  assert (Hu : User parsed = UserName (server s)).
  { unfold verifyUserRoot in Hv.
    destruct (String.eqb (User parsed) (UserName (server s))) eqn:E; [|discriminate].
    apply String.eqb_eq. exact E. }
  assert (Hout : GoStrings.HasPrefix accessPath "/" = false).
  { apply whichAccess_loop_Ok in Hw as [[-> _] | (n & _ & _ & _ & ->)]; [reflexivity|].
    apply candidate_logical_relative; rewrite Hu; assumption. }
  destruct (GoStrings.HasPrefix accessPath (root s)) eqn:Hpre.
  - rewrite (HasPrefix_absolute (root s) accessPath Habs Hpre) in Hout. discriminate.
  - rewrite (entry_not_in_root w s accessPath st Hpre) in He. discriminate.
Qed.

Lemma WhichAccess_never_answers_witness :
  WhichAccess Demo.world Demo.for_ann "ann@example.com/pub/a.txt" Demo.init
  <> (Ok 0%nat, Demo.init).
Proof.
  assert (Habs : filepath_IsAbs (root Demo.for_ann) = true) by run.
  assert (Hne : UserName (server Demo.for_ann) <> "") by discriminate.
  assert (Hrel : GoStrings.HasPrefix (UserName (server Demo.for_ann)) "/" = false) by run.
  exact (WhichAccess_never_answers Demo.world Demo.for_ann Habs Hne Hrel
           "ann@example.com/pub/a.txt" Demo.init Demo.init 0).
Defined.

(** ** Listing what is no directory *)

(** X20. What [listDir] returns when the path is no directory that can
    be read, for a caller with the list right. If [Lstat] of the local
    name fails, or reading the names of the directory fails, the listing
    returns that error and no entry; if the local file is no directory,
    the listing returns no entry and no error. The state is as before
    in each case. *)
Theorem listDir_of_no_directory (w : World) (s : Server) (name : PathName)
    (parsed : Parsed) (st : State) :
  path_Parse w name = Ok parsed ->
  can w s access.List parsed = Ok true ->
  let dir := filepath_Join (root s) (FilePath parsed) in
  (forall err depth,
     os_Lstat w dir = Fail err ->
     listDir w s depth name st = Some ([], Fail err, st))
  /\ (forall info depth,
        os_Lstat w dir = Ok info -> IsDir info = false ->
        listDir w s (S depth) name st = Some ([], Ok tt, st))
  /\ (forall info err depth,
        os_Lstat w dir = Ok info -> IsDir info = true ->
        readDirNames w dir = Fail err ->
        listDir w s (S depth) name st = Some ([], Fail err, st)).
Proof.
  intros Hp Hc. cbv zeta. unfold listDir. rewrite Hp, Hc.
  set (dir := filepath_Join (root s) (FilePath parsed)).
  split; [|split].
  - intros err depth Hl. unfold Walk. rewrite Hl, listDir_walk_err.
    pose proof (os_call_not_skip _ _ _ _ Hl) as Hns. unfold is_skip in Hns.
    rewrite Hns. reflexivity.
  - intros info depth Hl Hd. unfold Walk. rewrite Hl, walk_unfold, Hd. cbn [negb].
    rewrite listDir_walk_root. reflexivity.
  - intros info err depth Hl Hd Hr. unfold Walk. rewrite Hl, walk_unfold, Hd, Hr.
    cbn [negb]. rewrite listDir_walk_err.
    pose proof (os_call_not_skip _ _ _ _ Hr) as Hns. unfold is_skip in Hns.
    rewrite Hns. reflexivity.
Qed.

Lemma listDir_of_no_directory_witness :
  listDir Demo.world Demo.for_ann 1 "ann@example.com/doc" Demo.init
  = Some ([], Ok tt, Demo.init).
Proof.
  assert (Hp : path_Parse Demo.world "ann@example.com/doc" = Ok Demo2.doc) by run.
  assert (Hc : can Demo.world Demo.for_ann access.List Demo2.doc = Ok true) by run.
  destruct (listDir_of_no_directory Demo.world Demo.for_ann "ann@example.com/doc"
              Demo2.doc Demo.init Hp Hc) as (_ & H & _).
  apply (H Demo.doc_info 0%nat); run.
Defined.

(** ** The shared state stays in order *)

Section LRUOrder.

Context {V : Type}.
Implicit Types (c : LRU.t V) (l : list (string * V)) (k : string) (v : V).

Lemma remove_key_keys k k' l :
  In k' (List.map fst (LRU.remove_key k l)) -> In k' (List.map fst l) /\ k' <> k.
Proof.
  induction l as [|[k0 v0] l IH]; cbn [LRU.remove_key List.map fst]; [contradiction|].
  destruct (String.eqb k0 k) eqn:E.
  - intros H. destruct (IH H). split; [right|]; assumption.
  - cbn [List.map fst]. intros [<- | H].
    + split; [left; reflexivity|]. apply String.eqb_neq. exact E.
    + destruct (IH H). split; [right|]; assumption.
Qed.

Lemma NoDup_remove_key k l :
  NoDup (List.map fst l) -> NoDup (List.map fst (LRU.remove_key k l)).
Proof.
  induction l as [|[k0 v0] l IH]; cbn [LRU.remove_key List.map fst]; [auto|].
  intros H. apply NoDup_cons in H as [Hk0 Hl].
  destruct (String.eqb k0 k); [exact (IH Hl)|].
  cbn [List.map fst]. apply NoDup_cons. split; [|exact (IH Hl)].
  intros Hin. apply list_elem_of_In, remove_key_keys in Hin as [Hin _].
  apply Hk0, list_elem_of_In. exact Hin.
Qed.

Lemma length_remove_key k l : (length (LRU.remove_key k l) <= length l)%nat.
Proof.
  induction l as [|[k0 v0] l IH]; cbn [LRU.remove_key length]; [lia|].
  destruct (String.eqb k0 k); cbn [length]; lia.
Qed.

Lemma length_remove_key_found k v l :
  LRU.find k l = Some v -> (S (length (LRU.remove_key k l)) <= length l)%nat.
Proof.
  induction l as [|[k0 v0] l IH]; cbn [LRU.find LRU.remove_key length]; [discriminate|].
  destruct (String.eqb k0 k).
  - intros _. pose proof (length_remove_key k l). lia.
  - intros H. specialize (IH H). cbn [length]. lia.
Qed.

Lemma find_None_keys k l : LRU.find k l = None -> ~ In k (List.map fst l).
Proof.
  induction l as [|[k0 v0] l IH]; cbn [LRU.find List.map fst]; [auto|].
  destruct (String.eqb k0 k) eqn:E; [discriminate|].
  intros H [-> | Hin]; [rewrite String.eqb_refl in E; discriminate | exact (IH H Hin)].
Qed.

Lemma NoDup_removelast (ks : list string) : NoDup ks -> NoDup (removelast ks).
Proof.
  intros H. destruct ks as [|k ks] using rev_ind; [exact H|].
  rewrite removelast_last. apply NoDup_app in H as (H & _). exact H.
Qed.

Lemma map_removelast l : List.map fst (removelast l) = removelast (List.map fst l).
Proof.
  induction l as [|p l IH]; [reflexivity|].
  destruct l as [|q l]; [reflexivity|].
  change (removelast (p :: q :: l)) with (p :: removelast (q :: l)).
  cbn [List.map]. rewrite IH. reflexivity.
Qed.

Lemma length_removelast l : length (removelast l) = pred (length l).
Proof.
  destruct l as [|p l] using rev_ind; [reflexivity|].
  rewrite removelast_last, length_app. cbn [length]. lia.
Qed.

Lemma front_in_order k v l :
  NoDup (List.map fst l) -> NoDup (List.map fst ((k, v) :: LRU.remove_key k l)).
Proof.
  intros H. cbn [List.map fst]. apply NoDup_cons. split; [|apply NoDup_remove_key, H].
  intros Hin. apply list_elem_of_In, remove_key_keys in Hin as [_ Hne]. apply Hne. reflexivity.
Qed.

Lemma Get_in_order n c k : cache_in_order n c -> cache_in_order n (snd (LRU.Get c k)).
Proof.
  intros (Hn & Hd & Hl). unfold LRU.Get.
  destruct (LRU.find k (LRU.ll c)) as [v|] eqn:E; cbn [snd]; [|repeat split; assumption].
  split; [exact Hn|]. cbn [LRU.ll]. split; [apply front_in_order, Hd|].
  pose proof (length_remove_key_found k v _ E). cbn [length]. lia.
Qed.

Lemma Remove_in_order n c k : cache_in_order n c -> cache_in_order n (LRU.Remove c k).
Proof.
  intros (Hn & Hd & Hl). split; [exact Hn|]. cbn [LRU.Remove LRU.ll].
  split; [apply NoDup_remove_key, Hd|]. pose proof (length_remove_key k (LRU.ll c)). lia.
Qed.

Lemma Add_in_order n c k v : cache_in_order n c -> cache_in_order n (LRU.Add c k v).
Proof.
  intros (Hn & Hd & Hl). unfold LRU.Add.
  destruct (LRU.find k (LRU.ll c)) as [v0|] eqn:E.
  - split; [exact Hn|]. cbn [LRU.ll]. split; [apply front_in_order, Hd|].
    pose proof (length_remove_key_found k v0 _ E). cbn [length]. lia.
  - assert (Hd' : NoDup (List.map fst ((k, v) :: LRU.ll c))).
    { cbn [List.map fst]. apply NoDup_cons. split; [|exact Hd].
      intros Hin. apply list_elem_of_In in Hin. exact (find_None_keys _ _ E Hin). }
    destruct (Nat.ltb_spec (LRU.maxEntries c) (length ((k, v) :: LRU.ll c))) as [Hlt|Hge].
    + split; [exact Hn|]. cbn [LRU.ll]. split.
      * rewrite map_removelast. apply NoDup_removelast, Hd'.
      * rewrite length_removelast. cbn [length pred]. lia.
    + split; [exact Hn|]. cbn [LRU.ll]. split; [exact Hd'|]. lia.
Qed.

Lemma peek_Remove_Some c k k' v :
  LRU.peek (LRU.Remove c k) k' = Some v -> LRU.peek c k' = Some v.
Proof.
  destruct (string_dec k k') as [<- | Hne].
  - rewrite peek_Remove_same. discriminate.
  - rewrite (peek_Remove_other _ _ _ Hne). auto.
Qed.

End LRUOrder.

Lemma state_in_order_Remove (s : Server) (n : nat) (st : State) (file : string) :
  state_in_order s n st ->
  state_in_order s n (with_cache st (LRU.Remove (dirEntries st) file)).
Proof.
  intros [Hc Hn]. split; [apply Remove_in_order, Hc|].
  intros f l Hp. cbn [with_cache heap dirEntries] in Hp |- *.
  apply peek_Remove_Some in Hp. exact (Hn f l Hp).
Qed.

(** Whatever [entry] returns, it leaves the state in order, and the
    entries allocated before keep their address and their name. *)
Lemma entry_in_order (w : World) (s : Server) (n : nat) (file : string)
    (st st' : State) (r : outcome nat) :
  state_in_order s n st ->
  entry w s file st = (r, st') ->
  state_in_order s n st' /\ heap_evolves (heap st) (heap st').
Proof.
  intros Hok Hentry. pose proof Hok as [Hc Hinv].
  destruct (GoStrings.HasPrefix file (root s)) eqn:Hpre.
  2:{ rewrite (entry_not_in_root w s file st Hpre) in Hentry.
      injection Hentry as <- <-. split; [exact Hok | apply heap_evolves_refl]. }
  destruct (os_Stat w file) as [info|err|] eqn:Hstat.
  2,3: revert Hentry; unfold entry; rewrite Hpre; cbn [negb];
       unfold bindM at 1; unfold liftM at 1; rewrite Hstat; intros [= <- <-];
       (split; [exact Hok | apply heap_evolves_refl]).
  destruct (IsDir info) eqn:Hdir.
  { rewrite (entry_directory w s file info Hpre Hstat st Hdir) in Hentry.
    injection Hentry as <- <-. split; [|apply heap_evolves_app].
    split; [exact Hc|].
    intros f l Hpeek. cbn [heap dirEntries] in Hpeek |- *.
    destruct (Hinv f l Hpeek) as (e & Hl & Hname).
    exists e. split; [apply lookup_app_l_Some; exact Hl | exact Hname]. }
  destruct (cache_slot_cases s st file (TimeFromGo (ModTime info)) Hinv)
    as [[l0 Hfresh] | Hother].
  - rewrite (entry_file_hit w s file info Hpre Hstat st l0 Hdir Hfresh) in Hentry.
    injection Hentry as <- <-. split; [|apply heap_evolves_refl].
    split; [apply Get_in_order, Hc|].
    intros f l Hp. cbn [with_cache heap dirEntries] in Hp |- *.
    rewrite peek_Get in Hp. exact (Hinv f l Hp).
  - revert Hentry.
    rewrite (entry_file_rebuild w s file info Hpre Hstat st Hdir Hother). cbv zeta.
    pose proof (state_in_order_Remove s n st file Hok) as Hrm.
    destruct (DirEntry_Size w _) as [offs|err|];
      [|intros [= <- <-]; split; [exact Hrm | apply heap_evolves_refl]..].
    destruct (user s) as [u|];
      [|intros [= <- <-]; split; [exact Hrm | apply heap_evolves_refl]].
    destruct (Factotum u) as [fk|];
      [|intros [= <- <-]; split; [exact Hrm | apply heap_evolves_refl]].
    destruct (FileSign w _ _) as [sig|err|];
      [|intros [= <- <-]; split; [exact Hrm | apply heap_evolves_refl]..].
    destruct (pdMarshal [] sig None) as [pd|err|];
      [|intros [= <- <-]; split; [exact Hrm | apply heap_evolves_refl]..].
    intros [= <- <-]. split; [|apply heap_evolves_app].
    split; [apply Add_in_order, Remove_in_order, Hc|].
    intros f l Hp. cbn [heap dirEntries] in Hp |- *.
    destruct (string_dec file f) as [<- | Hnf].
    + apply peek_Add_fresh in Hp. subst l.
      eexists. split; [apply list_lookup_middle; reflexivity | reflexivity].
    + apply (peek_Add_other _ _ _ _ _ Hnf) in Hp.
      rewrite (peek_Remove_other _ _ _ Hnf) in Hp.
      destruct (Hinv f l Hp) as (e1 & Hl1 & Hn1).
      exists e1. split; [apply lookup_app_l_Some; exact Hl1 | exact Hn1].
Qed.

(** ** What [filepath.Walk] keeps *)

Section WalkKeeps.

Context {WS : Type}.
Variables (w : World) (walkFn : WalkFunc WS).
Variables (I : WS -> Prop) (Q : outcome unit -> Prop).

(** The closure keeps [I] and returns within [Q] whenever it is called
    with a file description or with an error. *)
Hypothesis walkFn_keeps :
  forall f info err ws r ws',
    (info = None -> err <> None) ->
    I ws -> walkFn f info err ws = (r, ws') -> I ws' /\ Q r.
Hypothesis Q_nil : Q (Ok tt).

Lemma walk_names_keeps (rec : string -> FileInfo -> WS -> option (outcome unit * WS))
    (path : string) (names : list string) :
  (forall f fi ws r ws', I ws -> rec f fi ws = Some (r, ws') -> I ws' /\ Q r) ->
  forall ws r ws',
    I ws -> walk_names w rec walkFn path names ws = Some (r, ws') -> I ws' /\ Q r.
Proof.
  intros Hrec. induction names as [|name names IH]; intros ws r ws' HI;
    cbn [walk_names].
  - intros [= <- <-]. auto.
  - destruct (os_Lstat w (filepath_Join path name)) as [fi|err|] eqn:Hl.
    3:{ exfalso. exact (os_call_no_panic _ _ _ Hl). }
    + destruct (rec (filepath_Join path name) fi ws) as [[r1 ws1]|] eqn:Hr;
        [|discriminate].
      destruct (Hrec _ _ _ _ _ HI Hr) as [HI1 HQ1].
      destruct r1 as [u|err|].
      * apply IH, HI1.
      * destruct (negb (IsDir fi) || negb (is_SkipDir err)).
        -- intros [= <- <-]. auto.
        -- apply IH, HI1.
      * intros [= <- <-]. auto.
    + destruct (walkFn (filepath_Join path name) None (Some err) ws) as [r1 ws1] eqn:Hf.
      pose proof Hf as Hk. apply walkFn_keeps in Hk as [HI1 HQ1]; [|congruence|exact HI].
      destruct r1 as [u|err1|].
      * apply IH, HI1.
      * destruct (is_SkipDir err1); [apply IH, HI1|]. intros [= <- <-]. auto.
      * intros [= <- <-]. auto.
Qed.

Lemma walk_keeps (depth : nat) :
  forall path info ws r ws',
    I ws -> walk w depth walkFn path info ws = Some (r, ws') -> I ws' /\ Q r.
Proof.
  induction depth as [|depth IH]; intros path info ws r ws' HI; [discriminate|].
  rewrite walk_unfold.
  destruct (negb (IsDir info)).
  - intros [= H]. apply walkFn_keeps in H; [exact H|congruence|exact HI].
  - destruct (readDirNames w path) as [names|err|] eqn:Hr.
    3:{ exfalso. exact (os_call_no_panic _ _ _ Hr). }
    + destruct (walkFn path (Some info) None ws) as [r1 ws1] eqn:Hf.
      pose proof Hf as Hk. apply walkFn_keeps in Hk as [HI1 HQ1]; [|congruence|exact HI].
      destruct r1 as [u|err|].
      * apply walk_names_keeps; [exact IH | exact HI1].
      * intros [= <- <-]. auto.
      * intros [= <- <-]. auto.
    + intros [= H]. apply walkFn_keeps in H; [exact H|congruence|exact HI].
Qed.

(** [Walk] changes the state through the closure only, and its result
    is a result of the closure or nil. *)
Lemma Walk_keeps (depth : nat) (root : string) (ws ws' : WS) (r : outcome unit) :
  I ws -> Walk w depth root walkFn ws = Some (r, ws') -> I ws' /\ Q r.
Proof.
  intros HI. unfold Walk.
  destruct (os_Lstat w root) as [info|err|] eqn:Hl.
  3:{ exfalso. exact (os_call_no_panic _ _ _ Hl). }
  - destruct (walk w depth walkFn root info ws) as [[r1 ws1]|] eqn:Hw; [|discriminate].
    destruct (walk_keeps depth _ _ _ _ _ HI Hw) as [HI1 HQ1].
    destruct r1 as [u|err|]; [intros [= <- <-]; auto | | intros [= <- <-]; auto].
    destruct (is_SkipDir err || is_SkipAll err); intros [= <- <-]; auto.
  - destruct (walkFn root None (Some err) ws) as [r1 ws1] eqn:Hf.
    pose proof Hf as Hk. apply walkFn_keeps in Hk as [HI1 HQ1]; [|congruence|exact HI].
    destruct r1 as [u|err1|]; [intros [= <- <-]; auto | | intros [= <- <-]; auto].
    destruct (is_SkipDir err1 || is_SkipAll err1); intros [= <- <-]; auto.
Qed.

End WalkKeeps.

(** The closure of [listDir] keeps the state in order. *)
Lemma listDir_walk_in_order (w : World) (s : Server) (n : nat) (dir : string)
    (h0 : list DirEntry) (f : string) (info : option FileInfo) (err : option error)
    (ws ws' : State * list nat) (r : outcome unit) :
  walk_in_order s n h0 ws ->
  listDir_walk w s dir f info err ws = (r, ws') ->
  walk_in_order s n h0 ws'.
Proof.
  destruct ws as [st entries]. intros [Hok Hev]. cbn [fst] in *. unfold listDir_walk.
  destruct err as [err|]; [intros [= <- <-]; split; assumption|].
  destruct (String.eqb f dir); [intros [= <- <-]; split; assumption|].
  destruct info as [info|]; [|intros [= <- <-]; split; assumption].
  destruct (negb (Mode_IsDir (Mode info)) && negb (Mode_IsRegular (Mode info)));
    [intros [= <- <-]; split; assumption|].
  destruct (entry w s f st) as [r1 st1] eqn:He.
  destruct (entry_in_order w s n f st st1 r1 Hok He) as [Hok1 Hev1].
  pose proof (heap_evolves_trans _ _ _ Hev Hev1) as Hev01.
  destruct r1 as [e|err|]; [|intros [= <- <-]; split; assumption..].
  destruct (path_Parse w _) as [parsed|err|]; [|intros [= <- <-]; split; assumption..].
  destruct (can w s access.Read parsed) as [ok|err|];
    [|intros [= <- <-]; split; assumption..].
  assert (Hmark : walk_in_order s n h0
                    ((if negb ok then mark_incomplete e st1 else st1), entries ++ [e])).
  { destruct ok; cbn [negb]; [split; assumption|]. split; cbn [fst].
    - destruct Hok1 as [Hc1 Hn1]. split; [exact Hc1|].
      apply (cache_names_evolves s st1); [reflexivity | apply heap_evolves_mark | exact Hn1].
    - eapply heap_evolves_trans; [exact Hev01 | apply heap_evolves_mark]. }
  destruct (Mode_IsDir (Mode info)); intros [= <- <-]; exact Hmark.
Qed.

(** X21. Every operation leaves the shared state in order, whatever it
    returns. The state that [New] makes is in order for [maxCacheEntries];
    from a state in order for a capacity, [entry], [Lookup],
    [WhichAccess] and [listDir] lead to a state in order for that
    capacity: the cache holds every file once at most and no more files
    than the capacity, every cached address holds an entry named after
    its file, and every entry allocated before is still at its address
    under its name, incomplete if it was. *)
Theorem state_stays_in_order (w : World) (s : Server) (n : nat) :
  (forall cfg r srv st, New w cfg r = Ok (srv, st) -> state_in_order s maxCacheEntries st)
  /\ (forall file st r st',
        state_in_order s n st -> entry w s file st = (r, st') ->
        state_in_order s n st' /\ heap_evolves (heap st) (heap st'))
  /\ (forall pathName st r st',
        state_in_order s n st -> Lookup w s pathName st = (r, st') ->
        state_in_order s n st' /\ heap_evolves (heap st) (heap st'))
  /\ (forall pathName st r st',
        state_in_order s n st -> WhichAccess w s pathName st = (r, st') ->
        state_in_order s n st' /\ heap_evolves (heap st) (heap st'))
  /\ (forall depth name st entries r st',
        state_in_order s n st -> listDir w s depth name st = Some (entries, r, st') ->
        state_in_order s n st' /\ heap_evolves (heap st) (heap st')).
Proof.
  split; [|split; [|split; [|split]]].
  - intros cfg r srv st HN. split; [|exact (cache_names_New w cfg r srv s st HN)].
    revert HN. unfold New. cbv zeta.
    destruct (negb (filepath_IsAbs _)); [discriminate|].
    destruct (os_Stat w _) as [fi|err|]; [| |discriminate].
    + destruct (negb (IsDir fi)); [discriminate|].
      destruct (access_New w _) as [a|err|]; cbn [wrap obind]; try discriminate.
      intros [= <- <-]. split; [reflexivity|]. split; [constructor | cbn; lia].
    + destruct (os_IsNotExist err); discriminate.
  - intros file st r st'. apply entry_in_order.
  - intros pathName st r st' Hok. unfold Lookup. cbv zeta.
    unfold bindM at 1. unfold liftM at 1.
    destruct (path_Parse w pathName) as [parsed| |]; cbn [wrap];
      [|intros [= <- <-]; split; [exact Hok | apply heap_evolves_refl]..].
    unfold bindM at 1. unfold liftM at 1.
    destruct (verifyUserRoot s parsed) as [[]| |]; cbn [wrap];
      [|intros [= <- <-]; split; [exact Hok | apply heap_evolves_refl]..].
    unfold bindM at 1. unfold liftM at 1.
    destruct (can w s access.List parsed) as [[|]| |]; cbn [wrap negb];
      [|intros [= <- <-]; split; [exact Hok | apply heap_evolves_refl]..].
    unfold wrapM. destruct (entry w s _ st) as [r1 st1] eqn:He.
    intros [= <- <-]. exact (entry_in_order w s n _ st st1 r1 Hok He).
  - intros pathName st r st' Hok. unfold WhichAccess. cbv zeta.
    unfold bindM at 1. unfold liftM at 1.
    destruct (path_Parse w pathName) as [parsed| |]; cbn [wrap];
      [|intros [= <- <-]; split; [exact Hok | apply heap_evolves_refl]..].
    unfold bindM at 1. unfold liftM at 1.
    destruct (verifyUserRoot s parsed) as [[]| |]; cbn [wrap];
      [|intros [= <- <-]; split; [exact Hok | apply heap_evolves_refl]..].
    unfold bindM at 1. unfold liftM at 1.
    destruct (can w s access.AnyRight parsed) as [[|]| |]; cbn [wrap negb];
      [|intros [= <- <-]; split; [exact Hok | apply heap_evolves_refl]..].
    unfold bindM at 1. unfold liftM at 1.
    destruct (whichAccess w s parsed) as [accessPath| |]; cbn [wrap];
      [|intros [= <- <-]; split; [exact Hok | apply heap_evolves_refl]..].
    unfold wrapM. destruct (entry w s _ st) as [r1 st1] eqn:He.
    intros [= <- <-]. exact (entry_in_order w s n _ st st1 r1 Hok He).
  - intros depth name st entries r st' Hok. unfold listDir.
    destruct (path_Parse w name) as [parsed| |];
      [|intros [= <- <- <-]; split; [exact Hok | apply heap_evolves_refl]..].
    destruct (can w s access.List parsed) as [[|]| |];
      [|intros [= <- <- <-]; split; [exact Hok | apply heap_evolves_refl]..].
    destruct (Walk w depth _ _ (st, [])) as [[r1 [st1 es1]]|] eqn:HW; [|discriminate].
    intros [= <- <- <-].
    assert (H0 : walk_in_order s n (heap st) (st, [])).
    { split; [exact Hok | apply heap_evolves_refl]. }
    assert (Hfn : forall f info err ws r2 ws2,
               (info = None -> err <> None) ->
               walk_in_order s n (heap st) ws ->
               listDir_walk w s (filepath_Join (root s) (FilePath parsed)) f info err ws
               = (r2, ws2) ->
               walk_in_order s n (heap st) ws2 /\ True).
    { intros f info err ws r2 ws2 _ HI Hf. split; [|exact I].
      exact (listDir_walk_in_order w s n _ (heap st) f info err ws ws2 r2 HI Hf). }
    exact (proj1 (Walk_keeps w _ (walk_in_order s n (heap st)) (fun _ => True) Hfn I
                    depth _ (st, []) (st1, es1) r1 H0 HW)).
Qed.

Lemma state_stays_in_order_witness :
  state_in_order Demo.for_ann maxCacheEntries Demo.after_doc
  /\ heap_evolves (heap Demo.init) (heap Demo.after_doc).
Proof.
  assert (H0 : state_in_order Demo.for_ann maxCacheEntries Demo.init).
  { split; [split; [reflexivity | split; [constructor | apply Nat.le_0_l]]|].
    intros f l H. discriminate H. }
  destruct (state_stays_in_order Demo.world Demo.for_ann maxCacheEntries)
    as (_ & H & _).
  apply (H "/srv/doc" Demo.init (fst (entry Demo.world Demo.for_ann "/srv/doc" Demo.init)));
    [exact H0 | apply surjective_pairing].
Defined.

(** ** No nil dereference, no index out of range *)

Lemma from_reply_no_panic {A : Type} (r : reply A) : from_reply r <> Panic.
Proof. destruct r; discriminate. Qed.

Lemma whichAccess_loop_no_panic (w : World) (s : Server) (parsed : Parsed) (k i : nat) :
  whichAccess_loop w s parsed k i <> Panic.
Proof.
  revert i. induction k as [|k IH]; intros i; cbn [whichAccess_loop]; [discriminate|].
  unfold whichAccess_step.
  destruct (os_Stat w _) as [fi|e|] eqn:Hdir; [|discriminate|].
  2:{ exfalso. exact (os_call_no_panic _ _ _ Hdir). }
  destruct (IsDir fi); cbn [negb]; [|apply IH].
  destruct (os_Stat w (filepath_Join _ "Access")) as [fa|e|] eqn:Hacc.
  3:{ exfalso. exact (os_call_no_panic _ _ _ Hacc). }
  - destruct (negb (Mode_IsRegular (Mode fa))); [discriminate|].
    destruct (os_Open w _) as [[]|e|] eqn:Ho; [discriminate | discriminate|].
    exfalso. exact (os_call_no_panic _ _ _ Ho).
  - destruct (os_IsNotExist e); [apply IH | discriminate].
Qed.

Lemma readFile_no_panic (w : World) (s : Server) (name : PathName) :
  readFile w s name <> Panic.
Proof.
  unfold readFile.
  destruct (path_Parse w name) as [p|e|] eqn:Hp; cbn [obind]; [|discriminate|].
  2:{ exfalso. exact (from_reply_no_panic _ Hp). }
  destruct (os_Stat w _) as [fi|e|] eqn:Hs; cbn [obind]; [|discriminate|].
  2:{ exfalso. exact (os_call_no_panic _ _ _ Hs). }
  destruct (IsDir fi); [discriminate|]. destruct (_ =? 0); [discriminate|].
  apply os_call_no_panic.
Qed.

(** After [Dial] the check of a right does not panic. *)
Lemma can_no_panic (w : World) (s : Server) (u : Config) (right : access.Right)
    (parsed : Parsed) :
  user s = Some u -> can w s right parsed <> Panic.
Proof.
  intros Hu. unfold can. rewrite Hu.
  destruct (whichAccess w s parsed) as [afn|e|] eqn:Hw; cbn [obind]; [|discriminate|].
  2:{ exfalso. exact (whichAccess_loop_no_panic _ _ _ _ _ Hw). }
  destruct (negb (String.eqb afn "")); cbn [obind]; [|apply from_reply_no_panic].
  destruct (readFile w s afn) as [data|e|] eqn:Hr; cbn [obind]; [|discriminate|].
  2:{ exfalso. exact (readFile_no_panic _ _ _ Hr). }
  destruct (access_Parse w afn data) as [a|e|] eqn:Ha; cbn [obind]; [|discriminate|].
  2:{ exfalso. exact (from_reply_no_panic _ Ha). }
  apply from_reply_no_panic.
Qed.

Lemma entry_no_panic (w : World) (s : Server) (u : Config) (f : nat) (file : string)
    (st : State) :
  user s = Some u -> Factotum u = Some f -> signatures_fit w -> cache_names s st ->
  fst (entry w s file st) <> Panic.
Proof.
  intros Hu Hf Hfit Hinv.
  destruct (GoStrings.HasPrefix file (root s)) eqn:Hpre.
  2:{ rewrite (entry_not_in_root w s file st Hpre). discriminate. }
  destruct (os_Stat w file) as [info|err|] eqn:Hstat.
  3:{ exfalso. exact (os_call_no_panic _ _ _ Hstat). }
  2:{ unfold entry. rewrite Hpre. cbn [negb]. unfold bindM at 1. unfold liftM at 1.
      rewrite Hstat. discriminate. }
  destruct (IsDir info) eqn:Hdir.
  { rewrite (entry_directory w s file info Hpre Hstat st Hdir). discriminate. }
  destruct (cache_slot_cases s st file (TimeFromGo (ModTime info)) Hinv)
    as [[l0 Hfresh] | Hother].
  - rewrite (entry_file_hit w s file info Hpre Hstat st l0 Hdir Hfresh). discriminate.
  - rewrite (entry_file_rebuild w s file info Hpre Hstat st Hdir Hother). cbv zeta.
    destruct (DirEntry_Size w _) as [offs|err|] eqn:Hsize; [|discriminate|].
    2:{ exfalso. exact (from_reply_no_panic _ Hsize). }
    rewrite Hu, Hf.
    destruct (FileSign w _ _) as [sig|err|] eqn:Hsign; [|discriminate|].
    2:{ exfalso. exact (from_reply_no_panic _ Hsign). }
    destruct (Hfit _ _ _ Hsign) as [HR HS].
    pose proof (pd_field_length _ HR) as H1. pose proof (pd_field_length _ HS) as H2.
    rewrite (pdMarshal_fits [] sig None); [discriminate|].
    change (pd_encoding sig None)
      with (pd_field (sig_R sig) ++ pd_field (sig_S sig) ++ [Byte.x00; Byte.x00]).
    rewrite !length_app. cbn [length].
    unfold packdataLen, marshalBufLen, binary_MaxVarintLen64 in *. lia.
Qed.

Lemma listDir_walk_no_panic (w : World) (s : Server) (u : Config) (fk : nat) (n : nat)
    (dir : string) (h0 : list DirEntry) (f : string) (info : option FileInfo)
    (err : option error) (ws ws' : State * list nat) (r : outcome unit) :
  user s = Some u -> Factotum u = Some fk -> signatures_fit w ->
  (info = None -> err <> None) ->
  walk_in_order s n h0 ws ->
  listDir_walk w s dir f info err ws = (r, ws') ->
  walk_in_order s n h0 ws' /\ r <> Panic.
Proof.
  intros Hu Hfk Hfit Hcall HI Hf.
  split; [exact (listDir_walk_in_order w s n dir h0 f info err ws ws' r HI Hf)|].
  revert Hf. destruct ws as [st entries]. destruct HI as [[_ Hinv] _]. cbn [fst] in Hinv.
  unfold listDir_walk.
  destruct err as [err|]; [intros [= <- _]; discriminate|].
  destruct (String.eqb f dir); [intros [= <- _]; discriminate|].
  destruct info as [info|]; [|exfalso; exact (Hcall eq_refl eq_refl)].
  destruct (negb (Mode_IsDir (Mode info)) && negb (Mode_IsRegular (Mode info)));
    [intros [= <- _]; discriminate|].
  pose proof (entry_no_panic w s u fk f st Hu Hfk Hfit Hinv) as He.
  destruct (entry w s f st) as [[e|err|] st1]; cbn [fst] in He;
    [|intros [= <- _]; discriminate|contradiction].
  destruct (path_Parse w _) as [parsed|err|] eqn:Hp; [|intros [= <- _]; discriminate|].
  2:{ exfalso. exact (from_reply_no_panic _ Hp). }
  pose proof (can_no_panic w s u access.Read parsed Hu) as Hc.
  destruct (can w s access.Read parsed) as [ok|err|];
    [|intros [= <- _]; discriminate|contradiction].
  destruct (Mode_IsDir (Mode info)); intros [= <- _]; discriminate.
Qed.

(** X22. After [Dial], from a state in order:
    - [Get] does not panic;
    - if the caller's configuration has a factotum and the values of
      the signer fit into [marshalBufLen] bytes, [entry], [Lookup],
      [WhichAccess] and [listDir] do not panic: [can] finds the user,
      [entry] finds every cached address on the heap and its factotum,
      [pdMarshal] stays within its buffer, and [filepath.Walk] never
      calls the lister's closure without a file description or an
      error;
    - if the caller's configuration has no factotum, [entry] panics on
      every file whose entry it has to sign, after the slot of the file
      has been cleared. *)
Theorem dialed_requests_do_not_panic (w : World) (s : Server) (u : Config) (n : nat)
    (st : State) :
  user s = Some u ->
  state_in_order s n st ->
  (forall ref, fst (Get w s ref st) <> Panic)
  /\ (forall f,
        Factotum u = Some f ->
        signatures_fit w ->
        (forall file, fst (entry w s file st) <> Panic)
        /\ (forall pathName, fst (Lookup w s pathName st) <> Panic)
        /\ (forall pathName, fst (WhichAccess w s pathName st) <> Panic)
        /\ (forall depth name entries r st',
              listDir w s depth name st = Some (entries, r, st') -> r <> Panic))
  /\ (Factotum u = None ->
      forall file info offs,
        GoStrings.HasPrefix file (root s) = true ->
        os_Stat w file = Ok info ->
        IsDir info = false ->
        LRU.peek (dirEntries st) file = None
        \/ cached_stale st file (TimeFromGo (ModTime info)) ->
        DirEntry_Size w (bare_entry s file info) = Ok offs ->
        entry w s file st = (Panic, with_cache st (LRU.Remove (dirEntries st) file))).
Proof.
  intros Hu Hok. pose proof Hok as [_ Hinv].
  split; [|split].
  - intros ref. unfold Get. rewrite Hu. cbv zeta. unfold bindM, liftM, failM, retM.
    destruct (path_Parse w _) as [parsed|err|] eqn:Hp; cbn [wrap fst]; [|discriminate|].
    2:{ exfalso. exact (from_reply_no_panic _ Hp). }
    pose proof (can_no_panic w s u access.Read parsed Hu) as Hc.
    destruct (can w s access.Read parsed) as [[|]|err|]; cbn [wrap negb fst];
      [|discriminate|discriminate|contradiction].
    pose proof (readFile_no_panic w s) as Hr.
    destruct (readFile w s _) as [data|err|] eqn:E; cbn [wrap fst];
      [discriminate|discriminate|exfalso; exact (Hr _ E)].
  - intros f Hf Hfit. split; [|split; [|split]].
    + intros file. exact (entry_no_panic w s u f file st Hu Hf Hfit Hinv).
    + intros pathName. unfold Lookup. cbv zeta. unfold bindM, liftM, failM.
      destruct (path_Parse w _) as [parsed|err|] eqn:Hp; cbn [wrap fst]; [|discriminate|].
      2:{ exfalso. exact (from_reply_no_panic _ Hp). }
      unfold verifyUserRoot. destruct (negb _); cbn [wrap fst]; [discriminate|].
      pose proof (can_no_panic w s u access.List parsed Hu) as Hc.
      destruct (can w s access.List parsed) as [[|]|err|]; cbn [wrap negb fst];
        [|discriminate|discriminate|contradiction].
      pose proof (entry_no_panic w s u f (filepath_Join (root s) (FilePath parsed)) st
                    Hu Hf Hfit Hinv) as He.
      unfold wrapM. destruct (entry w s _ st) as [[l|err|] st1]; cbn [wrap fst] in *;
        [discriminate|discriminate|contradiction].
    + intros pathName. unfold WhichAccess. cbv zeta. unfold bindM, liftM, failM.
      destruct (path_Parse w _) as [parsed|err|] eqn:Hp; cbn [wrap fst]; [|discriminate|].
      2:{ exfalso. exact (from_reply_no_panic _ Hp). }
      unfold verifyUserRoot. destruct (negb _); cbn [wrap fst]; [discriminate|].
      pose proof (can_no_panic w s u access.AnyRight parsed Hu) as Hc.
      destruct (can w s access.AnyRight parsed) as [[|]|err|]; cbn [wrap negb fst];
        [|discriminate|discriminate|contradiction].
      destruct (whichAccess w s parsed) as [accessPath|err|] eqn:Hw; cbn [wrap fst];
        [|discriminate|].
      2:{ exfalso. exact (whichAccess_loop_no_panic _ _ _ _ _ Hw). }
      pose proof (entry_no_panic w s u f accessPath st Hu Hf Hfit Hinv) as He.
      unfold wrapM. destruct (entry w s _ st) as [[l|err|] st1]; cbn [wrap fst] in *;
        [discriminate|discriminate|contradiction].
    + intros depth name entries r st'. unfold listDir.
      destruct (path_Parse w name) as [parsed|err|] eqn:Hp;
        [|intros [= _ <- _]; discriminate|].
      2:{ exfalso. exact (from_reply_no_panic _ Hp). }
      pose proof (can_no_panic w s u access.List parsed Hu) as Hc.
      destruct (can w s access.List parsed) as [[|]|err|];
        [|intros [= _ <- _]; discriminate..|contradiction].
      destruct (Walk w depth _ _ (st, [])) as [[r1 [st1 es1]]|] eqn:HW; [|discriminate].
      intros [= _ <- _].
      assert (H0 : walk_in_order s n (heap st) (st, [])).
      { split; [exact Hok | apply heap_evolves_refl]. }
      assert (Hfn : forall f0 info err ws r2 ws2,
                 (info = None -> err <> None) ->
                 walk_in_order s n (heap st) ws ->
                 listDir_walk w s (filepath_Join (root s) (FilePath parsed)) f0 info err ws
                 = (r2, ws2) ->
                 walk_in_order s n (heap st) ws2 /\ r2 <> Panic).
      { intros f0 info err ws r2 ws2.
        exact (listDir_walk_no_panic w s u f n _ (heap st) f0 info err ws ws2 r2
                 Hu Hf Hfit). }
      exact (proj2 (Walk_keeps w _ (walk_in_order s n (heap st)) (fun r => r <> Panic) Hfn
                      ltac:(discriminate) depth _ (st, []) (st1, es1) r1 H0 HW)).
  - intros Hnone file info offs Hpre Hstat Hdir Hother Hsize.
    rewrite (entry_file_rebuild w s file info Hpre Hstat st Hdir Hother). cbv zeta.
    rewrite Hsize, Hu, Hnone. reflexivity.
Qed.

Lemma dialed_requests_do_not_panic_witness :
  fst (Lookup Demo2.world_small_signatures Demo.for_bob "ann@example.com/doc" Demo.init)
  <> Panic
  /\ entry Demo.world Demo2.for_keyless "/srv/doc" Demo.init
     = (Panic, with_cache Demo.init (LRU.Remove (dirEntries Demo.init) "/srv/doc")).
Proof.
  assert (H0 : forall s, state_in_order s maxCacheEntries Demo.init).
  { intros s. split; [split; [reflexivity | split; [constructor | apply Nat.le_0_l]]|].
    intros f l H. discriminate H. }
  split.
  - assert (Hu : user Demo.for_bob = Some Demo.bob) by run.
    assert (Hf : Factotum Demo.bob = Some 2%nat) by run.
    assert (Hfit : signatures_fit Demo2.world_small_signatures).
    { intros f hash sig H. injection H as <-. split; reflexivity. }
    destruct (dialed_requests_do_not_panic Demo2.world_small_signatures Demo.for_bob
                Demo.bob maxCacheEntries Demo.init Hu (H0 _)) as (_ & H & _).
    destruct (H 2%nat Hf Hfit) as (_ & HL & _). apply HL.
  - assert (Hu : user Demo2.for_keyless = Some Demo2.keyless) by run.
    destruct (dialed_requests_do_not_panic Demo.world Demo2.for_keyless
                Demo2.keyless maxCacheEntries Demo.init Hu (H0 _)) as (_ & _ & H).
    assert (Hnone : Factotum Demo2.keyless = None) by run.
    assert (Hpre : GoStrings.HasPrefix "/srv/doc" (root Demo2.for_keyless) = true) by run.
    assert (Hstat : os_Stat Demo.world "/srv/doc" = Ok Demo.doc_info) by run.
    assert (Hdir : IsDir Demo.doc_info = false) by run.
    assert (Hpeek : LRU.peek (dirEntries Demo.init) "/srv/doc" = None) by run.
    assert (Hsize : DirEntry_Size Demo.world
                      (bare_entry Demo2.for_keyless "/srv/doc" Demo.doc_info) = Ok 0)
      by run.
    exact (H Hnone "/srv/doc" Demo.doc_info 0 Hpre Hstat Hdir (or_introl Hpeek) Hsize).
Defined.

(** ** The grain of the modification time *)

(** X23. The cache compares whole seconds. Once [entry] has returned
    the entry of a file, a change of the file that leaves the second of
    its modification time as it was is not noticed, whatever the new
    size and the new nanoseconds: the next call returns the same address
    and allocates nothing, so that the entry still describes the file as
    it was. *)
Theorem same_second_change_is_not_noticed (w w' : World) (s : Server) (file : string)
    (info info' : FileInfo) (st st1 : State) (l : nat) :
  GoStrings.HasPrefix file (root s) = true ->
  (0 < LRU.maxEntries (dirEntries st))%nat ->
  os_Stat w file = Ok info -> IsDir info = false ->
  entry w s file st = (Ok l, st1) ->
  os_Stat w' file = Ok info' -> IsDir info' = false ->
  unix_sec (ModTime info') = unix_sec (ModTime info) ->
  entry w' s file st1 = (Ok l, with_cache st1 (snd (LRU.Get (dirEntries st1) file))).
Proof.
  intros Hpre Hcap Hstat Hdir Hentry Hstat' Hdir' Hsec.
  pose proof (entry_file_Ok_cached w s file info st st1 l Hpre Hstat Hdir Hcap Hentry)
    as Hfresh.
  apply (entry_file_hit w' s file info' Hpre Hstat' st1 l Hdir').
  unfold TimeFromGo in *. rewrite Hsec. exact Hfresh.
Qed.

Lemma same_second_change_is_not_noticed_witness :
  entry Demo2.world_rewritten Demo.for_ann "/srv/doc" Demo.after_doc
  = (Ok 0%nat,
     with_cache Demo.after_doc (snd (LRU.Get (dirEntries Demo.after_doc) "/srv/doc"))).
Proof.
  assert (Hpre : GoStrings.HasPrefix "/srv/doc" (root Demo.for_ann) = true) by run.
  assert (Hcap : (0 < LRU.maxEntries (dirEntries Demo.init))%nat)
    by (apply Nat.ltb_lt; run).
  assert (Hstat : os_Stat Demo.world "/srv/doc" = Ok Demo.doc_info) by run.
  assert (Hdir : IsDir Demo.doc_info = false) by run.
  assert (Hentry : entry Demo.world Demo.for_ann "/srv/doc" Demo.init
                   = (Ok 0%nat, Demo.after_doc)) by run.
  assert (Hstat' : os_Stat Demo2.world_rewritten "/srv/doc" = Ok Demo2.doc_rewritten)
    by run.
  assert (Hdir' : IsDir Demo2.doc_rewritten = false) by run.
  assert (Hsec : unix_sec (ModTime Demo2.doc_rewritten) = unix_sec (ModTime Demo.doc_info))
    by run.
  exact (same_second_change_is_not_noticed Demo.world Demo2.world_rewritten Demo.for_ann
           "/srv/doc" Demo.doc_info Demo2.doc_rewritten Demo.init Demo.after_doc 0
           Hpre Hcap Hstat Hdir Hentry Hstat' Hdir' Hsec).
Defined.

(** ** Errors name the operation *)

(** X24. Every error that [Get], [Lookup] or [WhichAccess] returns is an
    [errors.E] value whose first argument is the operation, whatever
    went wrong below; the state is not consulted for that. *)
Theorem errors_name_the_operation (w : World) (s : Server) (st : State) :
  (forall ref err,
     fst (Get w s ref st) = Fail err ->
     exists rest, err = E (AOp "store/filesystem.Get" :: rest))
  /\ (forall pathName err,
        fst (Lookup w s pathName st) = Fail err ->
        exists rest, err = E (AOp "dir/filesystem.Lookup" :: rest))
  /\ (forall pathName err,
        fst (WhichAccess w s pathName st) = Fail err ->
        exists rest, err = E (AOp "dir/filesystem.WhichAccess" :: rest)).
Proof.
  split; [|split].
  - intros ref err. unfold Get. cbv zeta.
    destruct (user s); [|intros [= <-]; eauto].
    unfold bindM, liftM, failM, retM.
    destruct (path_Parse w _) as [parsed| |]; cbn [wrap fst];
      [|intros [= <-]; eauto|discriminate].
    destruct (can w s access.Read parsed) as [[|]| |]; cbn [wrap negb fst];
      [|intros [= <-]; eauto|intros [= <-]; eauto|discriminate].
    destruct (readFile w s _) as [data| |]; cbn [wrap fst];
      [discriminate|intros [= <-]; eauto|discriminate].
  - intros pathName err. unfold Lookup. cbv zeta. unfold bindM, liftM, failM.
    destruct (path_Parse w _) as [parsed| |]; cbn [wrap fst];
      [|intros [= <-]; eauto|discriminate].
    destruct (verifyUserRoot s parsed) as [[]| |]; cbn [wrap fst];
      [|intros [= <-]; eauto|discriminate].
    destruct (can w s access.List parsed) as [[|]| |]; cbn [wrap negb fst];
      [|intros [= <-]; eauto|intros [= <-]; eauto|discriminate].
    unfold wrapM. destruct (entry w s _ st) as [[l| |] st1]; cbn [wrap fst];
      [discriminate|intros [= <-]; eauto|discriminate].
  - intros pathName err. unfold WhichAccess. cbv zeta. unfold bindM, liftM, failM.
    destruct (path_Parse w _) as [parsed| |]; cbn [wrap fst];
      [|intros [= <-]; eauto|discriminate].
    destruct (verifyUserRoot s parsed) as [[]| |]; cbn [wrap fst];
      [|intros [= <-]; eauto|discriminate].
    destruct (can w s access.AnyRight parsed) as [[|]| |]; cbn [wrap negb fst];
      [|intros [= <-]; eauto|intros [= <-]; eauto|discriminate].
    destruct (whichAccess w s parsed) as [accessPath| |]; cbn [wrap fst];
      [|intros [= <-]; eauto|discriminate].
    unfold wrapM. destruct (entry w s _ st) as [[l| |] st1]; cbn [wrap fst];
      [discriminate|intros [= <-]; eauto|discriminate].
Qed.

Lemma errors_name_the_operation_witness :
  exists rest,
    E [AOp "dir/filesystem.Lookup"; AErr (PathError "stat" "/srv/nothing" ENOENT)]
    = E (AOp "dir/filesystem.Lookup" :: rest).
Proof.
  destruct (errors_name_the_operation Demo.world Demo.for_bob Demo.init) as (_ & H & _).
  apply (H "ann@example.com/nothing"). run.
Defined.
